(** * Caremates: the offline-first synchronisation engine

    A shallow embedding of the recording store ([audio-store.ts]), the upload
    pipeline ([lib/upload.ts]) and the service-worker coordinator
    ([app/sw.ts]), with the properties of the specification stated over it.

    Conventions of the embedding.
    - The IndexedDB database is a pair of finite maps keyed by the record id
      (both object stores use [keyPath: "id"]).  Store transactions are
      taken to complete; a failing transaction is outside the model.
    - Every [await fetch(...)] draws its outcome from an oracle indexed by
      the number of requests issued so far, and every [Math.random()] from
      an oracle indexed by the number of draws so far.
    - JavaScript numbers that are counters or HTTP status codes are [Z].
      Delays are doubles: rationals on which every arithmetic operation
      rounds to the nearest binary64 value, ties to even ([Double]).
    - [clients.matchAll] and [sync.register] draw their outcome from
      oracles indexed by the number of events recorded so far.
    - Each asynchronous function is a computation in a state-and-exception
      monad that also records the observable calls in a trace. *)

From Stdlib Require Import ZArith QArith Qpower Qround Qabs List String Ascii Lia Lqa.
From Stdlib.Strings Require Import Byte.
From stdpp Require Import gmap strings list fin_maps pretty.

Close Scope Q_scope.
Local Open Scope Z_scope.
Local Open Scope string_scope.

(* ===================================================================== *)
(** * Platform notions: truthiness, Blob *)
(* ===================================================================== *)

Module Js.

(** [!!s] for an optional string: [undefined] and [""] are falsy. *)
Definition truthy (s : option string) : bool :=
  match s with
  | Some (String _ _) => true
  | _ => false
  end.

(** [a || b] on optional strings with a string default. *)
Definition or_else (s : option string) (d : string) : string :=
  match s with
  | Some (String c r) => String c r
  | _ => d
  end.

(** [a ?? b]: only [undefined] selects the default. *)
Definition nullish (s : option string) (d : string) : string :=
  match s with
  | Some v => v
  | None => d
  end.

Definition printable (c : ascii) : bool :=
  let n := nat_of_ascii c in ((32 <=? n) && (n <=? 126))%nat.

Definition ascii_lower (c : ascii) : ascii :=
  let n := nat_of_ascii c in
  if ((65 <=? n) && (n <=? 90))%nat then ascii_of_nat (n + 32) else c.

Fixpoint all_printable (s : string) : bool :=
  match s with
  | EmptyString => true
  | String c r => printable c && all_printable r
  end.

Fixpoint lower (s : string) : string :=
  match s with
  | EmptyString => EmptyString
  | String c r => String (ascii_lower c) (lower r)
  end.

(** The [type] option of the Blob constructor: a string with a character
    outside U+0020..U+007E becomes empty, otherwise it is lower-cased. *)
Definition normalize_type (t : string) : string :=
  if all_printable t then lower t else "".

Record Blob := mkBlob { blob_bytes : list byte; blob_type : string }.

(** [new Blob([data], { type })]. *)
Definition new_Blob (data : list byte) (type : string) : Blob :=
  {| blob_bytes := data; blob_type := normalize_type type |}.

(** A Blob value can only come from the constructor, so its type is
    already normalised. *)
Definition Blob_wf (b : Blob) : Prop := normalize_type (blob_type b) = blob_type b.

(** [await blob.arrayBuffer()]. *)
Definition arrayBuffer (b : Blob) : list byte := blob_bytes b.

End Js.

(* ===================================================================== *)
(** * audio-store.ts *)
(* ===================================================================== *)

Module AudioStore.
Import Js.

Inductive Status := local | uploading | synced | failed.

#[global] Instance Status_eq_dec : EqDecision Status.
Proof. solve_decision. Defined.

(** [Recording], generic in the representation of its payload: the
    application sees a [Blob], the object store holds whatever was put. *)
Record RecordingOf (P : Type) := mkRecording {
  id : string;
  filename : string;
  blob : P;
  fileSize : Z;
  duration : Q;
  recordedAt : string;
  status : Status;
  s3Key : option string;
  uploadAttempts : Z;
  lastError : option string;
}.
Arguments mkRecording {P}.
Arguments id {P}.
Arguments filename {P}.
Arguments blob {P}.
Arguments fileSize {P}.
Arguments duration {P}.
Arguments recordedAt {P}.
Arguments status {P}.
Arguments s3Key {P}.
Arguments uploadAttempts {P}.
Arguments lastError {P}.

Abbreviation Recording := (RecordingOf Blob).

(** What a stored object carries in place of the payload: either a native
    [blob] property, or the [data] + [mimeType] pair. *)
Inductive Stored :=
| NativeBlob (b : Blob)
| RawBytes (data : list byte) (mimeType : option string).

Abbreviation Raw := (RecordingOf Stored).

Record PendingDelete := mkPendingDelete { pd_id : string; pd_s3Key : string }.

(** [{ ...rest, blob: p }]: every field but the payload is copied. *)
Definition with_payload {P R : Type} (r : RecordingOf P) (p : R) : RecordingOf R :=
  {| id := id r; filename := filename r; blob := p; fileSize := fileSize r;
     duration := duration r; recordedAt := recordedAt r; status := status r;
     s3Key := s3Key r; uploadAttempts := uploadAttempts r;
     lastError := lastError r |}.

Definition hydrateRecording (raw : Raw) : Recording :=
  match blob raw with
  | NativeBlob b => with_payload raw b
  | RawBytes data mimeType =>
      with_payload raw (new_Blob data (or_else mimeType "audio/webm"))
  end.

(** The database: the [recordings] and [pending-deletes] object stores.
    Both are keyed by the [id] property of the stored object.  A pending
    delete [{ id, s3Key }] is therefore held as the binding [id ↦ s3Key]. *)
Record DB := mkDB {
  recordings : gmap string Raw;
  pendingDeletes : gmap string string;
}.

Definition emptyDB : DB := {| recordings := ∅; pendingDeletes := ∅ |}.

Definition set_recordings (db : DB) (m : gmap string Raw) : DB :=
  {| recordings := m; pendingDeletes := pendingDeletes db |}.

Definition set_pendingDeletes (db : DB) (m : gmap string string) : DB :=
  {| recordings := recordings db; pendingDeletes := m |}.

Definition storable (recording : Recording) : Raw :=
  let data := arrayBuffer (blob recording) in
  with_payload recording (RawBytes data (Some (blob_type (blob recording)))).

Definition saveRecording (recording : Recording) (db : DB) : DB :=
  set_recordings db (<[id recording := storable recording]> (recordings db)).

(** [getAll()] lists the values of the store (IndexedDB answers in key
    order; the order plays no role below). *)
Definition getAllRecordings (db : DB) : list Recording :=
  hydrateRecording <$> (map_to_list (recordings db)).*2.

Definition deleteRecording (i : string) (db : DB) : DB :=
  set_recordings db (delete i (recordings db)).

Definition getRecordingById (i : string) (db : DB) : option Recording :=
  hydrateRecording <$> recordings db !! i.

Definition getRecordingsByStatus (statuses : list Status) (db : DB) : list Recording :=
  List.filter (fun r => bool_decide (status r ∈ statuses)) (getAllRecordings db).

(** [extras?: { uploadAttempts?, lastError?, s3Key? }]. *)
Record Extras := mkExtras {
  x_uploadAttempts : option Z;
  x_lastError : option string;
  x_s3Key : option string;
}.

(** The object spread that builds [updated]. *)
Definition updated (raw : Raw) (st : Status) (extras : Extras) : Raw :=
  {| id := id raw; filename := filename raw; blob := blob raw;
     fileSize := fileSize raw; duration := duration raw;
     recordedAt := recordedAt raw;
     status := st;
     s3Key := match x_s3Key extras with
              | Some k => Some k
              | None => s3Key raw
              end;
     uploadAttempts := match x_uploadAttempts extras with
                       | Some n => n
                       | None => uploadAttempts raw
                       end;
     lastError := match x_lastError extras with
                  | Some e => Some e
                  | None => if decide (st = synced) then None else lastError raw
                  end |}.

(** The record read under key [i] has [id = i], so [put(updated)] writes
    the same key. *)
Definition updateRecordingStatus (i : string) (st : Status) (extras : Extras)
    (db : DB) : option Recording * DB :=
  match recordings db !! i with
  | None => (None, db)
  | Some raw =>
      let u := updated raw st extras in
      (Some (hydrateRecording u), set_recordings db (<[i := u]> (recordings db)))
  end.

Definition addPendingDelete (entry : PendingDelete) (db : DB) : DB :=
  set_pendingDeletes db (<[pd_id entry := pd_s3Key entry]> (pendingDeletes db)).

Definition getAllPendingDeletes (db : DB) : list PendingDelete :=
  (fun e => mkPendingDelete e.1 e.2) <$> map_to_list (pendingDeletes db).

Definition removePendingDelete (i : string) (db : DB) : DB :=
  set_pendingDeletes db (delete i (pendingDeletes db)).

End AudioStore.

(* ===================================================================== *)
(** * JavaScript numbers: binary64 arithmetic on the rationals *)
(* ===================================================================== *)

(** A finite double is [m * 2^e] with [|m| < 2^53] and [-1074 <= e].  An
    operation computes the exact rational result and rounds it to the
    nearest double, ties to the even significand.  Overflow (results of
    magnitude [2^1024] and above) is outside the model: the delays of the
    pipeline are a few thousand. *)

Module Double.
Local Open Scope Q_scope.

Definition prec : Z := 53.
Definition emin : Z := -1074.

Definition representable (x : Q) : Prop :=
  exists m e : Z,
    (Z.abs m < 2 ^ prec)%Z /\ (emin <= e)%Z /\ x == inject_Z m * 2 ^ e.

(** The exponent of the power of two at or below [|x|]. *)
Definition binade (x : Q) : Z :=
  let e0 := (Z.log2 (Z.abs (Qnum x)) - Z.log2 (Zpos (Qden x)))%Z in
  if Qle_bool (2 ^ e0) (Qabs x) then e0 else (e0 - 1)%Z.

(** The exponent of the unit in the last place of [x]. *)
Definition ulp_exp (x : Q) : Z := Z.max (binade x - (prec - 1)) emin.

(** The nearest integer, ties to even. *)
Definition nearest_even (x : Q) : Z :=
  let f := Qfloor x in
  match Qcompare (x - inject_Z f) (1 # 2) with
  | Lt => f
  | Gt => (f + 1)%Z
  | Eq => if Z.even f then f else (f + 1)%Z
  end.

Definition round (x : Q) : Q :=
  let e := ulp_exp x in
  inject_Z (nearest_even (x / 2 ^ e)) * 2 ^ e.

(** [x + y], [x * y] and [Math.pow(x, n)] for an integer [n]. *)
Definition add (x y : Q) : Q := round (x + y).
Definition mul (x y : Q) : Q := round (x * y).
Definition pow (x : Q) (n : Z) : Q := round (x ^ n).

End Double.

(* ===================================================================== *)
(** * The effects of the worker: requests, store calls, sleeps *)
(* ===================================================================== *)

Module Effects.
Import Js AudioStore.

(** Values that can be thrown. *)
Inductive JsError :=
| TypeError (message : string)
| DOMException (name message : string)
| UploadError (message : string) (retryable : bool)
| OtherError (message : string)
| NonError.

(** [err instanceof Error ? err.message : undefined]. *)
Definition error_message (e : JsError) : option string :=
  match e with
  | TypeError m | DOMException _ m | UploadError m _ | OtherError m => Some m
  | NonError => None
  end.

(** What [await response.json()] followed by [.result.data.json] gives. *)
Inductive Body :=
| BodyUploadUrl (url key : string)
| BodyThrows (e : JsError).

Record Response := mkResponse { resp_status : Z; resp_body : Body }.

Definition ok (r : Response) : bool :=
  ((200 <=? resp_status r) && (resp_status r <=? 299))%Z.

Inductive FetchOutcome :=
| Resolved (r : Response)
| Rejected (e : JsError).

(** The argument of [saveRecordingToDb]. *)
Record SaveData := mkSaveData {
  sd_id : string;
  sd_filename : string;
  sd_s3Key : option string;
  sd_fileSize : Z;
  sd_duration : Q;
  sd_recordedAt : string;
  sd_status : Status;
  sd_lastError : option string;
}.

Inductive Request :=
| GetUploadUrl (filename : string)
| PutS3 (url : string) (body : Blob) (contentType : string)
| SaveRecording (data : SaveData)
| DeleteRecording (s3Key id : string)
| Health.

(** What [clients.matchAll({ type: "window" })] settles with: the window
    clients open at that moment, counted, or a rejection. *)
Inductive ClientsOutcome :=
| Windows (n : nat)
| MatchAllRejected (e : JsError).

Inductive Event :=
| EvFetch (req : Request) (out : FetchOutcome)
| EvUpdateRecordingStatus (i : string) (st : Status) (extras : Extras)
| EvDeleteRecording (i : string)
| EvSleep (ms : Q)
| EvAddPendingDelete (entry : PendingDelete)
| EvRemovePendingDelete (i : string)
| EvRegisterSync
| EvScheduleRetry
| EvMatchAll (out : ClientsOutcome)
| EvBroadcast (recordingId : string) (st : Status) (error : option string).

(** [EvRegisterSync] is a call of [sync.register], whether it resolves or
    rejects; [EvMatchAll] a call of [clients.matchAll]; [EvBroadcast] one
    message posted to one window client. *)

(** The environment: what the network answers to the n-th request, what
    the n-th [Math.random()] returns, what [navigator.onLine] reads once n
    requests have been issued, the two platform facts the worker branches
    on, and what [clients.matchAll] settles with and whether
    [sync.register] rejects once n events have been recorded. *)
Record World := mkWorld {
  net : nat -> FetchOutcome;
  rnd : nat -> Q;
  onLine : nat -> bool;
  isSafari : bool;
  hasSync : bool;
  matchAll : nat -> ClientsOutcome;
  syncRegister : nat -> option JsError;
}.

(** The mutable locals of [uploadRecording]. *)
Record Locals := mkLocals {
  l_s3Key : option string;
  l_lastError : option string;
}.

Record St := mkSt {
  db : DB;
  fetches : nat;
  draws : nat;
  trace : list Event;
  locals : Locals;
  retryTimer : bool;
}.

Inductive Result (A : Type) :=
| Ok (a : A)
| Throw (e : JsError).
Arguments Ok {A}.
Arguments Throw {A}.

Definition M (A : Type) : Type := World -> St -> Result A * St.

Definition ret {A} (a : A) : M A := fun _ s => (Ok a, s).

Definition throw {A} (e : JsError) : M A := fun _ s => (Throw e, s).

Definition bind {A B} (c : M A) (k : A -> M B) : M B :=
  fun w s =>
    match c w s with
    | (Ok a, s') => k a w s'
    | (Throw e, s') => (Throw e, s')
    end.

(** [try { c } catch (err) { h err }]. *)
Definition catch {A} (c : M A) (h : JsError -> M A) : M A :=
  fun w s =>
    match c w s with
    | (Ok a, s') => (Ok a, s')
    | (Throw e, s') => h e w s'
    end.

Definition set_db (d : DB) (s : St) : St :=
  {| db := d; fetches := fetches s; draws := draws s; trace := trace s;
     locals := locals s; retryTimer := retryTimer s |}.

Definition log (ev : Event) (s : St) : St :=
  {| db := db s; fetches := fetches s; draws := draws s;
     trace := trace s ++ [ev]; locals := locals s;
     retryTimer := retryTimer s |}.

Definition set_locals (l : Locals) (s : St) : St :=
  {| db := db s; fetches := fetches s; draws := draws s; trace := trace s;
     locals := l; retryTimer := retryTimer s |}.

Definition set_retryTimer (b : bool) (s : St) : St :=
  {| db := db s; fetches := fetches s; draws := draws s; trace := trace s;
     locals := locals s; retryTimer := b |}.

Definition next_fetch (s : St) : St :=
  {| db := db s; fetches := S (fetches s); draws := draws s;
     trace := trace s; locals := locals s; retryTimer := retryTimer s |}.

Definition next_draw (s : St) : St :=
  {| db := db s; fetches := fetches s; draws := S (draws s);
     trace := trace s; locals := locals s; retryTimer := retryTimer s |}.

(** [await fetch(req)]: resolves with a response or rejects. *)
Definition fetch (req : Request) : M Response :=
  fun w s =>
    let out := net w (fetches s) in
    let s' := log (EvFetch req out) (next_fetch s) in
    match out with
    | Resolved r => (Ok r, s')
    | Rejected e => (Throw e, s')
    end.

(** [response.json()] and the property path read from it. *)
Definition json (r : Response) : M (string * string) :=
  match resp_body r with
  | BodyUploadUrl url key => ret (url, key)
  | BodyThrows e => throw e
  end.

Definition random : M Q :=
  fun w s => (Ok (rnd w (draws s)), next_draw s).

Definition sleep (ms : Q) : M unit :=
  fun _ s => (Ok tt, log (EvSleep ms) s).

Definition get_s3Key : M (option string) :=
  fun _ s => (Ok (l_s3Key (locals s)), s).

Definition set_s3Key (k : option string) : M unit :=
  fun _ s => (Ok tt, set_locals {| l_s3Key := k; l_lastError := l_lastError (locals s) |} s).

Definition get_lastError : M (option string) :=
  fun _ s => (Ok (l_lastError (locals s)), s).

Definition set_lastError (e : option string) : M unit :=
  fun _ s => (Ok tt, set_locals {| l_s3Key := l_s3Key (locals s); l_lastError := e |} s).

(** The store operations, lifted. *)
Definition getRecordingById (i : string) : M (option Recording) :=
  fun _ s => (Ok (AudioStore.getRecordingById i (db s)), s).

Definition getRecordingsByStatus (statuses : list Status) : M (list Recording) :=
  fun _ s => (Ok (AudioStore.getRecordingsByStatus statuses (db s)), s).

Definition updateRecordingStatus (i : string) (st : Status) (extras : Extras)
    : M (option Recording) :=
  fun _ s =>
    let '(r, d) := AudioStore.updateRecordingStatus i st extras (db s) in
    (Ok r, log (EvUpdateRecordingStatus i st extras) (set_db d s)).

Definition deleteRecording (i : string) : M unit :=
  fun _ s =>
    (Ok tt, log (EvDeleteRecording i) (set_db (AudioStore.deleteRecording i (db s)) s)).

Definition addPendingDelete (entry : PendingDelete) : M unit :=
  fun _ s =>
    (Ok tt, log (EvAddPendingDelete entry)
              (set_db (AudioStore.addPendingDelete entry (db s)) s)).

Definition getAllPendingDeletes : M (list PendingDelete) :=
  fun _ s => (Ok (AudioStore.getAllPendingDeletes (db s)), s).

Definition removePendingDelete (i : string) : M unit :=
  fun _ s =>
    (Ok tt, log (EvRemovePendingDelete i)
              (set_db (AudioStore.removePendingDelete i (db s)) s)).

End Effects.

Declare Scope js_scope.
Delimit Scope js_scope with js.
Notation "'await' x <- c ; k" := (Effects.bind c (fun x => k))
  (at level 10, x name, c at level 100, k at level 200,
   format "'[v' 'await'  x  <-  c ; '/' k ']'") : js_scope.
Notation "'await' ' pat <- c ; k" :=
  (Effects.bind c (fun x => match x with pat => k end))
  (at level 10, pat pattern, c at level 100, k at level 200) : js_scope.
Notation "'perform' c ; k" := (Effects.bind c (fun _ => k))
  (at level 10, c at level 100, k at level 200,
   format "'[v' 'perform'  c ; '/' k ']'") : js_scope.

(* ===================================================================== *)
(** * server/routers/audio.ts: the key of an upload target *)
(* ===================================================================== *)

Module AudioRouter.

(** [const key = `recordings/${input.filename}`] in [getUploadUrl]. *)
Definition upload_key (filename : string) : string := "recordings/" +:+ filename.

End AudioRouter.

(* ===================================================================== *)
(** * lib/upload.ts *)
(* ===================================================================== *)

Module Upload.
Import Js AudioStore Effects.
Local Open Scope js_scope.

Definition MAX_ATTEMPTS : Z := 3.

(** The abort raised after [FETCH_TIMEOUT_MS] is one of the rejections the
    network oracle can answer ([DOMException "AbortError"]). *)
Definition fetchWithTimeout (req : Request) : M Response := fetch req.

Definition isNetworkError (error : JsError) : bool :=
  match error with
  | TypeError _ => true
  | DOMException name _ => String.eqb name "AbortError"
  | _ => false
  end.

Definition isRetryableStatus (status : Z) : bool :=
  ((status >=? 500) || (status =? 408) || (status =? 429))%Z.

Definition isRetryableError (error : JsError) : bool :=
  match error with
  | UploadError _ retryable => retryable
  | _ => false
  end.

(** [1000 * Math.pow(2, attempt) * (0.5 + Math.random())], each operation
    in double arithmetic. *)
Definition backoffDelay (attempt : Z) : M Q :=
  let base := Double.mul 1000 (Double.pow 2 attempt) in
  await r <- random;
  let jitter := Double.add (1 # 2) r in
  ret (Double.mul base jitter).

Record UploadResult := mkUploadResult {
  success : bool;
  recordingId : string;
  res_status : Status;
  error : option string;
}.

Definition getPresignedUrl (filename : string) : M (string * string) :=
  await response <-
    catch (fetchWithTimeout (GetUploadUrl filename))
      (fun err =>
         if isNetworkError err then throw err
         else throw (UploadError "Failed to get presigned URL" false));
  if negb (ok response) then
    throw (UploadError
             ("Failed to get presigned URL: " +:+ pretty (resp_status response))
             (isRetryableStatus (resp_status response)))
  else json response.

Definition putToS3 (url : string) (blob : Blob) (contentType : string) : M unit :=
  await response <-
    catch (fetch (PutS3 url blob contentType))
      (fun err =>
         if isNetworkError err then throw err
         else throw (UploadError "S3 upload failed" false));
  if negb (ok response) then
    throw (UploadError
             ("S3 upload failed: " +:+ pretty (resp_status response))
             (isRetryableStatus (resp_status response)))
  else ret tt.

Definition saveRecordingToDb (data : SaveData) : M unit :=
  await response <-
    catch (fetchWithTimeout (SaveRecording data))
      (fun err =>
         if isNetworkError err then throw err
         else throw (UploadError "Failed to save to database" false));
  if negb (ok response) then
    throw (UploadError
             ("Failed to save to database: " +:+ pretty (resp_status response))
             (isRetryableStatus (resp_status response)))
  else ret tt.

(** How one pass through the body of the [for] loop ends. *)
Inductive Flow :=
| Return (r : UploadResult)
| Break
| Continue.

Definition save_data (recording : Recording) (key : option string)
    (st : Status) (err : option string) : SaveData :=
  {| sd_id := id recording; sd_filename := filename recording;
     sd_s3Key := key; sd_fileSize := fileSize recording;
     sd_duration := duration recording;
     sd_recordedAt := recordedAt recording;
     sd_status := st; sd_lastError := err |}.

(** The [try] block of the loop body. *)
Definition attempt_try (recordingId : string) (recording : Recording) : M Flow :=
  await k <- get_s3Key;
  perform (if negb (truthy k) then
         let contentType := or_else (Some (blob_type (blob recording))) "audio/webm" in
         await '(url, key) <- getPresignedUrl (filename recording);
         perform putToS3 url (blob recording) contentType;
         perform set_s3Key (Some key);
         perform updateRecordingStatus recordingId uploading
               {| x_uploadAttempts := None; x_lastError := None;
                  x_s3Key := Some key |};
         ret tt
       else ret tt);
  await k' <- get_s3Key;
  perform saveRecordingToDb (save_data recording k' synced None);
  perform deleteRecording recordingId;
  ret (Return {| success := true; recordingId := recordingId;
                 res_status := synced; error := None |}).

(** The [catch] block of the loop body. *)
Definition attempt_catch (recordingId : string) (startAttempt attempt : Z)
    (err : JsError) : M Flow :=
  perform set_lastError (Some (nullish (error_message err) "Unknown error"));
  if isNetworkError err then
    perform updateRecordingStatus recordingId local
          {| x_uploadAttempts := Some startAttempt; x_lastError := None;
             x_s3Key := None |};
    await lastError <- get_lastError;
    ret (Return {| success := false; recordingId := recordingId;
                   res_status := local; error := lastError |})
  else if negb (isRetryableError err) then ret Break
  else if (attempt + 1 >=? MAX_ATTEMPTS)%Z then ret Break
  else ret Continue.

Definition attempt_body (recordingId : string) (recording : Recording)
    (startAttempt attempt : Z) : M Flow :=
  perform (if (attempt >? startAttempt)%Z then
         await d <- backoffDelay (attempt - 1);
         sleep d
       else ret tt);
  perform updateRecordingStatus recordingId uploading
        {| x_uploadAttempts := Some (attempt + 1)%Z; x_lastError := None;
           x_s3Key := None |};
  catch (attempt_try recordingId recording)
        (attempt_catch recordingId startAttempt attempt).

(** [for (attempt = startAttempt; attempt < MAX_ATTEMPTS; attempt++)], as a
    walk over the indices the loop visits; [None] means the loop was left
    without a [return]. *)
Fixpoint attempts_loop (body : Z -> M Flow) (indices : list Z)
    : M (option UploadResult) :=
  match indices with
  | [] => ret None
  | attempt :: rest =>
      await flow <- body attempt;
      match flow with
      | Return r => ret (Some r)
      | Break => ret None
      | Continue => attempts_loop body rest
      end
  end.

Definition loop_indices (startAttempt : Z) : list Z :=
  seqZ startAttempt (MAX_ATTEMPTS - startAttempt).

(** What follows the loop: the terminal failure. *)
Definition terminal_failure (recordingId : string) (recording : Recording) : M UploadResult :=
  await lastError <- get_lastError;
  perform updateRecordingStatus recordingId failed
        {| x_uploadAttempts := Some MAX_ATTEMPTS; x_lastError := lastError;
           x_s3Key := None |};
  await s3Key <- get_s3Key;
  perform catch (saveRecordingToDb (save_data recording s3Key failed lastError))
        (fun _ => ret tt);
  ret {| success := false; recordingId := recordingId;
         res_status := failed; error := lastError |}.

Definition uploadRecording (recordingId : string) : M UploadResult :=
  await found <- getRecordingById recordingId;
  match found with
  | None =>
      ret {| success := false; recordingId := recordingId;
             res_status := failed; error := Some "Recording not found" |}
  | Some recording =>
      if decide (status recording = synced) then
        ret {| success := true; recordingId := recordingId;
               res_status := synced; error := None |}
      else if (uploadAttempts recording >=? MAX_ATTEMPTS)%Z then
        ret {| success := false; recordingId := recordingId;
               res_status := failed;
               error := Some (nullish (lastError recording)
                                "Maximum upload attempts reached") |}
      else
        perform set_s3Key (s3Key recording);
        perform set_lastError None;
        let startAttempt := uploadAttempts recording in
        await left <-
          attempts_loop (attempt_body recordingId recording startAttempt)
            (loop_indices startAttempt);
        match left with
        | Some r => ret r
        | None => terminal_failure recordingId recording
        end
  end.

Definition deleteRecordingFromServer (s3Key id : string) : M bool :=
  await response <- fetchWithTimeout (DeleteRecording s3Key id);
  ret (ok response).

Fixpoint uploadEach (pending : list Recording) (results : list UploadResult)
    : M (list UploadResult) :=
  match pending with
  | [] => ret results
  | recording :: rest =>
      await result <- uploadRecording (id recording);
      uploadEach rest (results ++ [result])
  end.

Definition uploadAllPending : M (list UploadResult) :=
  await pending <- getRecordingsByStatus [local; uploading];
  uploadEach pending [].

End Upload.

(* ===================================================================== *)
(** * Vocabulary for the properties of the pipeline *)
(* ===================================================================== *)

Module UploadSpec.
Import Js AudioStore Effects Upload.
Local Open Scope list_scope.

(** The error a remote call throws for, or the response it accepts from,
    the outcome of its request. *)
Definition classify (what : string) (out : FetchOutcome) : Result Response :=
  match out with
  | Rejected e =>
      Throw (if isNetworkError e then e else UploadError what false)
  | Resolved r =>
      if ok r then Ok r
      else Throw (UploadError (what +:+ ": " +:+ pretty (resp_status r))
                    (isRetryableStatus (resp_status r)))
  end.

Definition presign_result (out : FetchOutcome) : Result (string * string) :=
  match classify "Failed to get presigned URL" out with
  | Ok r =>
      match resp_body r with
      | BodyUploadUrl url key => Ok (url, key)
      | BodyThrows e => Throw e
      end
  | Throw e => Throw e
  end.

Definition put_result (out : FetchOutcome) : Result unit :=
  match classify "S3 upload failed" out with
  | Ok _ => Ok tt
  | Throw e => Throw e
  end.

Definition save_result (out : FetchOutcome) : Result unit :=
  match classify "Failed to save to database" out with
  | Ok _ => Ok tt
  | Throw e => Throw e
  end.

(** Every attempt count written to the store is within the budget. *)
Definition within_budget (ev : Event) : Prop :=
  match ev with
  | EvUpdateRecordingStatus _ _ x =>
      match x_uploadAttempts x with
      | Some n => (n <= MAX_ATTEMPTS)%Z
      | None => True
      end
  | _ => True
  end.

Definition stored_within_budget (d : DB) : Prop :=
  forall i raw, recordings d !! i = Some raw -> (uploadAttempts raw <= MAX_ATTEMPTS)%Z.

(** The events recorded between [s0] and [s] satisfy [P]. *)
Definition extends (s0 s : St) (P : list Event -> Prop) : Prop :=
  exists tr, trace s = trace s0 ++ tr /\ P tr.

Definition budget_kept (s0 s : St) : Prop :=
  extends s0 s (Forall within_budget)
  /\ (stored_within_budget (db s0) -> stored_within_budget (db s)).

(** Any sequence of invocations of the pipeline. *)
Fixpoint uploadRecordings (ids : list string) : M unit :=
  match ids with
  | [] => ret tt
  | i :: rest => bind (uploadRecording i) (fun _ => uploadRecordings rest)
  end.

(** No request other than the metadata commit. *)
Definition only_commit (ev : Event) : Prop :=
  match ev with
  | EvFetch (SaveRecording _) _ => True
  | EvFetch _ _ => False
  | _ => True
  end.

(** A key as the server issues it ([getUploadUrl] of the audio router). *)
Definition issued (key : string) : Prop :=
  exists filename, key = AudioRouter.upload_key filename.

(** Every stored key is one the server issued. *)
Definition keys_issued (d : DB) : Prop :=
  forall i raw key, recordings d !! i = Some raw -> s3Key raw = Some key -> issued key.

(** The server answers requests for an upload target as the audio router
    does. *)
Definition serves_keys (w : World) : Prop :=
  forall n r url key,
    net w n = Resolved r -> ok r = true -> resp_body r = BodyUploadUrl url key ->
    issued key.

Definition key_kept (s0 s : St) : Prop :=
  truthy (l_s3Key (locals s)) = true /\ extends s0 s (Forall only_commit).

(** [P d next] holds of every sleep of [d] milliseconds in the trace, where
    [next] is the event that follows it. *)
Fixpoint each_sleep (P : Q -> option Event -> Prop) (tr : list Event) : Prop :=
  match tr with
  | [] => True
  | EvSleep d :: rest => P d (head rest) /\ each_sleep P rest
  | _ :: rest => each_sleep P rest
  end.

(** [0.5 + r] in double arithmetic. *)
Definition jitter_of (r : Q) : Q := Double.add (1 # 2) r.

(** The delay slept before attempt number [k] when the draw is [r]: the
    double product of [1000 * 2^(k-2)] and the jitter. *)
Definition delay_before (k : Z) (r : Q) : Q :=
  Double.mul (Double.mul 1000 (Double.pow 2 (k - 2))) (jitter_of r).

(** The sleep of [d] milliseconds is followed at once by the write that
    opens attempt number [k] of [rid], and [d] is the delay before attempt
    [k] for a random draw of the world. *)
Definition backs_off (w : World) (rid : string) (d : Q) (next : option Event) : Prop :=
  exists k n,
    next = Some (EvUpdateRecordingStatus rid uploading
                   {| x_uploadAttempts := Some k; x_lastError := None;
                      x_s3Key := None |})
    /\ d = delay_before k (rnd w n).

Definition backing_off (w : World) (rid : string) (s0 s : St) : Prop :=
  extends s0 s (each_sleep (backs_off w rid)).

(** The error that the remote call issuing [req] throws for the outcome
    [out], if it throws. *)
Definition thrown (req : Request) (out : FetchOutcome) : option JsError :=
  match req with
  | GetUploadUrl _ =>
      match presign_result out with Throw e => Some e | Ok _ => None end
  | PutS3 _ _ _ =>
      match put_result out with Throw e => Some e | Ok _ => None end
  | SaveRecording _ =>
      match save_result out with Throw e => Some e | Ok _ => None end
  | _ => None
  end.

(** The requests of an upload attempt; the best-effort report of a terminal
    failure (a commit with status [failed]) is not one of them. *)
Definition attempt_request (req : Request) : bool :=
  match req with
  | GetUploadUrl _ | PutS3 _ _ _ => true
  | SaveRecording data => bool_decide (sd_status data = synced)
  | _ => false
  end.

(** An upload attempt fails with a network-class error. *)
Definition network_failure (ev : Event) : bool :=
  match ev with
  | EvFetch req out =>
      attempt_request req
      && match thrown req out with
         | Some e => isNetworkError e
         | None => false
         end
  | _ => false
  end.

(** After the first network failure the trace continues with [last] and
    nothing else. *)
Fixpoint stops_at_failure (last : Event) (tr : list Event) : Prop :=
  match tr with
  | [] => True
  | ev :: rest =>
      if network_failure ev then rest = [last] else stops_at_failure last rest
  end.

Definition no_failure (tr : list Event) : bool :=
  forallb (fun ev => negb (network_failure ev)) tr.

(** The write that sends the record back to [local]. *)
Definition back_to_local (rid : string) (start : Z) : Event :=
  EvUpdateRecordingStatus rid local
    {| x_uploadAttempts := Some start; x_lastError := None; x_s3Key := None |}.

Definition stored_as (rid : string) (st : Status) (attempts : Z) (d : DB) : Prop :=
  exists raw, recordings d !! rid = Some raw
              /\ status raw = st /\ uploadAttempts raw = attempts.

Definition net_clean (rid : string) (s0 s : St) : Prop :=
  extends s0 s (fun tr => no_failure tr = true)
  /\ is_Some (recordings (db s) !! rid).

Definition net_outcome (rid : string) (start : Z) (s0 : St)
    (res : UploadResult) (s : St) : Prop :=
  extends s0 s (fun tr =>
    stops_at_failure (back_to_local rid start) tr
    /\ (no_failure tr = false ->
        success res = false /\ res_status res = local /\ is_Some (error res)
        /\ stored_as rid local start (db s))).

(** The Blob that reading a stored payload gives. *)
Definition payload_blob (p : Stored) : Blob :=
  match p with
  | NativeBlob b => b
  | RawBytes data mimeType => new_Blob data (or_else mimeType "audio/webm")
  end.

(** The object store answered OK to a PUT of the payload [b]. *)
Definition put_confirmed (b : Blob) (tr : list Event) : Prop :=
  exists url ct r, EvFetch (PutS3 url b ct) (Resolved r) ∈ tr /\ ok r = true.

(** The metadata store answered OK to the commit of [recording] as [synced]. *)
Definition commit_confirmed (recording : Recording) (tr : list Event) : Prop :=
  exists key r,
    EvFetch (SaveRecording (save_data recording key synced None)) (Resolved r) ∈ tr
    /\ ok r = true.

Definition no_synced (d : DB) : Prop :=
  forall i raw, recordings d !! i = Some raw -> status raw <> synced.

(** A key is stored only for a payload whose PUT was confirmed. *)
Definition keys_confirmed (d : DB) (tr : list Event) : Prop :=
  forall i raw, recordings d !! i = Some raw -> is_Some (s3Key raw) ->
    put_confirmed (payload_blob (blob raw)) tr.

Definition consistent (s : St) : Prop :=
  no_synced (db s) /\ keys_confirmed (db s) (trace s).

(** Neither a removal of a record nor a write of status [synced]. *)
Definition quiet (ev : Event) : Prop :=
  match ev with
  | EvDeleteRecording _ => False
  | EvUpdateRecordingStatus _ st _ => st <> synced
  | _ => True
  end.

Definition payload_is (rid : string) (p : Stored) (d : DB) : Prop :=
  forall raw, recordings d !! rid = Some raw -> blob raw = p.

Definition uploading_inv (rid : string) (recording : Recording) (p : Stored)
    (s0 s : St) : Prop :=
  consistent s
  /\ payload_is rid p (db s)
  /\ (is_Some (l_s3Key (locals s)) -> put_confirmed (payload_blob p) (trace s))
  /\ extends s0 s (fun tr =>
       Forall quiet tr
       /\ (truthy (l_s3Key (locals s)) = true ->
           truthy (s3Key recording) = true
           \/ put_confirmed (blob recording) tr)).

Definition upload_outcome (rid : string) (recording : Recording) (s0 : St)
    (res : UploadResult) (s : St) : Prop :=
  consistent s
  /\ extends s0 s (fun tr =>
       if decide (res_status res = synced) then
         exists pre,
           tr = pre ++ [EvDeleteRecording rid]
           /\ Forall quiet pre
           /\ put_confirmed (blob recording) (trace s0 ++ pre)
           /\ (truthy (s3Key recording) = true
               \/ put_confirmed (blob recording) pre)
           /\ commit_confirmed recording pre
           /\ recordings (db s) !! rid = None
       else Forall quiet tr).

(** The state in which the loop is entered: [s3Key] and [lastError] are
    initialised from the record read. *)
Definition entered (recording : Recording) (s : St) : St :=
  set_locals {| l_s3Key := s3Key recording; l_lastError := None |} s.

(** A computation that returns normally, and what then holds. *)
Definition returns {A} (c : M A) (w : World) (s : St) (Q : A -> St -> Prop) : Prop :=
  match c w s with
  | (Ok a, s') => Q a s'
  | (Throw _, _) => False
  end.

End UploadSpec.

(* ===================================================================== *)
(** * app/sw.ts: the handlers *)
(* ===================================================================== *)

Module ServiceWorker.
Import Js AudioStore Effects Upload.
Local Open Scope js_scope.

(** [client.postMessage(...)] for each of [n] window clients. *)
Fixpoint postEach (n : nat) (result : UploadResult) (s : St) : St :=
  match n with
  | O => s
  | S n' =>
      postEach n' result
        (log (EvBroadcast (recordingId result) (res_status result) (error result)) s)
  end.

Definition broadcastStatus (result : UploadResult) : M unit :=
  fun w s =>
    let out := matchAll w (length (trace s)) in
    let s' := log (EvMatchAll out) s in
    match out with
    | Windows n => (Ok tt, postEach n result s')
    | MatchAllRejected e => (Throw e, s')
    end.

(** [if ("sync" in self.registration) await sync.register(...)]. *)
Definition registerSync : M unit :=
  fun w s =>
    if hasSync w then
      match syncRegister w (length (trace s)) with
      | None => (Ok tt, log EvRegisterSync s)
      | Some e => (Throw e, log EvRegisterSync s)
      end
    else (Ok tt, s).

(** Arms the probe timer unless one is pending; the probe itself runs as a
    later task. *)
Definition scheduleRetry : M unit :=
  fun _ s =>
    if retryTimer s then (Ok tt, s)
    else (Ok tt, log EvScheduleRetry (set_retryTimer true s)).

Definition navigator_onLine : M bool :=
  fun w s => (Ok (onLine w (fetches s)), s).

Definition checkConnectivity : M bool :=
  catch (await res <- fetch Health; ret (ok res)) (fun _ => ret false).

Definition handleUpload (recordingId : string) : M unit :=
  await online <- navigator_onLine;
  if negb online then registerSync
  else
    fun w =>
    (await reachable <- (if isSafari w then checkConnectivity else ret true);
     if negb reachable then scheduleRetry
     else
       perform broadcastStatus {| success := false; recordingId := recordingId;
                              res_status := uploading; error := None |};
       await result <- uploadRecording recordingId;
       perform broadcastStatus result;
       if negb (success result) then
         (if isSafari w then scheduleRetry else registerSync)
       else ret tt) w.

Definition handleDelete (recordingId s3Key : string) : M unit :=
  await online <- navigator_onLine;
  if negb online then
    perform addPendingDelete {| pd_id := recordingId; pd_s3Key := s3Key |};
    registerSync
  else
    catch (perform deleteRecordingFromServer s3Key recordingId; ret tt)
      (fun err =>
         if isNetworkError err then
           perform addPendingDelete {| pd_id := recordingId; pd_s3Key := s3Key |};
           fun w => (if isSafari w then scheduleRetry else registerSync) w
         else ret tt).

(** The body of [for (const entry of pending)]. *)
Definition retryDelete (entry : PendingDelete) : M unit :=
  catch
    (await deleted <- deleteRecordingFromServer (pd_s3Key entry) (pd_id entry);
     if deleted then removePendingDelete (pd_id entry) else ret tt)
    (fun _ => ret tt).

Fixpoint retryDeletes (pending : list PendingDelete) : M unit :=
  match pending with
  | [] => ret tt
  | entry :: rest => perform retryDelete entry; retryDeletes rest
  end.

Definition handleRetryDeletes : M unit :=
  await pending <- getAllPendingDeletes;
  retryDeletes pending.

Fixpoint broadcastEach (results : list UploadResult) : M unit :=
  match results with
  | [] => ret tt
  | result :: rest => perform broadcastStatus result; broadcastEach rest
  end.

Definition handleRetryAll : M unit :=
  perform handleRetryDeletes;
  await results <- uploadAllPending;
  perform broadcastEach results;
  let hasLocalPending :=
    existsb (fun r => bool_decide (res_status r = local)) results in
  await pendingDeletes <- getAllPendingDeletes;
  if hasLocalPending || (0 <? Z.of_nat (length pendingDeletes))%Z
  then scheduleRetry else ret tt.

End ServiceWorker.

(* ===================================================================== *)
(** * Vocabulary for the properties of the delete reconciler *)
(* ===================================================================== *)

Module ReconcileSpec.
Import Js AudioStore Effects Upload UploadSpec ServiceWorker.
Local Open Scope list_scope.

(** The server answered OK to a request to delete the remote copy of [i]. *)
Definition delete_confirmed (tr : list Event) (i : string) : Prop :=
  exists key r, EvFetch (DeleteRecording key i) (Resolved r) ∈ tr /\ ok r = true.

(** What a sweep over the entries [l] does between [s] and [s']. *)
Definition swept (l : list PendingDelete) (s s' : St) : Prop :=
  exists tr,
    trace s' = trace s ++ tr
    /\ (forall i, pendingDeletes (db s') !! i = None
                  <-> pendingDeletes (db s) !! i = None \/ delete_confirmed tr i)
    /\ (forall i key, pendingDeletes (db s') !! i = Some key ->
                      pendingDeletes (db s) !! i = Some key)
    /\ (forall key i out, EvFetch (DeleteRecording key i) out ∈ tr ->
                          mkPendingDelete i key ∈ l)
    /\ (forall e, e ∈ l ->
          exists out, EvFetch (DeleteRecording (pd_s3Key e) (pd_id e)) out ∈ tr).

End ReconcileSpec.

(* ===================================================================== *)
(** * app/sw.ts: the promise chain used as a queue *)
(* ===================================================================== *)

(** [uploadQueue = uploadQueue.then(task, task)] is modelled on a small
    heap of promises.  A pending promise holds the reactions registered on
    it by [then]; settling it turns them into jobs; a job calls its handler,
    and the promise derived by [then] settles when the promise returned by
    the handler does.  Messages may arrive between any two steps. *)

Module TaskQueue.

(** The thunks handed to [enqueue] by the listeners. *)
Inductive Task :=
| UploadTask (recordingId : string)
| DeleteTask (recordingId s3Key : string)
| RetryAllTask.

Inductive PageToSwMessage :=
| UPLOAD_RECORDING (recordingId : string)
| DELETE_RECORDING (recordingId s3Key : string)
| RETRY_ALL_UPLOADS.

Inductive Settlement := fulfilled | rejected.

Record Reaction := mkReaction {
  onFulfilled : Task;
  onRejected : Task;
  derived : nat;
}.

Inductive PromiseState :=
| Pending (reactions : list Reaction)
| Settled (o : Settlement).

(** A handler that is due to run (or running), and the promise that its
    completion settles. *)
Record Job := mkJob { job_task : Task; job_target : nat }.

Record Worker := mkWorker {
  heap : gmap nat PromiseState;
  next : nat;
  uploadQueue : nat;
  jobs : list Job;
  running : list Job;
}.

(** [let uploadQueue = Promise.resolve()]. *)
Definition init : Worker :=
  {| heap := {[ 0%nat := Settled fulfilled ]}; next := 1; uploadQueue := 0;
     jobs := []; running := [] |}.

Definition handler (o : Settlement) (r : Reaction) : Job :=
  {| job_task := match o with
                 | fulfilled => onFulfilled r
                 | rejected => onRejected r
                 end;
     job_target := derived r |}.

(** [p.then(onFulfilled, onRejected)]: returns the derived promise. *)
Definition then_ (p : nat) (onF onR : Task) (w : Worker) : nat * Worker :=
  let d := next w in
  let r := {| onFulfilled := onF; onRejected := onR; derived := d |} in
  let h := <[d := Pending []]> (heap w) in
  match heap w !! p with
  | Some (Pending rs) =>
      (d, {| heap := <[p := Pending (rs ++ [r])]> h; next := S d;
             uploadQueue := uploadQueue w; jobs := jobs w;
             running := running w |})
  | Some (Settled o) =>
      (d, {| heap := h; next := S d; uploadQueue := uploadQueue w;
             jobs := jobs w ++ [handler o r]; running := running w |})
  | None =>
      (d, {| heap := h; next := S d; uploadQueue := uploadQueue w;
             jobs := jobs w; running := running w |})
  end.

Definition enqueue (task : Task) (w : Worker) : Worker :=
  let '(d, w') := then_ (uploadQueue w) task task w in
  {| heap := heap w'; next := next w'; uploadQueue := d; jobs := jobs w';
     running := running w' |}.

Definition task_of (m : PageToSwMessage) : Task :=
  match m with
  | UPLOAD_RECORDING i => UploadTask i
  | DELETE_RECORDING i k => DeleteTask i k
  | RETRY_ALL_UPLOADS => RetryAllTask
  end.

(** The [message] listener. *)
Definition on_message (m : PageToSwMessage) (w : Worker) : Worker :=
  enqueue (task_of m) w.

(** The [sync] and [activate] listeners. *)
Definition on_sync (w : Worker) : Worker := enqueue RetryAllTask w.

(** The next job calls its handler: the task starts. *)
Definition start_job (w : Worker) : option (Task * Worker) :=
  match jobs w with
  | [] => None
  | j :: js =>
      Some (job_task j,
            {| heap := heap w; next := next w; uploadQueue := uploadQueue w;
               jobs := js; running := running w ++ [j] |})
  end.

(** The [i]-th running task completes with outcome [o]: the promise
    derived for it settles and its reactions become jobs. *)
Definition settle (i : nat) (o : Settlement) (w : Worker) : option (Task * Worker) :=
  match running w !! i with
  | None => None
  | Some j =>
      match heap w !! job_target j with
      | Some (Pending rs) =>
          Some (job_task j,
                {| heap := <[job_target j := Settled o]> (heap w);
                   next := next w; uploadQueue := uploadQueue w;
                   jobs := jobs w ++ (handler o <$> rs);
                   running := delete i (running w) |})
      | _ => None
      end
  end.

Inductive Label :=
| Enq (t : Task)
| Start (t : Task)
| Finish (t : Task) (o : Settlement).

Inductive step : Worker -> Label -> Worker -> Prop :=
| step_enq w t : step w (Enq t) (enqueue t w)
| step_start w t w' : start_job w = Some (t, w') -> step w (Start t) w'
| step_finish w i o t w' : settle i o w = Some (t, w') -> step w (Finish t o) w'.

(** Executions from the initial worker, with the labels in order. *)
Inductive exec : list Label -> Worker -> Prop :=
| exec_init : exec [] init
| exec_step tr w l w' : exec tr w -> step w l w' -> exec (tr ++ [l]) w'.

(** The tasks submitted, in submission order. *)
Definition submitted (tr : list Label) : list Task :=
  omap (fun l => match l with Enq t => Some t | _ => None end) tr.

(** The starts and completions, in order. *)
Definition activity (tr : list Label) : list Label :=
  List.filter (fun l => match l with Enq _ => false | _ => true end) tr.

(** A strictly serial run of [ts] with outcomes [os]: task, completion,
    task, completion, ... *)
Fixpoint serial (ts : list Task) (os : list Settlement) : list Label :=
  match ts, os with
  | t :: ts', o :: os' => Start t :: Finish t o :: serial ts' os'
  | _, _ => []
  end.

Definition started_of (cur : option Task) : list Label :=
  match cur with
  | Some t => [Start t]
  | None => []
  end.

End TaskQueue.

(* ===================================================================== *)
(** * Vocabulary for the properties of the queue *)
(* ===================================================================== *)

Module LaneSpec.
Import TaskQueue.
Local Open Scope list_scope.

(** The promises from [p] to [q] form the chain built by successive calls of
    [enqueue]: each is pending with the next task as its only reaction, and
    the last one, [q], has no reaction yet. *)
Fixpoint chain (h : gmap nat PromiseState) (p : nat) (ts : list Task) (q : nat) : Prop :=
  match ts with
  | [] => p = q /\ h !! p = Some (Pending [])
  | t :: ts' =>
      exists p',
        h !! p = Some (Pending [mkReaction t t p'])
        /\ (p < p')%nat /\ chain h p' ts' q
  end.

(** The shape of the worker when the tasks [rest] are still to start and
    [cur] is the task in flight. *)
Definition shape (w : Worker) (cur : option Task) (rest : list Task) : Prop :=
  (forall p, (next w <= p)%nat -> heap w !! p = None)
  /\ match cur with
     | Some t =>
         exists p, running w = [mkJob t p] /\ jobs w = []
                   /\ chain (heap w) p rest (uploadQueue w)
     | None =>
         running w = []
         /\ match rest with
            | [] => jobs w = []
                    /\ exists o, heap w !! uploadQueue w = Some (Settled o)
            | t :: rest' =>
                exists p, jobs w = [mkJob t p]
                          /\ chain (heap w) p rest' (uploadQueue w)
            end
     end.

(** The lane after the trace [tr]: the tasks [done] have run to completion
    one after the other with outcomes [os], [cur] is in flight, [rest] wait. *)
Definition lane (tr : list Label) (w : Worker)
    (done : list Task) (os : list Settlement) (cur : option Task)
    (rest : list Task) : Prop :=
  submitted tr = done ++ option_list cur ++ rest
  /\ length os = length done
  /\ activity tr = serial done os ++ started_of cur
  /\ shape w cur rest.

#[global] Instance Task_eq_dec : EqDecision Task.
Proof. solve_decision. Defined.

(** One labelled step, computed (a completion is that of the first running
    task). *)
Definition do_label (l : Label) (w : Worker) : option Worker :=
  match l with
  | Enq t => Some (enqueue t w)
  | Start t =>
      match start_job w with
      | Some (t', w') => if decide (t = t') then Some w' else None
      | None => None
      end
  | Finish t o =>
      match settle 0 o w with
      | Some (t', w') => if decide (t = t') then Some w' else None
      | None => None
      end
  end.

Fixpoint do_labels (tr : list Label) (w : Worker) : option Worker :=
  match tr with
  | [] => Some w
  | l :: tr' =>
      match do_label l w with
      | Some w' => do_labels tr' w'
      | None => None
      end
  end.

End LaneSpec.

(* ===================================================================== *)
(** * Vocabulary for the laws of the local store *)
(* ===================================================================== *)

Module StoreSpec.
Import Js AudioStore.

(** Every record sits under its own [id] (the store's [keyPath]). *)
Definition keyed_by_id (d : DB) : Prop :=
  forall k raw, recordings d !! k = Some raw -> id raw = k.

End StoreSpec.

(* ===================================================================== *)
(** * app/page.tsx: what the page writes to the store *)
(* ===================================================================== *)

Module Page.
Import Js AudioStore.

(** The start-up sweep: [stale.forEach((r) => deleteRecording(r.id))] over
    the records read as [synced].  The deletes are not awaited; this is the
    store once all of them have completed. *)
Definition purgeStale (db : DB) : DB :=
  let localRecs := getAllRecordings db in
  let stale := List.filter (fun r => bool_decide (status r = synced)) localRecs in
  foldl (fun d r => deleteRecording (id r) d) db stale.

(** The store write of [handleRetry]:
    [updateRecordingStatus(id, "local", { uploadAttempts: 0 })]. *)
Definition handleRetry (i : string) (db : DB) : DB :=
  (updateRecordingStatus i local
     {| x_uploadAttempts := Some 0%Z; x_lastError := None; x_s3Key := None |} db).2.

End Page.

(* ===================================================================== *)
(** * Vocabulary for the outcomes of the upload pipeline *)
(* ===================================================================== *)

Module PipelineSpec.
Import Js AudioStore Effects Upload UploadSpec.
Local Open Scope list_scope.

(** The HTTP statuses for which a failed request is worth another attempt. *)
Definition transient_status (status : Z) : Prop :=
  (500 <= status \/ status = 408 \/ status = 429)%Z.

(** The write that opens attempt number [k]. *)
Definition opens_attempt (rid : string) (k : Z) : Event :=
  EvUpdateRecordingStatus rid uploading
    {| x_uploadAttempts := Some k; x_lastError := None; x_s3Key := None |}.

(** What the store holds for [rid] once an invocation has returned [res]. *)
Definition store_agrees (rid : string) (start : Z) (res : UploadResult) (d : DB) : Prop :=
  match res_status res with
  | synced => success res = true /\ recordings d !! rid = None
  | local => success res = false /\ stored_as rid local start d
  | failed =>
      success res = false
      /\ is_Some (error res)
      /\ exists raw, recordings d !! rid = Some raw
                     /\ status raw = failed
                     /\ uploadAttempts raw = MAX_ATTEMPTS
                     /\ lastError raw = error res
  | uploading => False
  end.

(** What every result of [uploadRecording] looks like. *)
Definition well_formed_result (rid : string) (res : UploadResult) : Prop :=
  recordingId res = rid
  /\ (success res = true <-> res_status res = synced)
  /\ res_status res <> uploading.

(** Adding the results for [pending] to those already collected. *)
Definition results_for (pending : list Recording) (results : list UploadResult) : Prop :=
  recordingId <$> results = id <$> pending
  /\ Forall (fun res => well_formed_result (recordingId res) res) results.

(** The writes that open an attempt, and the sleeps, in a trace. *)
Definition is_attempt (ev : Event) : bool :=
  match ev with
  | EvUpdateRecordingStatus _ uploading x =>
      match x_uploadAttempts x with Some _ => true | None => false end
  | _ => false
  end.

Definition is_sleep (ev : Event) : bool :=
  match ev with
  | EvSleep _ => true
  | _ => false
  end.

Definition attempts_in (tr : list Event) : Z :=
  Z.of_nat (length (List.filter is_attempt tr)).

Definition sleeps_in (tr : list Event) : Z :=
  Z.of_nat (length (List.filter is_sleep tr)).

End PipelineSpec.

(* ===================================================================== *)
(** * Vocabulary for the retry with a recorded key *)
(* ===================================================================== *)

Module CommitSpec.
Import Js AudioStore Effects Upload UploadSpec PipelineSpec.
Local Open Scope list_scope.

(** The invocation opens an attempt and then, as its first request, commits
    the record with the key it has stored. *)
Definition commits_first (rid : string) (recording : Recording) (tr : list Event) : Prop :=
  exists out rest,
    tr = opens_attempt rid (uploadAttempts recording + 1)
         :: EvFetch (SaveRecording
                       (save_data recording (s3Key recording) synced None)) out
         :: rest.

End CommitSpec.

(* ===================================================================== *)
(** * Vocabulary for the pacing of the attempts *)
(* ===================================================================== *)

Module BackoffSpec.
Import Js AudioStore Effects Upload UploadSpec PipelineSpec.
Local Open Scope list_scope.

(** Every write that opens an attempt either is the first event or comes
    right after a sleep; [prev] is the event before the trace. *)
Fixpoint paced (prev : option Event) (tr : list Event) : Prop :=
  match tr with
  | [] => True
  | ev :: rest =>
      (is_attempt ev = true ->
       match prev with
       | None => True
       | Some (EvSleep _) => True
       | Some _ => False
       end)
      /\ paced (Some ev) rest
  end.

Definition pacing (s0 s : St) : Prop := extends s0 s (paced None).

End BackoffSpec.

(* ===================================================================== *)
(** * Vocabulary for the handlers of the worker *)
(* ===================================================================== *)

Module WorkerSpec.
Import Js AudioStore Effects Upload UploadSpec ServiceWorker.
Local Open Scope list_scope.

(** The request was rejected with a network-class error. *)
Definition unreachable (out : FetchOutcome) : bool :=
  match out with
  | Rejected e => isNetworkError e
  | Resolved _ => false
  end.

(** The server answered, and answered OK. *)
Definition answered_ok (out : FetchOutcome) : bool :=
  match out with
  | Resolved r => ok r
  | Rejected _ => false
  end.

(** The state after [scheduleRetry]. *)
Definition armed (s : St) : St :=
  if retryTimer s then s else log EvScheduleRetry (set_retryTimer true s).

(** The state after [registerSync], and what it settles with. *)
Definition sync_registered (w : World) (s : St) : St :=
  if hasSync w then log EvRegisterSync s else s.

Definition sync_result (w : World) (s : St) : Result unit :=
  if hasSync w then
    match syncRegister w (length (trace s)) with
    | None => Ok tt
    | Some e => Throw e
    end
  else Ok tt.

(** Neither [clients.matchAll] nor [sync.register] ever rejects. *)
Definition platform_answers (w : World) : Prop :=
  (forall n, exists k, matchAll w n = Windows k)
  /\ (forall n, syncRegister w n = None).

(** Events of the upload pipeline and of the delete sweep: neither a
    look-up of the window clients nor a message to one of them. *)
Definition silent (ev : Event) : Prop :=
  match ev with
  | EvBroadcast _ _ _ => False
  | EvMatchAll _ => False
  | _ => True
  end.

(** A write that puts a record back to [local]. *)
Definition puts_back (ev : Event) : bool :=
  match ev with
  | EvUpdateRecordingStatus _ local _ => true
  | _ => false
  end.

Definition is_local (result : UploadResult) : bool :=
  bool_decide (res_status result = local).

(** A look-up of the window clients that was rejected. *)
Definition lookup_failed (ev : Event) : bool :=
  match ev with
  | EvMatchAll (MatchAllRejected _) => true
  | _ => false
  end.

(** What the upload pipeline leaves alone: it looks up and notifies no
    page, and touches neither the probe timer nor the pending deletes. *)
Definition backstage (s0 s : St) : Prop :=
  extends s0 s (Forall silent)
  /\ retryTimer s = retryTimer s0
  /\ pendingDeletes (db s) = pendingDeletes (db s0).

(** The message posted for a result, and the events of one notification
    that reaches [n] window clients. *)
Definition notification (result : UploadResult) : Event :=
  EvBroadcast (recordingId result) (res_status result) (error result).

Definition notified (n : nat) (result : UploadResult) : list Event :=
  EvMatchAll (Windows n) :: replicate n (notification result).

(** The connectivity probe that precedes an upload on Safari. *)
Definition probe (w : World) (s : St) : list Event :=
  if isSafari w then [EvFetch Health (net w (fetches s))] else [].

(** What [handleUpload] arranges after a result. *)
Definition recovery (w : World) (s : St) (result : UploadResult) : list Event :=
  if success result then []
  else if isSafari w then (if retryTimer s then [] else [EvScheduleRetry])
  else if hasSync w then [EvRegisterSync] else [].

End WorkerSpec.

(* ===================================================================== *)
(** * Vocabulary for the draining of the queue *)
(* ===================================================================== *)

Module DrainSpec.
Import TaskQueue.
Local Open Scope list_scope.

(** The tasks that have run to completion, in order of completion. *)
Definition completed (tr : list Label) : list Task :=
  omap (fun l => match l with Finish t _ => Some t | _ => None end) tr.

(** The promise held in [uploadQueue], the one the listeners hand to
    [event.waitUntil], is settled. *)
Definition drained (w : Worker) : Prop :=
  exists o, heap w !! uploadQueue w = Some (Settled o).

End DrainSpec.

(* ===================================================================== *)
(** * app/sw.ts: the callback of the probe timer *)
(* ===================================================================== *)

Module RetryTimer.
Import Js AudioStore Effects Upload ServiceWorker.
Local Open Scope js_scope.

(** [retryTimer = null]. *)
Definition clear_retryTimer : M unit :=
  fun _ s => (Ok tt, set_retryTimer false s).

(** The callback that [scheduleRetry] hands to [setTimeout], run while no
    task is in flight, so that the sweep it submits with [enqueue] starts at
    once; the callback awaits it inside its [try]. *)
Definition onRetryTimer : M unit :=
  perform clear_retryTimer;
  catch
    (await res <- fetch Health;
     if ok res then handleRetryAll else scheduleRetry)
    (fun _ => scheduleRetry).

End RetryTimer.

(* ===================================================================== *)
(** * Concrete recordings, worlds and states *)
(* ===================================================================== *)

Module Examples.
Import Js AudioStore.

Definition webm : Blob := new_Blob [x52; x49; x46; x46] "audio/webm".

Definition untyped : Blob := new_Blob [x52; x49; x46; x46] "".

Definition fresh (i : string) (b : Blob) : Recording :=
  {| id := i; filename := "recording-" +:+ i +:+ ".webm"; blob := b;
     fileSize := Z.of_nat (length (blob_bytes b)); duration := 3 # 2;
     recordedAt := "2026-01-01T00:00:00.000Z"; status := local;
     s3Key := None; uploadAttempts := 0; lastError := None |}.

(** A leftover record already marked [synced], with the budget used up. *)
Definition stale : Recording :=
  {| id := "r9"; filename := "recording-r9.webm"; blob := webm;
     fileSize := 4; duration := 3 # 2;
     recordedAt := "2026-01-01T00:00:00.000Z"; status := synced;
     s3Key := Some "recordings/recording-r9.webm"; uploadAttempts := 3;
     lastError := None |}.

(** A record whose three attempts were used up. *)
Definition exhausted : Recording :=
  {| id := "r8"; filename := "recording-r8.webm"; blob := webm;
     fileSize := 4; duration := 3 # 2;
     recordedAt := "2026-01-01T00:00:00.000Z"; status := failed;
     s3Key := None; uploadAttempts := 3;
     lastError := Some "Failed to get presigned URL: 503" |}.

(** A record whose object is already in the object store. *)
Definition keyed : Recording :=
  {| id := "r6"; filename := "recording-r6.webm"; blob := webm;
     fileSize := 4; duration := 3 # 2;
     recordedAt := "2026-01-01T00:00:00.000Z"; status := uploading;
     s3Key := Some "recordings/recording-r6.webm"; uploadAttempts := 1;
     lastError := None |}.

(** The record [fresh "r1" webm] once its object is in the object store and
    the key recorded, the commit still to be made. *)
Definition resumed : Recording :=
  {| id := "r1"; filename := "recording-r1.webm"; blob := webm;
     fileSize := 4; duration := 3 # 2;
     recordedAt := "2026-01-01T00:00:00.000Z"; status := local;
     s3Key := Some "recordings/k"; uploadAttempts := 0; lastError := None |}.

Import Effects.

Definition state_of (d : DB) : St :=
  {| db := d; fetches := 0; draws := 0; trace := [];
     locals := {| l_s3Key := None; l_lastError := None |};
     retryTimer := false |}.

Definition respond (status : Z) : FetchOutcome :=
  Resolved {| resp_status := status;
              resp_body := BodyUploadUrl "https://bucket/put" "recordings/k" |}.

(** A world in which every request is answered by the list, then by 200. *)
Definition world_of (answers : list FetchOutcome) (r : Q) : World :=
  {| net := fun n => nth n answers (respond 200); rnd := fun _ => r;
     onLine := fun _ => true; isSafari := false; hasSync := true;
     matchAll := fun _ => Windows 1; syncRegister := fun _ => None |}.

(** The response behind [respond status]. *)
Definition answer (status : Z) : Response :=
  {| resp_status := status;
     resp_body := BodyUploadUrl "https://bucket/put" "recordings/k" |}.

(** The same world with [navigator.onLine] reading false. *)
Definition offline (w : World) : World :=
  {| net := net w; rnd := rnd w; onLine := fun _ => false;
     isSafari := isSafari w; hasSync := hasSync w;
     matchAll := matchAll w; syncRegister := syncRegister w |}.

(** The same world on Safari, which has no Background Sync. *)
Definition on_safari (w : World) : World :=
  {| net := net w; rnd := rnd w; onLine := onLine w;
     isSafari := true; hasSync := false;
     matchAll := matchAll w; syncRegister := syncRegister w |}.

(** The same world with Background Sync present and every registration
    rejected. *)
Definition sync_refused (w : World) : World :=
  {| net := net w; rnd := rnd w; onLine := onLine w;
     isSafari := isSafari w; hasSync := true;
     matchAll := matchAll w;
     syncRegister := fun _ => Some (DOMException "InvalidStateError"
                                      "sync registration failed") |}.

(** Two records in the store, one of them a leftover marked [synced]. *)
Definition two_records : DB :=
  saveRecording stale (saveRecording (fresh "r1" webm) emptyDB).

Import TaskQueue LaneSpec.

(** An upload is in flight when the delete for the same id is submitted; the
    upload then fails. *)
Definition sample_trace : list Label :=
  let up := UploadTask "r1" in
  let del := DeleteTask "r1" "recordings/recording-r1.webm" in
  [Enq up; Start up; Enq del; Finish up rejected; Start del].

Definition sample_worker : Worker :=
  match do_labels sample_trace init with
  | Some w => w
  | None => init
  end.

End Examples.

(* ===================================================================== *)
(** * Properties of the store *)
(* ===================================================================== *)

Local Open Scope list_scope.

Section StoreFacts.
Import Js AudioStore.

Lemma ascii_lower_idem (c : ascii) : ascii_lower (ascii_lower c) = ascii_lower c.
Proof. destruct c as [[] [] [] [] [] [] [] []]; reflexivity. Qed.

Lemma printable_lower (c : ascii) : printable (ascii_lower c) = printable c.
Proof. destruct c as [[] [] [] [] [] [] [] []]; reflexivity. Qed.

Lemma lower_idem (t : string) : lower (lower t) = lower t.
Proof. induction t as [|c t IH]; simpl; [done|]. by rewrite ascii_lower_idem, IH. Qed.

Lemma all_printable_lower (t : string) : all_printable (lower t) = all_printable t.
Proof. induction t as [|c t IH]; simpl; [done|]. by rewrite printable_lower, IH. Qed.

Lemma normalize_type_idem (t : string) :
  normalize_type (normalize_type t) = normalize_type t.
Proof.
  unfold normalize_type. destruct (all_printable t) eqn:E; [|done].
  by rewrite all_printable_lower, E, lower_idem.
Qed.

(** Every Blob built by the constructor is well formed. *)
Lemma new_Blob_wf (data : list byte) (t : string) : Blob_wf (new_Blob data t).
Proof. apply normalize_type_idem. Qed.

Lemma hydrate_storable (r : Recording) :
  Blob_wf (blob r) ->
  hydrateRecording (storable r)
  = with_payload r {| blob_bytes := blob_bytes (blob r);
                      blob_type := or_else (Some (blob_type (blob r))) "audio/webm" |}.
Proof.
  intros Hwf. unfold hydrateRecording, storable, with_payload, new_Blob, arrayBuffer.
  simpl. f_equal. f_equal.
  destruct (blob_type (blob r)) as [|c t] eqn:E; simpl; [done|].
  unfold Blob_wf in Hwf. by rewrite E in Hwf.
Qed.

End StoreFacts.

Section RoundTrip.
Import Js AudioStore Examples.

(** C9, the claim as worded fails: a recording whose Blob has the empty
    content type is read back with content type ["audio/webm"]. *)
Lemma save_read_untyped_differs :
  Blob_wf untyped /\
  getRecordingById "r1" (saveRecording (fresh "r1" untyped) emptyDB)
  <> Some (fresh "r1" untyped).
Proof.
  split; [apply new_Blob_wf|].
  unfold getRecordingById, saveRecording. simpl.
  rewrite lookup_insert_eq. simpl. intros H.
  apply (f_equal (fun o => blob_type <$> (blob <$> o))) in H.
  vm_compute in H. discriminate H.
Qed.

(** C9 (amended): a saved recording is read back, by id and in the listing,
    with the same bytes and every other field unchanged; its content type is
    the original one when that is not empty, and ["audio/webm"] otherwise.
    In particular a recording with a non-empty content type is read back
    identical. *)
Theorem save_then_read (r : Recording) (db : DB) :
  Blob_wf (blob r) ->
  let r' := with_payload r {| blob_bytes := blob_bytes (blob r);
                              blob_type := or_else (Some (blob_type (blob r)))
                                             "audio/webm" |} in
  getRecordingById (id r) (saveRecording r db) = Some r'
  /\ r' ∈ getAllRecordings (saveRecording r db)
  /\ (blob_type (blob r) <> "" -> r' = r).
Proof.
  intros Hwf r'.
  assert (Hget : recordings (saveRecording r db) !! id r = Some (storable r))
    by apply lookup_insert_eq.
  split; [|split].
  - unfold getRecordingById. rewrite Hget. simpl. by rewrite hydrate_storable.
  - unfold getAllRecordings. apply list_elem_of_fmap.
    exists (storable r). split; [by rewrite hydrate_storable|].
    apply list_elem_of_fmap. exists (id r, storable r). split; [done|].
    by apply elem_of_map_to_list.
  - intros Hne. subst r'. destruct r as [? ? [bytes ty] ? ? ? ? ? ? ?].
    unfold with_payload; simpl in *.
    destruct ty; [done|reflexivity].
Qed.

Lemma save_then_read_witness :
  Blob_wf webm /\
  getRecordingById "r1" (saveRecording (fresh "r1" webm) emptyDB)
  = Some (fresh "r1" webm).
Proof.
  split; [apply new_Blob_wf|].
  destruct (save_then_read (fresh "r1" webm) emptyDB (new_Blob_wf _ _))
    as (Hget & _ & Heq).
  rewrite <- Heq at 2; [exact Hget|]. vm_compute. discriminate.
Defined.

End RoundTrip.
(* ===================================================================== *)
(** * Running the pipeline: equations of the monad *)
(* ===================================================================== *)

Section Running.
Import Js AudioStore Effects Upload UploadSpec.

(** What a remote call makes of the outcome of its request. *)
Lemma getPresignedUrl_run (f : string) (w : World) (s : St) :
  getPresignedUrl f w s
  = (presign_result (net w (fetches s)),
     log (EvFetch (GetUploadUrl f) (net w (fetches s))) (next_fetch s)).
Proof.
  unfold getPresignedUrl, presign_result, classify, bind, catch, fetchWithTimeout, fetch.
  destruct (net w (fetches s)) as [r|e]; simpl.
  - destruct (ok r); simpl; [|done]. unfold json. by destruct (resp_body r).
  - by destruct (isNetworkError e).
Qed.

Lemma putToS3_run (url : string) (b : Blob) (ct : string) (w : World) (s : St) :
  putToS3 url b ct w s
  = (put_result (net w (fetches s)),
     log (EvFetch (PutS3 url b ct) (net w (fetches s))) (next_fetch s)).
Proof.
  unfold putToS3, put_result, classify, bind, catch, fetch.
  destruct (net w (fetches s)) as [r|e]; simpl.
  - by destruct (ok r).
  - by destruct (isNetworkError e).
Qed.

Lemma saveRecordingToDb_run (data : SaveData) (w : World) (s : St) :
  saveRecordingToDb data w s
  = (save_result (net w (fetches s)),
     log (EvFetch (SaveRecording data) (net w (fetches s))) (next_fetch s)).
Proof.
  unfold saveRecordingToDb, save_result, classify, bind, catch, fetchWithTimeout, fetch.
  destruct (net w (fetches s)) as [r|e]; simpl.
  - by destruct (ok r).
  - by destruct (isNetworkError e).
Qed.

Lemma updateRecordingStatus_run (i : string) (st : Status) (x : Extras)
    (w : World) (s : St) :
  updateRecordingStatus i st x w s
  = (Ok (AudioStore.updateRecordingStatus i st x (db s)).1,
     log (EvUpdateRecordingStatus i st x)
       (set_db (AudioStore.updateRecordingStatus i st x (db s)).2 s)).
Proof.
  unfold updateRecordingStatus.
  by destruct (AudioStore.updateRecordingStatus i st x (db s)).
Qed.

Lemma returns_bind {A B} (c : M A) (k : A -> M B) w s (Q : B -> St -> Prop) :
  returns c w s (fun a s' => returns (k a) w s' Q) -> returns (bind c k) w s Q.
Proof. unfold returns, bind. by destruct (c w s) as [[a|e] s']. Qed.

Lemma returns_mono {A} (c : M A) w s (Q Q' : A -> St -> Prop) :
  returns c w s Q -> (forall a s', Q a s' -> Q' a s') -> returns c w s Q'.
Proof. unfold returns. destruct (c w s) as [[a|e] s']; eauto. Qed.

Lemma returns_and {A} (c : M A) w s (Q1 Q2 : A -> St -> Prop) :
  returns c w s Q1 -> returns c w s Q2 ->
  returns c w s (fun a s' => Q1 a s' /\ Q2 a s').
Proof. unfold returns. by destruct (c w s) as [[a|e] s']. Qed.

Lemma returns_impl {A} (c : M A) w s (P : Prop) (Q : A -> St -> Prop) :
  returns c w s (fun _ _ => True) -> (P -> returns c w s Q) ->
  returns c w s (fun a s' => P -> Q a s').
Proof. unfold returns. destruct (c w s) as [[a|e] s']; [auto|done]. Qed.

(** The loop rule.  [I a] holds before the pass with index [a]; a pass that
    goes on establishes [I (a + 1)], one that breaks establishes [B], one
    that returns establishes [R]. *)
Lemma attempts_loop_rule (I : Z -> St -> Prop) (B : St -> Prop)
    (R : UploadResult -> St -> Prop) (body : Z -> M Flow) (w : World)
    (stop : Z) (n : nat) :
  (forall a s, (stop - Z.of_nat n <= a < stop)%Z -> I a s ->
     returns (body a) w s (fun flow s' =>
       match flow with
       | Return r => R r s'
       | Break => B s'
       | Continue => I (a + 1)%Z s'
       end)) ->
  (forall s, I stop s -> B s) ->
  forall s, I (stop - Z.of_nat n)%Z s ->
    returns (attempts_loop body (seqZ (stop - Z.of_nat n) (Z.of_nat n))) w s
      (fun left s' => match left with Some r => R r s' | None => B s' end).
Proof.
  induction n as [|n IH]; intros Hbody Hexit s HI.
  - replace (stop - Z.of_nat 0)%Z with stop in * by lia. simpl. by apply Hexit.
  - rewrite seqZ_cons by lia. simpl. apply returns_bind.
    eapply returns_mono; [apply Hbody; [lia|exact HI]|].
    intros [r| |] s' H; simpl; try exact H.
    replace (Z.succ (stop - Z.of_nat (S n))) with (stop - Z.of_nat n)%Z by lia.
    replace (Z.pred (Z.of_nat (S n))) with (Z.of_nat n) by lia.
    apply IH; [| exact Hexit |].
    + intros a s'' Ha. apply Hbody. lia.
    + replace (stop - Z.of_nat n)%Z with (stop - Z.of_nat (S n) + 1)%Z by lia.
      exact H.
Qed.

(** The part of [uploadRecording] that follows the early returns. *)
Lemma pipeline_rule (I : Z -> St -> Prop) (B : St -> Prop)
    (R : UploadResult -> St -> Prop) (rid : string) (recording : Recording)
    (w : World) (s : St) :
  (uploadAttempts recording < MAX_ATTEMPTS)%Z ->
  I (uploadAttempts recording) s ->
  (forall a s', (uploadAttempts recording <= a < MAX_ATTEMPTS)%Z -> I a s' ->
     returns (attempt_body rid recording (uploadAttempts recording) a) w s'
       (fun flow s'' =>
          match flow with
          | Return r => R r s''
          | Break => B s''
          | Continue => I (a + 1)%Z s''
          end)) ->
  (forall s', I MAX_ATTEMPTS s' -> B s') ->
  (forall s', B s' -> returns (terminal_failure rid recording) w s' R) ->
  returns
    (bind (attempts_loop (attempt_body rid recording (uploadAttempts recording))
             (loop_indices (uploadAttempts recording)))
       (fun left => match left with
                    | Some r => ret r
                    | None => terminal_failure rid recording
                    end)) w s R.
Proof.
  intros Hlt HI Hbody Hexit Hgive. apply returns_bind.
  unfold loop_indices.
  set (start := uploadAttempts recording) in *.
  pose (n := Z.to_nat (MAX_ATTEMPTS - start)).
  replace (MAX_ATTEMPTS - start)%Z with (Z.of_nat n) by lia.
  replace start with (MAX_ATTEMPTS - Z.of_nat n)%Z at 2 by lia.
  eapply returns_mono.
  - apply (attempts_loop_rule I B R); [| exact Hexit |].
    + intros a s' Ha. apply Hbody. lia.
    + replace (MAX_ATTEMPTS - Z.of_nat n)%Z with start by lia. exact HI.
  - intros [r|] s' H; simpl; [exact H|]. by apply Hgive.
Qed.

(** The state in which the loop is entered. *)
Lemma uploadRecording_rule (Q : UploadResult -> St -> Prop) (rid : string)
    (w : World) (s : St) :
  (AudioStore.getRecordingById rid (db s) = None ->
   Q {| success := false; recordingId := rid; res_status := failed;
        error := Some "Recording not found" |} s) ->
  (forall recording,
     AudioStore.getRecordingById rid (db s) = Some recording ->
     status recording = synced ->
     Q {| success := true; recordingId := rid; res_status := synced;
          error := None |} s) ->
  (forall recording,
     AudioStore.getRecordingById rid (db s) = Some recording ->
     status recording <> synced ->
     (uploadAttempts recording >= MAX_ATTEMPTS)%Z ->
     Q {| success := false; recordingId := rid; res_status := failed;
          error := Some (nullish (lastError recording)
                           "Maximum upload attempts reached") |} s) ->
  (forall recording,
     AudioStore.getRecordingById rid (db s) = Some recording ->
     status recording <> synced ->
     (uploadAttempts recording < MAX_ATTEMPTS)%Z ->
     returns
       (bind (attempts_loop
                (attempt_body rid recording (uploadAttempts recording))
                (loop_indices (uploadAttempts recording)))
          (fun left => match left with
                       | Some r => ret r
                       | None => terminal_failure rid recording
                       end)) w (entered recording s) Q) ->
  returns (uploadRecording rid) w s Q.
Proof.
  intros Hnone Hsynced Hspent Hloop.
  unfold returns, uploadRecording, bind at 1, getRecordingById.
  destruct (AudioStore.getRecordingById rid (db s)) as [recording|] eqn:Hget.
  - destruct (decide (status recording = synced)) as [Hs|Hs].
    + by apply (Hsynced recording).
    + destruct (uploadAttempts recording >=? MAX_ATTEMPTS)%Z eqn:E.
      * apply (Hspent recording); [done..|].
        rewrite Z.geb_leb in E. apply Z.leb_le in E. lia.
      * rewrite Z.geb_leb in E. apply Z.leb_gt in E.
        specialize (Hloop recording eq_refl Hs E). exact Hloop.
  - by apply Hnone.
Qed.

End Running.

(** Symbolic execution of a pass: unfold the monad, rewrite the remote
    calls by their equations, and split on whatever the run depends on. *)
Ltac run_unfold :=
  unfold Upload.attempt_body, Upload.attempt_try, Upload.attempt_catch,
    Upload.backoffDelay, Upload.terminal_failure,
    Effects.bind, Effects.catch, Effects.ret, Effects.throw, Effects.random,
    Effects.sleep, Effects.get_s3Key, Effects.set_s3Key,
    Effects.get_lastError, Effects.set_lastError, Effects.getRecordingById,
    Effects.deleteRecording in *;
  cbn [Effects.log Effects.set_db Effects.set_locals Effects.next_fetch
       Effects.next_draw Effects.db Effects.fetches Effects.draws Effects.trace
       Effects.locals Effects.retryTimer Effects.l_s3Key Effects.l_lastError
       fst snd negb] in *.

Ltac run_split :=
  match goal with
  | |- context [match ?x with _ => _ end] =>
      lazymatch x with
      | context [match _ with _ => _ end] => fail
      | _ => destruct x eqn:?
      end
  end.

Ltac run_step :=
  first
    [ progress run_unfold
    | rewrite getPresignedUrl_run
    | rewrite putToS3_run
    | rewrite saveRecordingToDb_run
    | rewrite updateRecordingStatus_run
    | run_split ].

Ltac run_all := unfold UploadSpec.returns; repeat run_step.

Section DbFacts.
Import Js AudioStore Effects Upload UploadSpec.

Lemma lookup_update (i : string) (st : Status) (x : Extras) (d : DB) (j : string) :
  recordings (AudioStore.updateRecordingStatus i st x d).2 !! j
  = if decide (j = i) then (fun raw => updated raw st x) <$> recordings d !! i
    else recordings d !! j.
Proof.
  unfold AudioStore.updateRecordingStatus.
  destruct (recordings d !! i) as [raw|] eqn:E; simpl.
  - rewrite lookup_insert. destruct (decide (i = j)), (decide (j = i)); congruence.
  - destruct (decide (j = i)); congruence.
Qed.

Lemma lookup_deleteRecording (i : string) (d : DB) (j : string) :
  recordings (AudioStore.deleteRecording i d) !! j
  = if decide (j = i) then None else recordings d !! j.
Proof.
  unfold AudioStore.deleteRecording. simpl. rewrite lookup_delete.
  destruct (decide (i = j)), (decide (j = i)); congruence.
Qed.

Lemma update_within_budget (i : string) (st : Status) (x : Extras) (d : DB) :
  within_budget (EvUpdateRecordingStatus i st x) ->
  stored_within_budget d ->
  stored_within_budget (AudioStore.updateRecordingStatus i st x d).2.
Proof.
  intros Hx Hd j raw. rewrite lookup_update. destruct (decide (j = i)) as [->|Hne].
  - destruct (recordings d !! i) as [raw0|] eqn:E; simpl; [|done].
    intros [= <-]. simpl in *. destruct (x_uploadAttempts x); [done|]. eauto.
  - apply Hd.
Qed.

Lemma delete_within_budget (i : string) (d : DB) :
  stored_within_budget d -> stored_within_budget (AudioStore.deleteRecording i d).
Proof.
  intros Hd j raw. rewrite lookup_deleteRecording. destruct (decide (j = i)); [done|].
  apply Hd.
Qed.

Lemma extends_refl (s : St) (P : list Event -> Prop) : P [] -> extends s s P.
Proof. intros H. exists []. by rewrite app_nil_r. Qed.

Lemma extends_entered (recording : Recording) (s : St) (P : list Event -> Prop) :
  P [] -> extends s (entered recording s) P.
Proof. intros H. exists []. simpl. by rewrite app_nil_r. Qed.

End DbFacts.

Ltac extend_trace H :=
  unfold UploadSpec.extends;
  cbn [Effects.trace Effects.log Effects.set_db Effects.set_locals
       Effects.next_fetch Effects.next_draw];
  rewrite H, <- ?app_assoc; eexists; split; [reflexivity|].

Section Budget.
Import Js AudioStore Effects Upload UploadSpec Examples.

Lemma no_synced_empty : no_synced emptyDB.
Proof. intros i raw H. simpl in H. by rewrite lookup_empty in H. Qed.

Lemma no_synced_save (r : Recording) (d : DB) :
  status r <> synced -> no_synced d -> no_synced (saveRecording r d).
Proof.
  intros Hr Hd i raw. unfold saveRecording. simpl. rewrite lookup_insert.
  destruct (decide (id r = i)); [|by apply Hd]. by intros [= <-].
Qed.

Lemma read_not_synced (rid : string) (recording : Recording) (d : DB) :
  no_synced d -> AudioStore.getRecordingById rid d = Some recording ->
  status recording <> synced.
Proof.
  intros Hd. unfold AudioStore.getRecordingById.
  destruct (recordings d !! rid) as [raw|] eqn:Hraw; [|done].
  intros [= <-]. specialize (Hd rid raw Hraw).
  unfold hydrateRecording. by destruct (blob raw).
Qed.

(** C6: on a store that holds no record marked [synced] (the pipeline never
    writes that status, and removes the record instead), an invocation for a
    record whose stored attempt count has reached the budget returns the
    failure result with status [failed] at once and changes nothing at all:
    no request is issued, nothing is written, no event is recorded. *)
Theorem budget_exhausted_is_noop (rid : string) (w : World) (s : St)
    (recording : Recording) :
  no_synced (db s) ->
  AudioStore.getRecordingById rid (db s) = Some recording ->
  (uploadAttempts recording >= MAX_ATTEMPTS)%Z ->
  uploadRecording rid w s
  = (Ok {| success := false; recordingId := rid; res_status := failed;
           error := Some (nullish (lastError recording)
                            "Maximum upload attempts reached") |}, s).
Proof.
  intros Hstore Hget Hge.
  pose proof (read_not_synced rid recording (db s) Hstore Hget) as Hs.
  unfold uploadRecording, bind, getRecordingById.
  rewrite Hget. destruct (decide (status recording = synced)) as [Hs'|_]; [done|].
  destruct (uploadAttempts recording >=? MAX_ATTEMPTS)%Z eqn:E; [done|].
  rewrite Z.geb_leb in E. apply Z.leb_gt in E. lia.
Qed.

Lemma budget_exhausted_is_noop_witness :
  let s := state_of (saveRecording exhausted emptyDB) in
  uploadRecording "r8" (world_of [] 0) s
  = (Ok {| success := false; recordingId := "r8"; res_status := failed;
           error := Some "Failed to get presigned URL: 503" |}, s).
Proof.
  intros s.
  refine (budget_exhausted_is_noop "r8" (world_of [] 0) s exhausted _ _ _).
  - apply no_synced_save; [discriminate|apply no_synced_empty].
  - vm_compute. reflexivity.
  - vm_compute. discriminate.
Defined.

End Budget.

Section AttemptBudget.
Import Js AudioStore Effects Upload UploadSpec Examples.

Ltac budget_leaf Htr :=
  split;
    [ extend_trace Htr; rewrite ?Forall_app; repeat split; try done;
      repeat constructor; done
    | intros; cbn [db log set_db set_locals next_fetch next_draw];
      repeat first [ apply delete_within_budget | apply update_within_budget ];
      auto; done ].

Lemma attempt_body_budget rid recording start a w s0 s :
  (start <= a < MAX_ATTEMPTS)%Z ->
  budget_kept s0 s ->
  returns (attempt_body rid recording start a) w s (fun _ s' => budget_kept s0 s').
Proof.
  intros Ha [(tr & Htr & Hall) Hdb].
  assert (start <= MAX_ATTEMPTS)%Z by lia.
  assert (a + 1 <= MAX_ATTEMPTS)%Z by lia.
  run_all; budget_leaf Htr.
Qed.

Lemma terminal_failure_budget rid recording w s0 s :
  budget_kept s0 s ->
  returns (terminal_failure rid recording) w s (fun _ s' => budget_kept s0 s').
Proof.
  intros [(tr & Htr & Hall) Hdb].
  assert (MAX_ATTEMPTS <= MAX_ATTEMPTS)%Z by lia.
  run_all; budget_leaf Htr.
Qed.

Lemma uploadRecording_budget (rid : string) (w : World) (s : St) :
  returns (uploadRecording rid) w s (fun _ s' => budget_kept s s').
Proof.
  assert (Hrefl : budget_kept s s) by (split; [by apply extends_refl|done]).
  apply uploadRecording_rule; try (intros; exact Hrefl).
  intros recording Hget Hs Hlt.
  apply (pipeline_rule (fun _ => budget_kept s) (budget_kept s) (fun _ => budget_kept s));
    try done.
  - intros a s' Ha HI. eapply returns_mono; [by apply attempt_body_budget|].
    by intros [].
  - intros s' HB. by apply terminal_failure_budget.
Qed.

Lemma budget_kept_trans (s0 s1 s2 : St) :
  budget_kept s0 s1 -> budget_kept s1 s2 -> budget_kept s0 s2.
Proof.
  intros [(tr1 & H1 & F1) D1] [(tr2 & H2 & F2) D2]. split; [|auto].
  exists (tr1 ++ tr2). rewrite H2, H1, <- app_assoc. split; [done|].
  by apply Forall_app.
Qed.

(** C5: in any sequence of invocations of the pipeline, every attempt count
    it writes to the store (the increment in the loop, the restored count
    after a network error, the count pinned on terminal failure) is at most
    the budget of 3; hence, when the stored counts start within the budget,
    they are within it afterwards. *)
Theorem writes_within_budget (ids : list string) (w : World) (s : St) :
  returns (uploadRecordings ids) w s (fun _ s' =>
    extends s s' (Forall within_budget)
    /\ (stored_within_budget (db s) -> stored_within_budget (db s'))).
Proof.
  revert s. induction ids as [|i rest IH]; intros s.
  - split; [by apply extends_refl|done].
  - simpl. apply returns_bind.
    eapply returns_mono; [apply uploadRecording_budget|].
    intros r1 s1 H1. eapply returns_mono; [apply IH|].
    intros [] s2 H2. by apply (budget_kept_trans s s1 s2).
Qed.

Lemma writes_within_budget_witness :
  let s := state_of (saveRecording (fresh "r1" webm) emptyDB) in
  let w := world_of [respond 503; respond 503; respond 503] 0 in
  returns (uploadRecordings ["r1"; "r1"]) w s (fun _ s' =>
    extends s s' (Forall within_budget)
    /\ (stored_within_budget (db s) -> stored_within_budget (db s'))).
Proof. intros s w. exact (writes_within_budget ["r1"; "r1"] w s). Defined.

End AttemptBudget.

(* ===================================================================== *)
(** * The stored key as idempotency marker *)
(* ===================================================================== *)

Section Idempotency.
Import Js AudioStore Effects Upload UploadSpec PipelineSpec CommitSpec Page Examples.

(** ** The keys that reach the store *)

Lemma issued_truthy (key : string) : issued key -> truthy (Some key) = true.
Proof. by intros [filename ->]. Qed.

Lemma keys_issued_empty : keys_issued emptyDB.
Proof. intros i raw key H. simpl in H. by rewrite lookup_empty in H. Qed.

Lemma keys_issued_save (r : Recording) (d : DB) :
  (forall key, s3Key r = Some key -> issued key) ->
  keys_issued d -> keys_issued (saveRecording r d).
Proof.
  intros Hr Hd i raw key. unfold saveRecording. simpl. rewrite lookup_insert.
  destruct (decide (id r = i)); [|by apply Hd]. intros [= <-]. apply Hr.
Qed.

Lemma keys_issued_update (i : string) (st : Status) (x : Extras) (d : DB) :
  (forall key, x_s3Key x = Some key -> issued key) ->
  keys_issued d -> keys_issued (AudioStore.updateRecordingStatus i st x d).2.
Proof.
  intros Hx Hd j raw key. rewrite lookup_update.
  destruct (decide (j = i)) as [->|Hne]; [|by apply Hd].
  destruct (recordings d !! i) as [raw0|] eqn:E; simpl; [|done].
  intros [= <-]. simpl. destruct (x_s3Key x) as [k|].
  - intros [= <-]. by apply Hx.
  - by apply (Hd i raw0).
Qed.

Lemma keys_issued_delete (i : string) (d : DB) :
  keys_issued d -> keys_issued (AudioStore.deleteRecording i d).
Proof.
  intros Hd j raw key. rewrite lookup_deleteRecording.
  destruct (decide (j = i)); [done|]. apply Hd.
Qed.

Lemma presign_issued (w : World) (n : nat) (url key : string) :
  serves_keys w -> presign_result (net w n) = Ok (url, key) -> issued key.
Proof.
  intros Hw. unfold presign_result, classify.
  destruct (net w n) as [r|e] eqn:Hnet.
  - destruct (ok r) eqn:Hok; simpl; [|done].
    destruct (resp_body r) as [url' key'|e] eqn:Hbody; [|done].
    intros [= -> ->]. by apply (Hw n r url key).
  - by destruct (isNetworkError e).
Qed.

Ltac issued_leaf Hw :=
  cbn [db log set_db set_locals next_fetch next_draw];
  repeat first [ apply keys_issued_delete | apply keys_issued_update ];
  try done;
  cbn [x_s3Key]; intros ? [= <-]; eapply (presign_issued _ _ _ _ Hw); eassumption.

Lemma attempt_body_issued rid recording start a w s :
  serves_keys w -> keys_issued (db s) ->
  returns (attempt_body rid recording start a) w s (fun _ s' => keys_issued (db s')).
Proof. intros Hw Hd. run_all; issued_leaf Hw. Qed.

Lemma terminal_failure_issued rid recording w s :
  keys_issued (db s) ->
  returns (terminal_failure rid recording) w s (fun _ s' => keys_issued (db s')).
Proof.
  intros Hd. run_all;
    cbn [db log set_db set_locals next_fetch next_draw];
    by apply keys_issued_update.
Qed.

(** The pipeline stores no key but one the server issued. *)
Lemma uploadRecording_issued (rid : string) (w : World) (s : St) :
  serves_keys w -> keys_issued (db s) ->
  returns (uploadRecording rid) w s (fun _ s' => keys_issued (db s')).
Proof.
  intros Hw Hd. apply uploadRecording_rule; try done.
  intros recording Hget Hs Hlt.
  apply (pipeline_rule (fun _ s' => keys_issued (db s'))
           (fun s' => keys_issued (db s')) (fun _ s' => keys_issued (db s')));
    try done.
  - intros a s' Ha HI. eapply returns_mono; [by apply attempt_body_issued|].
    by intros [].
  - intros s' HB. by apply terminal_failure_issued.
Qed.

Lemma read_key_issued (rid : string) (recording : Recording) (d : DB) (key : string) :
  keys_issued d -> AudioStore.getRecordingById rid d = Some recording ->
  s3Key recording = Some key -> issued key.
Proof.
  intros Hd. unfold AudioStore.getRecordingById.
  destruct (recordings d !! rid) as [raw|] eqn:Hraw; [|done].
  intros [= <-] Hkey. apply (Hd rid raw key Hraw).
  revert Hkey. unfold hydrateRecording. by destruct (blob raw).
Qed.

(** ** A retry with a recorded key *)

Ltac commit_leaf Htr :=
  repeat split; try done;
  extend_trace Htr; rewrite ?Forall_app; repeat split; try done;
  repeat constructor; done.

Lemma attempt_body_commit rid recording start a w s0 s :
  key_kept s0 s ->
  returns (attempt_body rid recording start a) w s (fun _ s' => key_kept s0 s').
Proof.
  intros [Hkey (tr & Htr & Hall)].
  run_all; try (rewrite Hkey in *; discriminate); unfold key_kept;
    cbn [locals l_s3Key log set_db set_locals next_fetch];
    commit_leaf Htr.
Qed.

Lemma terminal_failure_commit rid recording w s0 s :
  key_kept s0 s ->
  returns (terminal_failure rid recording) w s (fun _ s' => key_kept s0 s').
Proof.
  intros [Hkey (tr & Htr & Hall)].
  run_all; unfold key_kept;
    cbn [locals l_s3Key log set_db set_locals next_fetch];
    commit_leaf Htr.
Qed.

Lemma keyed_only_commits (rid : string) (w : World) (s : St) (recording : Recording) :
  AudioStore.getRecordingById rid (db s) = Some recording ->
  truthy (s3Key recording) = true ->
  returns (uploadRecording rid) w s (fun _ s' => extends s s' (Forall only_commit)).
Proof.
  intros Hget Htruthy.
  apply uploadRecording_rule; try (intros; by apply extends_refl).
  intros recording' Hget' Hs Hlt.
  assert (recording' = recording) as -> by congruence.
  apply (pipeline_rule (fun _ => key_kept s) (key_kept s)
           (fun _ s' => extends s s' (Forall only_commit))); try done.
  - split; [exact Htruthy|]. by apply extends_entered.
  - intros a s' Ha HI. eapply returns_mono; [by apply attempt_body_commit|].
    intros [] s'' [? ?]; by try split.
  - intros s' HB. eapply returns_mono; [by apply terminal_failure_commit|].
    by intros r s'' [? ?].
Qed.

Lemma attempt_body_commits_first rid recording a w s0 s :
  l_s3Key (locals s) = s3Key recording ->
  truthy (s3Key recording) = true ->
  (a = uploadAttempts recording /\ trace s = trace s0)
  \/ extends s0 s (commits_first rid recording) ->
  returns (attempt_body rid recording (uploadAttempts recording) a) w s (fun _ s' =>
    l_s3Key (locals s') = s3Key recording
    /\ extends s0 s' (commits_first rid recording)).
Proof.
  intros Hk Ht [[-> Htr]|(tr & Htr & out & rest & ->)]; run_all;
    try (rewrite Z.gtb_ltb in *;
         match goal with H : (_ <? _)%Z = true |- _ => apply Z.ltb_lt in H; lia end);
    try (rewrite Hk, Ht in *; discriminate);
    (split; [cbn [locals set_locals log set_db next_fetch next_draw l_s3Key]; done|]);
    unfold extends, commits_first;
    cbn [trace log set_db set_locals next_fetch next_draw];
    rewrite Htr, <- ?app_assoc; cbn [app]; unfold opens_attempt; rewrite ?Hk;
    eexists; (split; [reflexivity|]); by eexists _, _.
Qed.

Lemma terminal_failure_commits_first rid recording w s0 s :
  extends s0 s (commits_first rid recording) ->
  returns (terminal_failure rid recording) w s (fun _ s' =>
    extends s0 s' (commits_first rid recording)).
Proof.
  intros (tr & Htr & out & rest & ->); run_all;
    unfold extends, commits_first;
    cbn [trace log set_db set_locals next_fetch next_draw];
    rewrite Htr, <- ?app_assoc; cbn [app];
    eexists; (split; [reflexivity|]); by eexists _, _.
Qed.

Lemma keyed_commits_first (rid : string) (w : World) (s : St) (recording : Recording) :
  AudioStore.getRecordingById rid (db s) = Some recording ->
  truthy (s3Key recording) = true ->
  status recording <> synced ->
  (uploadAttempts recording < MAX_ATTEMPTS)%Z ->
  returns (uploadRecording rid) w s (fun _ s' =>
    extends s s' (commits_first rid recording)).
Proof.
  intros Hget Htruthy Hs Hlt. apply uploadRecording_rule.
  - congruence.
  - intros r Hr Hsyn. congruence.
  - intros r Hr _ Hge. assert (r = recording) as -> by congruence. lia.
  - intros r Hr _ _. assert (r = recording) as -> by congruence.
    apply (pipeline_rule
             (fun a s' =>
                l_s3Key (locals s') = s3Key recording
                /\ ((a = uploadAttempts recording /\ trace s' = trace s)
                    \/ extends s s' (commits_first rid recording)))
             (fun s' => extends s s' (commits_first rid recording))
             (fun _ s' => extends s s' (commits_first rid recording))); try done.
    + split; [done|]. by left.
    + intros a s' Ha [Hk HI].
      eapply returns_mono; [by apply attempt_body_commits_first|].
      intros [r'| |] s'' [Hk' H]; simpl; try done. split; [done|]. by right.
    + intros s' [_ [[Heq _]|H]]; [lia|done].
    + intros s' HB. by apply terminal_failure_commits_first.
Qed.

Lemma keys_issued_retry (i : string) (d : DB) :
  keys_issued d -> keys_issued (Page.handleRetry i d).
Proof. intros Hd. unfold Page.handleRetry. by apply keys_issued_update. Qed.

(** C2: on a store whose keys are keys the server issued (the pipeline is
    the only writer of keys, and stores the key of the upload target it was
    given, [recordings/<filename>]), an invocation for a recording whose
    stored key is present issues no request other than the metadata commit:
    the upload target is not requested and the object is not transferred.
    When the invocation enters the attempt loop (the record is not marked
    [synced] and its budget is not used up), its first request is that
    commit, with the stored key.  The keys of the store it leaves are again
    keys the server issued. *)
Theorem keyed_retry_only_commits (rid : string) (w : World) (s : St)
    (recording : Recording) :
  keys_issued (db s) ->
  AudioStore.getRecordingById rid (db s) = Some recording ->
  is_Some (s3Key recording) ->
  returns (uploadRecording rid) w s (fun _ s' =>
    extends s s' (fun tr =>
      Forall only_commit tr
      /\ (status recording <> synced ->
          (uploadAttempts recording < MAX_ATTEMPTS)%Z ->
          commits_first rid recording tr))
    /\ (serves_keys w -> keys_issued (db s'))).
Proof.
  intros Hd Hget [key Hkey].
  assert (Htruthy : truthy (s3Key recording) = true).
  { rewrite Hkey. apply issued_truthy. by apply (read_key_issued rid recording (db s)). }
  pose proof (keyed_only_commits rid w s recording Hget Htruthy) as Honly.
  apply returns_and.
  - destruct (decide (status recording = synced)) as [Hs|Hs];
      [|destruct (Z_lt_dec (uploadAttempts recording) MAX_ATTEMPTS) as [Hlt|Hge]].
    + eapply returns_mono; [exact Honly|].
      intros _ s' (tr & Htr & Hall). exists tr. by repeat split.
    + eapply returns_mono;
        [apply returns_and;
           [exact Honly|by apply (keyed_commits_first rid w s recording)]|].
      intros _ s' [(tr & Htr & Hall) (tr' & Htr' & Hfirst)].
      assert (tr' = tr) as -> by (rewrite Htr in Htr'; by apply app_inv_head in Htr').
      exists tr. by repeat split.
    + eapply returns_mono; [exact Honly|].
      intros _ s' (tr & Htr & Hall). exists tr. by repeat split.
  - apply returns_impl.
    + eapply returns_mono; [exact Honly|done].
    + intros Hw. by apply uploadRecording_issued.
Qed.

Lemma world_of_serves_keys (answers : list FetchOutcome) (r : Q) :
  Forall (fun out => forall a, out = Resolved a ->
            resp_body a = BodyUploadUrl "https://bucket/put" "recordings/k") answers ->
  serves_keys (world_of answers r).
Proof.
  intros Hall n a url key Hnet _ Hbody. simpl in Hnet.
  assert (Ha : resp_body a = BodyUploadUrl "https://bucket/put" "recordings/k").
  { revert n Hnet. induction Hall as [|out l Hout _ IH]; intros [|n] Hnet;
      simpl in Hnet.
    - by injection Hnet as <-.
    - by injection Hnet as <-.
    - by apply Hout.
    - by apply (IH n). }
  rewrite Ha in Hbody. injection Hbody as <- <-. by exists "k".
Qed.

Lemma keyed_retry_only_commits_witness :
  let w := world_of [respond 200; respond 200;
                     Rejected (TypeError "Failed to fetch")] 0 in
  let s1 := (uploadRecording "r1" w
               (state_of (saveRecording (fresh "r1" webm) emptyDB))).2 in
  returns (uploadRecording "r1") w s1 (fun _ s' =>
    extends s1 s' (fun tr =>
      Forall only_commit tr
      /\ (status resumed <> synced ->
          (uploadAttempts resumed < MAX_ATTEMPTS)%Z ->
          commits_first "r1" resumed tr))
    /\ (serves_keys w -> keys_issued (db s'))).
Proof.
  intros w s1.
  assert (Hw : serves_keys w).
  { apply world_of_serves_keys. repeat constructor; by intros a [= <-]. }
  assert (Hd : keys_issued (db s1)).
  { pose proof (uploadRecording_issued "r1" w
                  (state_of (saveRecording (fresh "r1" webm) emptyDB)) Hw) as H.
    unfold returns in H. fold s1 in H.
    destruct (uploadRecording "r1" w _) as [[res|e] s'] eqn:E.
    - apply H. apply keys_issued_save; [done|apply keys_issued_empty].
    - by destruct H; [apply keys_issued_save; [done|apply keys_issued_empty]]. }
  apply (keyed_retry_only_commits "r1" w s1 resumed Hd).
  - vm_compute. reflexivity.
  - by exists "recordings/k".
Defined.

End Idempotency.

(* ===================================================================== *)
(** * Rounding to the nearest double *)
(* ===================================================================== *)

Section DoubleFacts.
Import Double.
Local Open Scope Q_scope.

Lemma nearest_even_range (x : Q) :
  (Qfloor x <= nearest_even x <= Qfloor x + 1)%Z.
Proof.
  unfold nearest_even. destruct (Qcompare _ _); [destruct (Z.even _)| |]; lia.
Qed.

Lemma nearest_even_ge (x : Q) (k : Z) : inject_Z k <= x -> (k <= nearest_even x)%Z.
Proof.
  intros H. apply Qfloor_resp_le in H. rewrite Qfloor_Z in H.
  pose proof (nearest_even_range x). lia.
Qed.

Lemma nearest_even_le (x : Q) (k : Z) : x <= inject_Z k -> (nearest_even x <= k)%Z.
Proof.
  intros H. pose proof (nearest_even_range x) as Hr.
  destruct (Z.eq_dec (Qfloor x) k) as [E|E].
  - (* x = k: the fraction is 0 *)
    unfold nearest_even. rewrite E.
    assert (Hx : x == inject_Z k).
    { apply Qle_antisym; [done|]. rewrite <- E. apply Qfloor_le. }
    assert (Hc : Qcompare (x - inject_Z k) (1 # 2) = Lt).
    { apply Qlt_alt. rewrite Hx. unfold Qminus. rewrite Qplus_opp_r.
      reflexivity. }
    rewrite Hc. lia.
  - assert (Qfloor x <= k)%Z.
    { apply Qfloor_resp_le in H. by rewrite Qfloor_Z in H. }
    lia.
Qed.

Lemma pow2_pos (e : Z) : 0 < 2 ^ e.
Proof. by apply Qpower_0_lt. Qed.

Lemma pow2_le (e1 e2 : Z) : (e1 <= e2)%Z -> 2 ^ e1 <= 2 ^ e2.
Proof. intros H. by apply Qpower_le_compat_l. Qed.

Lemma pow2_plus (a b : Z) : 2 ^ (a + b) == 2 ^ a * 2 ^ b.
Proof. by apply Qpower_plus. Qed.

Lemma pow2_Z (n : Z) : (0 <= n)%Z -> inject_Z (2 ^ n) == 2 ^ n.
Proof. intros H. by rewrite Zpower_Qpower. Qed.

(** [binade x] is the exponent of the power of two at or below [x]. *)
Lemma binade_spec (x : Q) :
  0 < x -> 2 ^ binade x <= x /\ x < 2 ^ (binade x + 1).
Proof.
  intros Hx. destruct x as [p q].
  assert (Hp : (0 < p)%Z) by (unfold Qlt in Hx; simpl in Hx; lia).
  unfold binade. cbn [Qnum Qden]. rewrite (Z.abs_eq p) by lia.
  set (lp := Z.log2 p). set (lq := Z.log2 (Z.pos q)).
  assert (Hlp : (0 <= lp)%Z) by apply Z.log2_nonneg.
  assert (Hlq : (0 <= lq)%Z) by apply Z.log2_nonneg.
  destruct (Z.log2_spec p Hp) as [Hp1 Hp2].
  destruct (Z.log2_spec (Z.pos q) eq_refl) as [Hq1 Hq2].
  fold lp in Hp1, Hp2. fold lq in Hq1, Hq2.
  rewrite Zle_Qle, pow2_Z in Hp1 by lia.
  rewrite Zlt_Qlt, pow2_Z in Hp2 by lia.
  rewrite Zle_Qle, pow2_Z in Hq1 by lia.
  rewrite Zlt_Qlt, pow2_Z in Hq2 by lia.
  assert (Hqpos : 0 < inject_Z (Z.pos q)) by reflexivity.
  rewrite (Qabs_pos (p # q)) by (by apply Qlt_le_weak).
  assert (Hdiv : p # q == inject_Z p / inject_Z (Z.pos q)) by apply Qmake_Qdiv.
  destruct (Qle_bool (2 ^ (lp - lq)) (p # q)) eqn:Htest.
  - apply Qle_bool_iff in Htest. split; [done|].
    rewrite Hdiv. apply Qlt_shift_div_r; [done|].
    eapply Qlt_le_trans; [exact Hp2|].
    replace (Z.succ lp) with ((lp - lq + 1) + lq)%Z by lia.
    rewrite pow2_plus. apply Qmult_le_l; [apply pow2_pos|done].
  - assert (Hlt : p # q < 2 ^ (lp - lq)).
    { apply Qnot_le_lt. intros H. apply Qle_bool_iff in H. congruence. }
    replace (lp - lq - 1 + 1)%Z with (lp - lq)%Z by lia. split; [|done].
    rewrite Hdiv. apply Qle_shift_div_l; [done|].
    eapply Qle_trans; [|exact Hp1].
    replace lp with ((lp - lq - 1) + Z.succ lq)%Z at 2 by lia.
    rewrite pow2_plus. apply Qmult_le_l; [apply pow2_pos|].
    by apply Qlt_le_weak.
Qed.

Lemma ulp_exp_normal (x : Q) (e : Z) :
  (e < ulp_exp x)%Z -> (emin <= e)%Z -> ulp_exp x = (binade x - (prec - 1))%Z.
Proof. unfold ulp_exp. lia. Qed.

(** A number with a 53-bit significand and a smaller exponent lies below
    the binade of [x]. *)
Lemma below_binade (x : Q) (m e : Z) :
  0 < x -> (0 < m < 2 ^ prec)%Z -> (emin <= e < ulp_exp x)%Z ->
  inject_Z m * 2 ^ e < 2 ^ (prec - 1) * 2 ^ ulp_exp x
  /\ 2 ^ (prec - 1) * 2 ^ ulp_exp x <= x.
Proof.
  intros Hx Hm He.
  assert (Hu : ulp_exp x = (binade x - (prec - 1))%Z)
    by (apply (ulp_exp_normal x e); lia).
  split.
  - apply Qlt_le_trans with (2 ^ prec * 2 ^ e).
    + apply Qmult_lt_r; [apply pow2_pos|].
      rewrite <- pow2_Z by (unfold prec; lia). rewrite <- Zlt_Qlt. lia.
    + rewrite <- !pow2_plus. apply pow2_le. lia.
  - rewrite <- pow2_plus, Hu.
    replace (prec - 1 + (binade x - (prec - 1)))%Z with (binade x) by lia.
    by apply binade_spec.
Qed.

(** A number with an exponent at or above that of [x] is a multiple of the
    unit in the last place of [x]. *)
Lemma on_grid (m e u : Z) :
  (u <= e)%Z -> inject_Z m * 2 ^ e == inject_Z (m * 2 ^ (e - u)) * 2 ^ u.
Proof.
  intros H. rewrite inject_Z_mult, pow2_Z by lia.
  rewrite <- Qmult_assoc, <- pow2_plus.
  by replace (e - u + u)%Z with e by lia.
Qed.

Lemma significand_pos (m e : Z) : 0 < inject_Z m * 2 ^ e -> (0 < m)%Z.
Proof.
  intros Hpos. destruct (Z_lt_le_dec 0 m) as [|Hneg]; [done|].
  exfalso. apply (Qlt_irrefl 0). eapply Qlt_le_trans; [exact Hpos|].
  rewrite Zle_Qle in Hneg.
  apply Qle_trans with (inject_Z 0 * 2 ^ e).
  - apply Qmult_le_compat_r; [done|apply Qlt_le_weak, pow2_pos].
  - rewrite Qmult_0_l. apply Qle_refl.
Qed.

(** Rounding never crosses a double: a double at or below [x] is at or
    below the rounded [x], and likewise above. *)
Lemma round_ge (a x : Q) :
  representable a -> 0 < a -> a <= x -> a <= round x.
Proof.
  intros (m & e & Hm & He & Ha) Hpos Hle.
  assert (Hx : 0 < x) by (by apply Qlt_le_trans with a).
  assert (Hmpos : (0 < m)%Z)
    by (apply (significand_pos m e); by rewrite <- Ha).
  unfold round. set (u := ulp_exp x).
  destruct (Z_le_gt_dec u e) as [Hue|Hue].
  - rewrite Ha, (on_grid m e u) by done.
    apply Qmult_le_compat_r; [|apply Qlt_le_weak, pow2_pos].
    rewrite <- Zle_Qle. apply nearest_even_ge.
    apply Qle_shift_div_l; [apply pow2_pos|].
    by rewrite <- on_grid, <- Ha.
  - destruct (below_binade x m e Hx) as [H1 H2]; [lia|fold u; lia|].
    fold u in H1, H2. rewrite Ha.
    apply Qlt_le_weak. eapply Qlt_le_trans; [exact H1|].
    apply Qmult_le_compat_r; [|apply Qlt_le_weak, pow2_pos].
    rewrite <- pow2_Z by (unfold prec; lia). rewrite <- Zle_Qle.
    apply nearest_even_ge. apply Qle_shift_div_l; [apply pow2_pos|].
    by rewrite pow2_Z by (unfold prec; lia).
Qed.

Lemma round_le (b x : Q) :
  representable b -> 0 < x -> x <= b -> round x <= b.
Proof.
  intros (m & e & Hm & He & Hb) Hx Hle.
  assert (Hmpos : (0 < m)%Z).
  { apply (significand_pos m e). rewrite <- Hb. by apply Qlt_le_trans with x. }
  unfold round. set (u := ulp_exp x).
  destruct (Z_le_gt_dec u e) as [Hue|Hue].
  - rewrite Hb, (on_grid m e u) by done.
    apply Qmult_le_compat_r; [|apply Qlt_le_weak, pow2_pos].
    rewrite <- Zle_Qle. apply nearest_even_le.
    apply Qle_shift_div_r; [apply pow2_pos|].
    by rewrite <- on_grid, <- Hb.
  - destruct (below_binade x m e Hx) as [H1 H2]; [lia|fold u; lia|].
    exfalso. apply (Qlt_irrefl x).
    eapply Qle_lt_trans; [exact Hle|]. rewrite Hb.
    eapply Qlt_le_trans; [exact H1|exact H2].
Qed.

(** A double rounds to itself. *)
Lemma round_exact (a : Q) : representable a -> 0 < a -> round a == a.
Proof.
  intros Hr Hpos. apply Qle_antisym.
  - apply round_le; [done..|apply Qle_refl].
  - apply round_ge; [done..|apply Qle_refl].
Qed.

Lemma representable_Z_pow2 (m e : Z) :
  (Z.abs m < 2 ^ prec)%Z -> (emin <= e)%Z -> representable (inject_Z m * 2 ^ e).
Proof. intros. by exists m, e. Qed.

(** The rounded value is a double. *)
Lemma round_representable (x : Q) : 0 < x -> representable (round x).
Proof.
  intros Hx. unfold round. set (u := ulp_exp x).
  assert (Hu : (emin <= u)%Z) by (unfold u, ulp_exp; lia).
  assert (Hub : (binade x - (prec - 1) <= u)%Z) by (unfold u, ulp_exp; lia).
  set (N := nearest_even (x / 2 ^ u)).
  assert (H0 : (0 <= N)%Z).
  { apply nearest_even_ge. apply Qle_shift_div_l; [apply pow2_pos|].
    rewrite Qmult_0_l. by apply Qlt_le_weak. }
  assert (H1 : (N <= 2 ^ prec)%Z).
  { apply nearest_even_le. apply Qle_shift_div_r; [apply pow2_pos|].
    rewrite pow2_Z by (unfold prec; lia). rewrite <- pow2_plus.
    apply Qlt_le_weak. eapply Qlt_le_trans; [by apply binade_spec|].
    apply pow2_le. lia. }
  destruct (Z.eq_dec N (2 ^ prec)%Z) as [E|E].
  - exists (2 ^ (prec - 1))%Z, (u + 1)%Z. split; [|split; [lia|]].
    + unfold prec. simpl. lia.
    + rewrite E, !pow2_Z by (unfold prec; lia). rewrite <- !pow2_plus.
      by replace (prec + u)%Z with (prec - 1 + (u + 1))%Z by lia.
  - exists N, u. split; [lia|]. by split.
Qed.

Lemma representable_500 : representable 500.
Proof. exists 500%Z, 0%Z. split; [done|]. split; [done|reflexivity]. Qed.

Lemma representable_1000 : representable 1000.
Proof. exists 1000%Z, 0%Z. split; [done|]. split; [done|reflexivity]. Qed.

Lemma representable_1500 : representable 1500.
Proof. exists 1500%Z, 0%Z. split; [done|]. split; [done|reflexivity]. Qed.

Lemma representable_3000 : representable 3000.
Proof. exists 3000%Z, 0%Z. split; [done|]. split; [done|reflexivity]. Qed.

Lemma representable_half : representable (1 # 2).
Proof. exists 1%Z, (-1)%Z. split; [done|]. split; [done|reflexivity]. Qed.

Lemma representable_3_2 : representable (3 # 2).
Proof. exists 3%Z, (-1)%Z. split; [done|]. split; [done|reflexivity]. Qed.

(** The rounding at work: in double arithmetic 0.1 + 0.2 is
    0.30000000000000004, that is [5404319552844596 * 2^-54]. *)
Lemma round_tenths :
  Double.add (Double.round (1 # 10)) (Double.round (2 # 10))
  == inject_Z 5404319552844596 * 2 ^ (-54).
Proof. vm_compute. reflexivity. Qed.

(** Rounding a product that lies between two doubles. *)
Lemma mul_between (lo hi b j : Q) :
  representable lo -> representable hi -> 0 < lo ->
  lo <= b * j <= hi -> lo <= Double.mul b j <= hi.
Proof.
  intros Hlo Hhi Hpos [H1 H2]. unfold Double.mul. split.
  - by apply round_ge.
  - apply round_le; [done| |done]. by apply Qlt_le_trans with lo.
Qed.

End DoubleFacts.

(* ===================================================================== *)
(** * The backoff delay *)
(* ===================================================================== *)

Section Backoff.
Import Js AudioStore Effects Upload UploadSpec PipelineSpec BackoffSpec Examples.

Lemma each_sleep_app (P : Q -> option Event -> Prop) (tr1 tr2 : list Event) :
  (forall d, ~ P d None) ->
  each_sleep P tr1 -> each_sleep P tr2 -> each_sleep P (tr1 ++ tr2).
Proof.
  intros Hnone. induction tr1 as [|ev tr1 IH]; intros H1 H2; simpl; [done|].
  destruct ev; simpl in *; try (by apply IH).
  destruct H1 as [Hd H1]. split; [|by apply IH].
  destruct tr1; simpl in *; [by destruct (Hnone ms)|done].
Qed.

Lemma each_sleep_at (P : Q -> option Event -> Prop) (pre post : list Event) (d : Q) :
  each_sleep P (pre ++ EvSleep d :: post) -> P d (head post).
Proof.
  induction pre as [|ev pre IH]; simpl.
  - by intros [H _].
  - destruct ev; simpl; try done. intros [_ H]. by apply IH.
Qed.

Lemma backs_off_next (w : World) (rid : string) (d : Q) : ~ backs_off w rid d None.
Proof. by intros (k & n & H & _). Qed.

(** The jitter lies in [[0.5, 1.5]], both ends included. *)
Lemma jitter_range (r : Q) :
  (0 <= r < 1)%Q -> ((1 # 2) <= jitter_of r <= (3 # 2))%Q.
Proof.
  intros [H0 H1]. unfold jitter_of, Double.add. split.
  - apply round_ge; [apply representable_half|done|lra].
  - apply round_le; [apply representable_3_2|lra|lra].
Qed.

Lemma delay_range_2 (r : Q) :
  (0 <= r < 1)%Q -> (500 <= delay_before 2 r <= 1500)%Q.
Proof.
  intros Hr. destruct (jitter_range r Hr) as [H1 H2].
  unfold delay_before. change (2 - 2) with 0.
  assert (Hb : (Double.mul 1000 (Double.pow 2 0) == 1000)%Q)
    by (vm_compute; reflexivity).
  apply mul_between;
    [apply representable_500|apply representable_1500|done|].
  rewrite Hb. split; lra.
Qed.

Lemma delay_range_3 (r : Q) :
  (0 <= r < 1)%Q -> (1000 <= delay_before 3 r <= 3000)%Q.
Proof.
  intros Hr. destruct (jitter_range r Hr) as [H1 H2].
  unfold delay_before. change (3 - 2) with 1.
  assert (Hb : (Double.mul 1000 (Double.pow 2 1) == 2000)%Q)
    by (vm_compute; reflexivity).
  apply mul_between;
    [apply representable_1000|apply representable_3000|done|].
  rewrite Hb. split; lra.
Qed.

(** C4, the claim as worded fails: after a first attempt answered 503 the
    pipeline sleeps 500 ms before attempt 2 when the random draw is 0; this
    is below [1000 * 2^(2-1) * 0.5] and outside [[2000, 3000)]. *)
Lemma delay_before_second_attempt_is_500 :
  let s := state_of (saveRecording (fresh "r1" webm) emptyDB) in
  let w := world_of [respond 503] 0 in
  let tr := trace (uploadRecording "r1" w s).2 in
  exists d,
    tr !! 2%nat = Some (EvSleep d)
    /\ tr !! 3%nat = Some (EvUpdateRecordingStatus "r1" uploading
                            {| x_uploadAttempts := Some 2%Z;
                               x_lastError := None; x_s3Key := None |})
    /\ (d == 500)%Q
    /\ ~ (1000 * 2 ^ (2 - 1) * (1 # 2) <= d)%Q
    /\ ~ (2000 <= d)%Q.
Proof.
  eexists. split; [vm_compute; reflexivity|].
  split; [vm_compute; reflexivity|].
  split; [vm_compute; reflexivity|].
  split; vm_compute; congruence.
Qed.

(** The upper ends are reached: for the largest draw below 1, [1 - 2^-53],
    the sum [0.5 + r] rounds to 1.5 and the delay before attempt 2 is
    1500 ms. *)
Lemma delay_reaches_1500 :
  (jitter_of (1 - (1 # 2) ^ 53) == 3 # 2)%Q
  /\ (delay_before 2 (1 - (1 # 2) ^ 53) == 1500)%Q.
Proof. split; vm_compute; reflexivity. Qed.

Ltac backoff_leaf Htr :=
  extend_trace Htr;
  apply each_sleep_app; [apply backs_off_next|done|];
  cbn [each_sleep app head]; repeat split; try done.

Lemma attempt_body_backoff rid recording start a w s0 s :
  backing_off w rid s0 s ->
  returns (attempt_body rid recording start a) w s (fun _ s' =>
    backing_off w rid s0 s').
Proof.
  intros (tr & Htr & Hall).
  run_all; unfold backing_off; backoff_leaf Htr;
    exists (a + 1)%Z, (draws s); (split; [reflexivity|]);
    unfold delay_before, jitter_of;
    by replace (a + 1 - 2)%Z with (a - 1)%Z by lia.
Qed.

Lemma terminal_failure_backoff rid recording w s0 s :
  backing_off w rid s0 s ->
  returns (terminal_failure rid recording) w s (fun _ s' => backing_off w rid s0 s').
Proof.
  intros (tr & Htr & Hall).
  run_all; unfold backing_off; backoff_leaf Htr.
Qed.

Lemma uploadRecording_backoff (rid : string) (w : World) (s : St) :
  returns (uploadRecording rid) w s (fun _ s' => backing_off w rid s s').
Proof.
  apply uploadRecording_rule; try (intros; by apply extends_refl).
  intros recording Hget Hs Hlt.
  apply (pipeline_rule (fun _ => backing_off w rid s) (backing_off w rid s)
           (fun _ => backing_off w rid s)); try done.
  - by apply extends_entered.
  - intros a s' Ha HI. eapply returns_mono; [by apply attempt_body_backoff|].
    by intros [].
  - intros s' HB. by apply terminal_failure_backoff.
Qed.

(** ** Every attempt but the first waits *)

Lemma paced_app (p : option Event) (tr1 tr2 : list Event) :
  paced p tr1 -> (forall q, (tr1 = [] -> q = p) -> paced q tr2) ->
  paced p (tr1 ++ tr2).
Proof.
  revert p. induction tr1 as [|ev tr1 IH]; intros p H1 H2.
  - by apply H2.
  - destruct H1 as [Hev H1]. split; [done|]. apply IH; [done|].
    intros q _. by apply H2.
Qed.

Lemma paced_at (p : option Event) (pre post : list Event) (ev : Event) :
  paced p (pre ++ ev :: post) -> is_attempt ev = true ->
  (pre = [] /\ match p with
               | None => True
               | Some (EvSleep _) => True
               | Some _ => False
               end)
  \/ exists pre' d, pre = pre' ++ [EvSleep d].
Proof.
  revert p. induction pre as [|e pre IH]; intros p.
  - intros [H _] Hev. left. split; [done|]. by apply H.
  - intros [_ H] Hev. right.
    destruct (IH (Some e) H Hev) as [[-> Hm]|(pre' & d & ->)].
    + destruct e; try done. by exists [], ms.
    + by exists (e :: pre'), d.
Qed.

Ltac paced_leaf :=
  cbn [paced is_attempt x_uploadAttempts app]; repeat split; done.

Lemma attempt_body_paced rid recording start a w s0 s :
  (start <= a)%Z ->
  (exists tr, trace s = trace s0 ++ tr /\ paced None tr /\ (a = start -> tr = [])) ->
  returns (attempt_body rid recording start a) w s (fun _ s' => pacing s0 s').
Proof.
  intros Ha (tr & Htr & Hall & Hfirst). unfold pacing.
  destruct (decide (a = start)) as [->|Hne].
  - rewrite (Hfirst eq_refl), app_nil_r in Htr.
    run_all;
      try (rewrite Z.gtb_ltb in *;
           match goal with H : (_ <? _)%Z = true |- _ => apply Z.ltb_lt in H; lia end);
      extend_trace Htr; paced_leaf.
  - run_all;
      try (rewrite Z.gtb_ltb in *;
           match goal with H : (_ <? _)%Z = false |- _ => apply Z.ltb_ge in H; lia end);
      extend_trace Htr; (apply paced_app; [done|]); intros q _; paced_leaf.
Qed.

Lemma terminal_failure_paced rid recording w s0 s :
  pacing s0 s ->
  returns (terminal_failure rid recording) w s (fun _ s' => pacing s0 s').
Proof.
  intros (tr & Htr & Hall). unfold pacing.
  run_all; extend_trace Htr; (apply paced_app; [done|]); intros q _; paced_leaf.
Qed.

Lemma uploadRecording_paced (rid : string) (w : World) (s : St) :
  returns (uploadRecording rid) w s (fun _ s' => pacing s s').
Proof.
  apply uploadRecording_rule; try (intros; by apply extends_refl).
  intros recording Hget Hs Hlt.
  set (start := uploadAttempts recording) in *.
  apply (pipeline_rule
           (fun a s' => exists tr, trace s' = trace s ++ tr /\ paced None tr
                                  /\ (a = start -> tr = []))
           (pacing s) (fun _ => pacing s)); try done.
  - exists []. simpl. by rewrite app_nil_r.
  - intros a s' Ha HI. fold start in Ha.
    eapply returns_mono; [apply attempt_body_paced; [lia|exact HI]|].
    intros [r| |] s'' (tr & Htr & Hall); simpl; try by exists tr.
    exists tr. split; [done|]. split; [done|]. lia.
  - intros s' (tr & Htr & Hall & _). by exists tr.
  - intros s' HB. by apply terminal_failure_paced.
Qed.

(** C4 (amended): within an invocation, every attempt but the first comes
    right after a sleep, and every sleep is followed at once by the write
    that opens an attempt.  If that attempt is number [k], the delay is the
    product, in double arithmetic, of [1000 * 2^(k-2)] and a jitter that is
    0.5 plus a random draw, so in [[0.5, 1.5]].  Hence it lies in
    [[500, 1500]] ms before attempt 2 and in [[1000, 3000]] ms before
    attempt 3. *)
Theorem backoff_before_attempt (rid : string) (w : World) (s : St) :
  (forall n, 0 <= rnd w n < 1)%Q ->
  returns (uploadRecording rid) w s (fun _ s' =>
    extends s s' (fun tr =>
      (forall pre d post, tr = pre ++ EvSleep d :: post ->
        exists k n post',
          post = EvUpdateRecordingStatus rid uploading
                   {| x_uploadAttempts := Some k; x_lastError := None;
                      x_s3Key := None |} :: post'
          /\ d = delay_before k (rnd w n)
          /\ ((1 # 2) <= jitter_of (rnd w n) <= (3 # 2))%Q
          /\ (k = 2%Z -> 500 <= d <= 1500)%Q
          /\ (k = 3%Z -> 1000 <= d <= 3000)%Q)
      /\ (forall pre ev post, tr = pre ++ ev :: post -> is_attempt ev = true ->
            pre = [] \/ exists pre' d, pre = pre' ++ [EvSleep d]))).
Proof.
  intros Hrnd.
  eapply returns_mono;
    [apply returns_and; [apply uploadRecording_backoff|apply uploadRecording_paced]|].
  intros _ s' [(tr & Htr & Hall) (tr' & Htr' & Hpaced)].
  assert (tr' = tr) as -> by (rewrite Htr in Htr'; by apply app_inv_head in Htr').
  exists tr. split; [done|]. split.
  - intros pre d post ->. apply each_sleep_at in Hall.
    destruct Hall as (k & n & Hnext & ->).
    destruct post as [|ev post']; [done|]. simpl in Hnext. injection Hnext as ->.
    specialize (Hrnd n).
    exists k, n, post'.
    split; [done|]. split; [done|]. split; [by apply jitter_range|].
    split; intros ->; [by apply delay_range_2|by apply delay_range_3].
  - intros pre ev post -> Hev.
    destruct (paced_at None pre post ev Hpaced Hev) as [[-> _]|H]; [by left|by right].
Qed.

Lemma backoff_before_attempt_witness :
  let s := state_of (saveRecording (fresh "r1" webm) emptyDB) in
  let w := world_of [respond 503; respond 503] (1 # 4) in
  returns (uploadRecording "r1") w s (fun _ s' =>
    extends s s' (fun tr =>
      (forall pre d post, tr = pre ++ EvSleep d :: post ->
        exists k n post',
          post = EvUpdateRecordingStatus "r1" uploading
                   {| x_uploadAttempts := Some k; x_lastError := None;
                      x_s3Key := None |} :: post'
          /\ d = delay_before k (rnd w n)
          /\ ((1 # 2) <= jitter_of (rnd w n) <= (3 # 2))%Q
          /\ (k = 2%Z -> 500 <= d <= 1500)%Q
          /\ (k = 3%Z -> 1000 <= d <= 3000)%Q)
      /\ (forall pre ev post, tr = pre ++ ev :: post -> is_attempt ev = true ->
            pre = [] \/ exists pre' d, pre = pre' ++ [EvSleep d]))).
Proof.
  intros s w.
  apply (backoff_before_attempt "r1" w s).
  intros n. simpl. split; [discriminate|reflexivity].
Defined.

End Backoff.

(* ===================================================================== *)
(** * Network-class failures *)
(* ===================================================================== *)

Section NetworkFailure.
Import Js AudioStore Effects Upload UploadSpec Examples.

Lemma no_failure_app (tr1 tr2 : list Event) :
  no_failure (tr1 ++ tr2) = no_failure tr1 && no_failure tr2.
Proof. apply forallb_app. Qed.

Lemma stops_after_clean (last : Event) (tr1 tr2 : list Event) :
  no_failure tr1 = true ->
  stops_at_failure last tr2 -> stops_at_failure last (tr1 ++ tr2).
Proof.
  induction tr1 as [|ev tr1 IH]; simpl; [done|].
  intros [Hev H1]%andb_prop H2. apply negb_true_iff in Hev. rewrite Hev. auto.
Qed.

Lemma stops_at_failure_at (last : Event) (pre post : list Event) (ev : Event) :
  network_failure last = false ->
  network_failure ev = true ->
  stops_at_failure last (pre ++ ev :: post) -> post = [last].
Proof.
  intros Hlast Hev. induction pre as [|e pre IH]; simpl.
  - by rewrite Hev.
  - destruct (network_failure e) eqn:He; [|done].
    intros H. destruct pre as [|e' pre]; simpl in H.
    + injection H as -> ->. congruence.
    + injection H as _ H. by destruct pre.
Qed.

Lemma failure_not_clean (pre post : list Event) (ev : Event) :
  network_failure ev = true -> no_failure (pre ++ ev :: post) = false.
Proof.
  intros Hev. rewrite no_failure_app. simpl. rewrite Hev. simpl.
  apply andb_false_r.
Qed.

Lemma present_update (rid i : string) (st : Status) (x : Extras) (d : DB) :
  is_Some (recordings d !! rid) ->
  is_Some (recordings (AudioStore.updateRecordingStatus i st x d).2 !! rid).
Proof.
  intros [raw Hraw]. rewrite lookup_update. destruct (decide (rid = i)) as [->|].
  - rewrite Hraw. by eexists.
  - by eexists.
Qed.

Ltac use_eqs :=
  repeat match goal with
         | H : ?l = _ |- context [?l] => rewrite H
         end.

Ltac eval_failures :=
  repeat (progress
    (cbn [no_failure forallb network_failure attempt_request thrown negb andb
          stops_at_failure app save_data sd_status back_to_local bool_decide
          decide_rel Status_eq_dec];
     use_eqs)).

Lemma stored_after_update (rid : string) (st : Status) (n : Z) (d : DB) :
  is_Some (recordings d !! rid) ->
  stored_as rid st n
    (AudioStore.updateRecordingStatus rid st
       {| x_uploadAttempts := Some n; x_lastError := None; x_s3Key := None |} d).2.
Proof.
  intros [raw Hraw]. eexists. rewrite lookup_update, decide_True by done.
  rewrite Hraw. simpl. done.
Qed.

Ltac network_leaf Htr Hall :=
  lazymatch goal with
  | |- UploadSpec.net_clean _ _ _ =>
      split;
      [ extend_trace Htr; cbn [app]; rewrite no_failure_app, Hall;
        eval_failures; done
      | cbn [db log set_db set_locals next_fetch next_draw];
        repeat apply present_update; done ]
  | |- UploadSpec.net_outcome _ _ _ _ _ =>
      unfold UploadSpec.net_outcome; extend_trace Htr; cbn [app]; split;
      [ apply stops_after_clean; [exact Hall|]; eval_failures; done
      | rewrite no_failure_app, Hall; eval_failures;
        first
          [ discriminate
          | intros _;
            cbn [success res_status error db log set_db set_locals
                 next_fetch next_draw];
            split; [done|]; split; [done|]; split; [by eexists|];
            apply stored_after_update; repeat apply present_update; done ] ]
  end.

Lemma attempt_body_network rid recording start a w s0 s :
  net_clean rid s0 s ->
  returns (attempt_body rid recording start a) w s (fun flow s' =>
    match flow with
    | Return r => net_outcome rid start s0 r s'
    | _ => net_clean rid s0 s'
    end).
Proof.
  intros [(tr & Htr & Hall) Hdb].
  run_all; network_leaf Htr Hall.
Qed.

Lemma terminal_failure_network rid recording start w s0 s :
  net_clean rid s0 s ->
  returns (terminal_failure rid recording) w s (net_outcome rid start s0).
Proof.
  intros [(tr & Htr & Hall) Hdb].
  run_all; network_leaf Htr Hall.
Qed.

(** C3, the claim as worded fails: the count written back is the one read
    when the invocation began, not the one stored before the failing attempt.
    Here attempt 1 is answered 503 and consumes one attempt (the stored count
    is 1 when attempt 2 begins); attempt 2 fails to connect, and the count is
    set to 0. *)
Lemma network_error_refunds_earlier_attempts :
  let r1 := fresh "r1" webm in
  let s := state_of (saveRecording r1 emptyDB) in
  let w := world_of [respond 503; Rejected (TypeError "Failed to fetch")] 0 in
  let before := (attempt_body "r1" r1 0 0 w (entered r1 s)).2 in
  let after := (uploadRecording "r1" w s).2 in
  (attempt_body "r1" r1 0 0 w (entered r1 s)).1 = Ok Continue
  /\ uploadAttempts <$> recordings (db before) !! "r1" = Some 1%Z
  /\ (attempt_body "r1" r1 0 1 w before).2 = after
  /\ (exists ev, trace after !! 4%nat = Some ev /\ network_failure ev = true)
  /\ uploadAttempts <$> recordings (db after) !! "r1" = Some 0%Z.
Proof.
  vm_compute. repeat split; try reflexivity.
  eexists. split; reflexivity.
Qed.

(** C3 (amended): when a request of an upload attempt fails with a
    network-class error, the only thing the invocation still does is to
    write the record back with status [local] and with the attempt count it
    had when the invocation began (so attempts consumed earlier in the same
    invocation are given back as well); it then returns the failure result
    with status [local] and the error message, without a further attempt. *)
Theorem network_failure_returns_to_local (rid : string) (w : World) (s : St)
    (recording : Recording) :
  AudioStore.getRecordingById rid (db s) = Some recording ->
  returns (uploadRecording rid) w s (fun res s' =>
    extends s s' (fun tr =>
      forall pre ev post, tr = pre ++ ev :: post ->
        network_failure ev = true ->
        post = [back_to_local rid (uploadAttempts recording)]
        /\ success res = false /\ res_status res = local
        /\ is_Some (error res)
        /\ stored_as rid local (uploadAttempts recording) (db s'))).
Proof.
  intros Hget.
  assert (Hnil : forall res s', extends s s (fun tr =>
      forall pre ev post, tr = pre ++ ev :: post ->
        network_failure ev = true ->
        post = [back_to_local rid (uploadAttempts recording)]
        /\ success res = false /\ res_status res = local
        /\ is_Some (error res)
        /\ stored_as rid local (uploadAttempts recording) (db s'))).
  { intros res s'. apply extends_refl. by intros [|? ?] ? ? ?. }
  apply uploadRecording_rule; try (intros; by apply Hnil).
  intros recording' Hget' Hs Hlt.
  assert (recording' = recording) as -> by congruence.
  eapply returns_mono.
  - apply (pipeline_rule (fun _ => net_clean rid s) (net_clean rid s)
             (net_outcome rid (uploadAttempts recording) s)); try done.
    + split; [by apply extends_entered|].
      unfold AudioStore.getRecordingById in Hget. simpl.
      destruct (recordings (db s) !! rid); [by eexists|done].
    + intros a s' Ha HI. by apply attempt_body_network.
    + intros s' HB. by apply terminal_failure_network.
  - intros res s' (tr & Htr & Hstop & Hres). exists tr. split; [done|].
    intros pre ev post -> Hev. split.
    + by apply (stops_at_failure_at _ pre post ev).
    + apply Hres. by apply failure_not_clean.
Qed.

Lemma network_failure_returns_to_local_witness :
  let r1 := fresh "r1" webm in
  let s := state_of (saveRecording r1 emptyDB) in
  let w := world_of [respond 503; Rejected (TypeError "Failed to fetch")] 0 in
  AudioStore.getRecordingById "r1" (db s) = Some r1
  /\ returns (uploadRecording "r1") w s (fun res s' =>
       extends s s' (fun tr =>
         forall pre ev post, tr = pre ++ ev :: post ->
           network_failure ev = true ->
           post = [back_to_local "r1" (uploadAttempts r1)]
           /\ success res = false /\ res_status res = local
           /\ is_Some (error res)
           /\ stored_as "r1" local (uploadAttempts r1) (db s'))).
Proof.
  intros r1 s w.
  assert (Hget : AudioStore.getRecordingById "r1" (db s) = Some r1)
    by (vm_compute; reflexivity).
  split; [exact Hget|].
  exact (network_failure_returns_to_local "r1" w s r1 Hget).
Defined.

End NetworkFailure.

(* ===================================================================== *)
(** * Synced only after both stores confirmed *)
(* ===================================================================== *)

Section Synced.
Import Js AudioStore Effects Upload UploadSpec Examples.

Lemma hydrate_blob (raw : Raw) : blob (hydrateRecording raw) = payload_blob (blob raw).
Proof. unfold hydrateRecording. by destruct (blob raw). Qed.

Lemma put_confirmed_mono (b : Blob) (tr tr' : list Event) :
  put_confirmed b tr -> put_confirmed b (tr ++ tr').
Proof.
  intros (url & ct & r & Hin & Hok). exists url, ct, r. split; [|done].
  apply elem_of_app. by left.
Qed.

Lemma put_result_ok (out : FetchOutcome) (u : ()) :
  put_result out = Ok u -> exists r, out = Resolved r /\ ok r = true.
Proof.
  unfold put_result, classify. destruct out as [r|e]; [|done].
  destruct (ok r) eqn:E; [|done]. by exists r.
Qed.

Lemma save_result_ok (out : FetchOutcome) (u : ()) :
  save_result out = Ok u -> exists r, out = Resolved r /\ ok r = true.
Proof.
  unfold save_result, classify. destruct out as [r|e]; [|done].
  destruct (ok r) eqn:E; [|done]. by exists r.
Qed.

Lemma put_confirmed_intro (b : Blob) (url ct : string) (out : FetchOutcome)
    (u : ()) (tr : list Event) :
  put_result out = Ok u -> EvFetch (PutS3 url b ct) out ∈ tr -> put_confirmed b tr.
Proof.
  intros (r & -> & Hok)%put_result_ok Hin. by exists url, ct, r.
Qed.

Lemma commit_confirmed_intro (recording : Recording) (key : option string)
    (out : FetchOutcome) (u : ()) (tr : list Event) :
  save_result out = Ok u ->
  EvFetch (SaveRecording (save_data recording key synced None)) out ∈ tr ->
  commit_confirmed recording tr.
Proof.
  intros (r & -> & Hok)%save_result_ok Hin. by exists key, r.
Qed.

Lemma no_synced_update (i : string) (st : Status) (x : Extras) (d : DB) :
  st <> synced -> no_synced d ->
  no_synced (AudioStore.updateRecordingStatus i st x d).2.
Proof.
  intros Hst Hd j raw. rewrite lookup_update. destruct (decide (j = i)) as [->|].
  - destruct (recordings d !! i); simpl; [|done]. by intros [= <-].
  - apply Hd.
Qed.

Lemma no_synced_delete (i : string) (d : DB) :
  no_synced d -> no_synced (AudioStore.deleteRecording i d).
Proof.
  intros Hd j raw. rewrite lookup_deleteRecording. destruct (decide (j = i)); [done|].
  apply Hd.
Qed.

Lemma payload_is_update (rid i : string) (p : Stored) (st : Status) (x : Extras)
    (d : DB) :
  payload_is rid p d -> payload_is rid p (AudioStore.updateRecordingStatus i st x d).2.
Proof.
  intros Hd raw. rewrite lookup_update. destruct (decide (rid = i)) as [->|].
  - destruct (recordings d !! i) as [raw0|] eqn:E; simpl; [|done].
    intros [= <-]. simpl. by apply Hd.
  - apply Hd.
Qed.

Lemma keys_confirmed_mono (d : DB) (tr tr' : list Event) :
  keys_confirmed d tr -> keys_confirmed d (tr ++ tr').
Proof. intros H i raw Hraw Hkey. apply put_confirmed_mono. eauto. Qed.

Lemma keys_confirmed_update (i : string) (st : Status) (x : Extras) (d : DB)
    (tr : list Event) :
  x_s3Key x = None ->
  keys_confirmed d tr -> keys_confirmed (AudioStore.updateRecordingStatus i st x d).2 tr.
Proof.
  intros Hx Hd j raw. rewrite lookup_update. destruct (decide (j = i)) as [->|].
  - destruct (recordings d !! i) as [raw0|] eqn:E; simpl; [|done].
    intros [= <-]. simpl. rewrite Hx. by apply (Hd i).
  - apply Hd.
Qed.

Lemma keys_confirmed_update_key (i : string) (p : Stored) (st : Status)
    (x : Extras) (d : DB) (tr : list Event) :
  payload_is i p d -> put_confirmed (payload_blob p) tr ->
  keys_confirmed d tr -> keys_confirmed (AudioStore.updateRecordingStatus i st x d).2 tr.
Proof.
  intros Hp Hput Hd j raw. rewrite lookup_update. destruct (decide (j = i)) as [->|].
  - destruct (recordings d !! i) as [raw0|] eqn:E; simpl; [|done].
    intros [= <-] _. simpl. by rewrite (Hp raw0 E).
  - apply Hd.
Qed.

Lemma keys_confirmed_delete (i : string) (d : DB) (tr : list Event) :
  keys_confirmed d tr -> keys_confirmed (AudioStore.deleteRecording i d) tr.
Proof.
  intros Hd j raw. rewrite lookup_deleteRecording. destruct (decide (j = i)); [done|].
  apply Hd.
Qed.



Lemma truthy_is_Some (k : option string) : truthy k = true -> is_Some k.
Proof. destruct k; [by eexists|done]. Qed.

Ltac norm_state :=
  cbn [db trace locals l_s3Key log set_db set_locals next_fetch next_draw
       res_status];
  rewrite <- ?app_assoc; cbn [app].

Ltac solve_elem :=
  apply elem_of_app; right;
  repeat first [apply list_elem_of_here | apply list_elem_of_further].

(* put_confirmed (blob recording) (trace s ++ L) *)
Ltac solve_put Hput Hblob :=
  first
    [ rewrite Hblob; apply put_confirmed_mono; apply Hput;
      first [ assumption
            | apply truthy_is_Some; apply negb_false_iff; assumption ]
    | match goal with
      | H : put_result ?out = Ok _ |- _ =>
          eapply (put_confirmed_intro _ _ _ out); [exact H | solve_elem]
      end ].

Ltac solve_consistent Hns Hkeys Hp Hput Hblob :=
  split;
  [ norm_state;
    repeat first [ apply no_synced_delete
                 | apply no_synced_update; [discriminate|] ];
    exact Hns
  | norm_state;
    repeat first
      [ apply keys_confirmed_delete
      | apply keys_confirmed_update; [reflexivity|]
      | eapply keys_confirmed_update_key;
        [ repeat apply payload_is_update; exact Hp
        | rewrite <- Hblob; solve_put Hput Hblob
        | ] ];
    apply keys_confirmed_mono; exact Hkeys ].

Ltac solve_quiet :=
  rewrite ?Forall_app; repeat split; try done; repeat constructor; done.

(* truthy key0 = true \/ put_confirmed (blob recording) (tr ++ L) *)
Ltac solve_put_new Hnew :=
  first
    [ destruct Hnew as [Hnew|Hnew];
      [ first [ assumption | apply negb_false_iff; assumption ]
      | left; exact Hnew
      | right; apply put_confirmed_mono; exact Hnew ]
    | right;
      match goal with
      | H : put_result ?out = Ok _ |- _ =>
          eapply (put_confirmed_intro _ _ _ out); [exact H | solve_elem]
      end ].

Ltac synced_leaf Hns Hkeys Hp Hput Hblob Htr Hall Hnew :=
  lazymatch goal with
  | |- UploadSpec.uploading_inv _ _ _ _ _ =>
      split; [solve_consistent Hns Hkeys Hp Hput Hblob|];
      split; [norm_state; repeat apply payload_is_update; exact Hp|];
      split; [norm_state; intros ?; rewrite <- Hblob; solve_put Hput Hblob|];
      extend_trace Htr; cbn beta;
      cbn [locals l_s3Key log set_db set_locals next_fetch next_draw app];
      split; [solve_quiet|];
      intros ?; solve_put_new Hnew
  | |- UploadSpec.upload_outcome _ _ _ _ _ =>
      split; [solve_consistent Hns Hkeys Hp Hput Hblob|];
      extend_trace Htr; cbn beta; cbn [res_status app];
      first
        [ rewrite decide_False by discriminate; solve_quiet
        | rewrite decide_True by reflexivity;
          lazymatch goal with
          | |- exists pre, ?t ++ ?L = pre ++ _ /\ _ =>
              exists (t ++ removelast L); cbn [removelast]
          end;
          split; [by rewrite <- app_assoc|];
          split; [rewrite ?Forall_app; split; [exact Hall|]; repeat constructor; done|];
          split; [rewrite app_assoc, <- Htr; solve_put Hput Hblob|];
          split; [solve_put_new Hnew|];
          split;
          [ match goal with
            | H : save_result ?out = Ok _ |- _ =>
                eapply (commit_confirmed_intro _ _ out); [exact H | solve_elem]
            end
          | norm_state; rewrite lookup_deleteRecording; by rewrite decide_True ] ]
  end.

Lemma attempt_body_synced rid recording p start a w s0 s :
  blob recording = payload_blob p ->
  uploading_inv rid recording p s0 s ->
  returns (attempt_body rid recording start a) w s (fun flow s' =>
    match flow with
    | Return r => upload_outcome rid recording s0 r s'
    | _ => uploading_inv rid recording p s0 s'
    end).
Proof.
  intros Hblob ([Hns Hkeys] & Hp & Hput & tr & Htr & Hall & Hnew).
  run_all; synced_leaf Hns Hkeys Hp Hput Hblob Htr Hall Hnew.
Qed.

Lemma terminal_failure_synced rid recording p w s0 s :
  blob recording = payload_blob p ->
  uploading_inv rid recording p s0 s ->
  returns (terminal_failure rid recording) w s (upload_outcome rid recording s0).
Proof.
  intros Hblob ([Hns Hkeys] & Hp & Hput & tr & Htr & Hall & Hnew).
  run_all; synced_leaf Hns Hkeys Hp Hput Hblob Htr Hall Hnew.
Qed.

Lemma quiet_not_delete (tr : list Event) (i : string) :
  Forall quiet tr -> EvDeleteRecording i ∉ tr.
Proof.
  intros Hall Hin. rewrite Forall_forall in Hall. by apply (Hall _ Hin).
Qed.

Lemma quiet_not_synced_write (ev : Event) :
  quiet ev -> forall i x, ev <> EvUpdateRecordingStatus i synced x.
Proof. intros Hq i x ->. by apply Hq. Qed.

Lemma last_delete_unique (pre pre' post' : list Event) (i j : string) :
  Forall quiet pre ->
  pre ++ [EvDeleteRecording i] = pre' ++ EvDeleteRecording j :: post' ->
  pre' = pre /\ j = i /\ post' = [].
Proof.
  intros Hq. revert pre'. induction pre as [|ev pre IH]; intros pre' Heq.
  - destruct pre' as [|ev' pre']; simpl in Heq.
    + by injection Heq as -> <-.
    + injection Heq as _ Heq. by destruct pre'.
  - apply Forall_cons in Hq as [Hev Hq].
    destruct pre' as [|ev' pre']; simpl in Heq.
    + injection Heq as -> _. by destruct Hev.
    + injection Heq as <- Heq. destruct (IH Hq pre' Heq) as (-> & -> & ->). done.
Qed.

(** C1: from a consistent store (no record marked [synced], every stored
    key written after a confirmed PUT of the record's payload), an invocation
    leaves the store consistent, never writes status [synced] to it, and
    calls [deleteRecording] only for its own record, as its last action, after
    an OK answer to the PUT of the record's payload (in this invocation when
    no key was stored, otherwise in the invocation that stored the key) and
    an OK answer, in this invocation, to the commit of the record with status
    [synced].  It returns [synced] only if it has removed the record. *)
Theorem synced_only_after_confirmation (rid : string) (w : World) (s : St) :
  consistent s ->
  returns (uploadRecording rid) w s (fun res s' =>
    consistent s'
    /\ extends s s' (fun tr =>
         Forall (fun ev => forall i x, ev <> EvUpdateRecordingStatus i synced x) tr
         /\ (forall pre i post, tr = pre ++ EvDeleteRecording i :: post ->
               i = rid /\ post = []
               /\ exists recording,
                    AudioStore.getRecordingById rid (db s) = Some recording
                    /\ put_confirmed (blob recording) (trace s ++ pre)
                    /\ (truthy (s3Key recording) = false ->
                        put_confirmed (blob recording) pre)
                    /\ commit_confirmed recording pre)
         /\ (res_status res = synced ->
               EvDeleteRecording rid ∈ tr /\ recordings (db s') !! rid = None))).
Proof.
  intros Hcons.
  assert (Hnil : forall res, res_status res <> synced ->
    consistent s
    /\ extends s s (fun tr =>
         Forall (fun ev => forall i x, ev <> EvUpdateRecordingStatus i synced x) tr
         /\ (forall pre i post, tr = pre ++ EvDeleteRecording i :: post ->
               i = rid /\ post = []
               /\ exists recording,
                    AudioStore.getRecordingById rid (db s) = Some recording
                    /\ put_confirmed (blob recording) (trace s ++ pre)
                    /\ (truthy (s3Key recording) = false ->
                        put_confirmed (blob recording) pre)
                    /\ commit_confirmed recording pre)
         /\ (res_status res = synced ->
               EvDeleteRecording rid ∈ tr /\ recordings (db s) !! rid = None))).
  { intros res Hres. split; [done|]. apply extends_refl.
    split; [done|]. split; [by intros [|? ?] ? ? ?|done]. }
  apply uploadRecording_rule.
  - intros _. by apply Hnil.
  - intros recording Hget Hs. exfalso.
    unfold AudioStore.getRecordingById in Hget.
    destruct (recordings (db s) !! rid) as [raw|] eqn:Hraw; [|done].
    injection Hget as <-.
    apply (proj1 Hcons rid raw Hraw). revert Hs.
    unfold hydrateRecording. by destruct (blob raw).
  - intros recording Hget Hs Hge. by apply Hnil.
  - intros recording Hget Hs Hlt.
    pose proof Hget as Hget'. unfold AudioStore.getRecordingById in Hget'.
    destruct (recordings (db s) !! rid) as [raw|] eqn:Hraw; [|done].
    injection Hget' as Hrec.
    assert (Hblob : blob recording = payload_blob (blob raw))
      by (rewrite <- Hrec; apply hydrate_blob).
    eapply returns_mono.
    + apply (pipeline_rule (fun _ => uploading_inv rid recording (blob raw) s)
               (uploading_inv rid recording (blob raw) s)
               (upload_outcome rid recording s)); try done.
      * split; [exact Hcons|]. split; [intros raw'; simpl; congruence|].
        split; [|apply extends_entered; split; [done|by left]].
        simpl. intros Hkey. apply (proj2 Hcons rid raw Hraw).
        rewrite <- Hrec in Hkey. revert Hkey.
        unfold hydrateRecording. by destruct (blob raw).
      * intros a s' Ha HI. by apply (attempt_body_synced _ _ (blob raw)).
      * intros s' HB. by apply (terminal_failure_synced _ _ (blob raw)).
    + intros res s' [Hcons' (tr & Htr & Hout)]. split; [exact Hcons'|].
      exists tr. split; [exact Htr|].
      destruct (decide (res_status res = synced)) as [Hres|Hres].
      * destruct Hout as (pre & -> & Hq & Hput & Hnew & Hcommit & Hgone).
        split; [|split].
        -- apply Forall_app. split; [|by repeat constructor].
           eapply Forall_impl; [exact Hq|]. apply quiet_not_synced_write.
        -- intros pre' i post' Heq.
           destruct (last_delete_unique _ _ _ _ _ Hq Heq) as (-> & -> & ->).
           split; [done|]. split; [done|]. exists recording.
           split; [done|]. split; [done|]. split; [|done].
           intros Hfalsy. destruct Hnew as [Hk|Hn]; [congruence|done].
        -- intros _. split; [|done]. apply elem_of_app. right. apply list_elem_of_here.
      * split; [|split].
        -- eapply Forall_impl; [exact Hout|]. apply quiet_not_synced_write.
        -- intros pre i post ->. exfalso.
           apply (quiet_not_delete _ i Hout). apply elem_of_app. right.
           apply list_elem_of_here.
        -- done.
Qed.

(** The other writers of the store keep it consistent: the empty database,
    saving a fresh recording, the reset of a manual retry, a removal by the
    page, and any further events in the trace. *)
Lemma consistent_empty (s : St) : recordings (db s) = ∅ -> consistent s.
Proof.
  intros He. split; intros i raw; rewrite He; by rewrite lookup_empty.
Qed.

Lemma consistent_save (recording : Recording) (s : St) :
  status recording <> synced -> s3Key recording = None ->
  consistent s -> consistent (set_db (saveRecording recording (db s)) s).
Proof.
  intros Hst Hkey [Hns Hkeys]. split; intros i raw; simpl; rewrite lookup_insert.
  - destruct (decide (id recording = i)); [|by apply Hns]. by intros [= <-].
  - destruct (decide (id recording = i)); [|by apply Hkeys].
    intros [= <-]. simpl. rewrite Hkey. by intros [? ?].
Qed.

Lemma consistent_retry (rid : string) (s : St) :
  consistent s ->
  consistent
    (set_db (AudioStore.updateRecordingStatus rid local
               {| x_uploadAttempts := Some 0%Z; x_lastError := None;
                  x_s3Key := None |} (db s)).2 s).
Proof.
  intros [Hns Hkeys]. split; simpl.
  - by apply no_synced_update.
  - by apply keys_confirmed_update.
Qed.

Lemma consistent_delete (rid : string) (s : St) :
  consistent s -> consistent (set_db (AudioStore.deleteRecording rid (db s)) s).
Proof.
  intros [Hns Hkeys]. split; simpl.
  - by apply no_synced_delete.
  - by apply keys_confirmed_delete.
Qed.

Lemma consistent_later (s s' : St) (tr : list Event) :
  recordings (db s') = recordings (db s) -> trace s' = trace s ++ tr ->
  consistent s -> consistent s'.
Proof.
  intros Hdb Htr [Hns Hkeys]. split; intros i raw; rewrite Hdb.
  - apply Hns.
  - rewrite Htr. intros Hraw Hkey. apply put_confirmed_mono. eauto.
Qed.

Lemma synced_only_after_confirmation_witness :
  let s := state_of (saveRecording (fresh "r1" webm) emptyDB) in
  let w := world_of [respond 503] 0 in
  consistent s
  /\ returns (uploadRecording "r1") w s (fun res s' =>
       consistent s'
       /\ extends s s' (fun tr =>
            Forall (fun ev => forall i x, ev <> EvUpdateRecordingStatus i synced x) tr
            /\ (forall pre i post, tr = pre ++ EvDeleteRecording i :: post ->
                  i = "r1" /\ post = []
                  /\ exists recording,
                       AudioStore.getRecordingById "r1" (db s) = Some recording
                       /\ put_confirmed (blob recording) (trace s ++ pre)
                       /\ (truthy (s3Key recording) = false ->
                           put_confirmed (blob recording) pre)
                       /\ commit_confirmed recording pre)
            /\ (res_status res = synced ->
                  EvDeleteRecording "r1" ∈ tr /\ recordings (db s') !! "r1" = None))).
Proof.
  intros s w.
  assert (Hs : consistent s).
  { apply (consistent_save (fresh "r1" webm) (state_of emptyDB)); [done..|].
    by apply consistent_empty. }
  split; [exact Hs|]. exact (synced_only_after_confirmation "r1" w s Hs).
Defined.

End Synced.

(* ===================================================================== *)
(** * The delete reconciler *)
(* ===================================================================== *)

Section Reconcile.
Import Js AudioStore Effects Upload UploadSpec ServiceWorker ReconcileSpec Examples.

Lemma deleteRecordingFromServer_run (key i : string) (w : World) (s : St) :
  deleteRecordingFromServer key i w s
  = (match net w (fetches s) with
     | Resolved r => Ok (ok r)
     | Rejected e => Throw e
     end,
     log (EvFetch (DeleteRecording key i) (net w (fetches s))) (next_fetch s)).
Proof.
  unfold deleteRecordingFromServer, bind, fetchWithTimeout, fetch, ret.
  by destruct (net w (fetches s)).
Qed.

Lemma swept_nil (s : St) : swept [] s s.
Proof.
  exists []. rewrite app_nil_r. split; [done|]. split; [|split; [done|split]].
  - intros i. split; [by left|]. intros [H|(? & ? & H & _)]; [done|].
    by apply elem_of_nil in H.
  - intros ? ? ? H. by apply elem_of_nil in H.
  - intros ? H. by apply elem_of_nil in H.
Qed.

Lemma delete_confirmed_app (tr1 tr2 : list Event) (i : string) :
  delete_confirmed (tr1 ++ tr2) i <-> delete_confirmed tr1 i \/ delete_confirmed tr2 i.
Proof.
  unfold delete_confirmed. split.
  - intros (key & r & [H|H]%elem_of_app & Hok); [left|right]; eauto.
  - intros [(key & r & H & Hok)|(key & r & H & Hok)]; exists key, r;
      (split; [apply elem_of_app; eauto|done]).
Qed.

Lemma swept_app (l1 l2 : list PendingDelete) (s s1 s2 : St) :
  swept l1 s s1 -> swept l2 s1 s2 -> swept (l1 ++ l2) s s2.
Proof.
  intros (tr1 & Ht1 & A1 & B1 & C1 & D1) (tr2 & Ht2 & A2 & B2 & C2 & D2).
  exists (tr1 ++ tr2). split; [by rewrite Ht2, Ht1, app_assoc|].
  split; [|split; [|split]].
  - intros i. rewrite A2, A1, delete_confirmed_app. tauto.
  - eauto.
  - intros key i out [H|H]%elem_of_app; apply elem_of_app; eauto.
  - intros e [H|H]%elem_of_app.
    + destruct (D1 e H) as [out Ho]. exists out. apply elem_of_app. eauto.
    + destruct (D2 e H) as [out Ho]. exists out. apply elem_of_app. eauto.
Qed.

Lemma retryDelete_swept (e : PendingDelete) (w : World) (s : St) :
  returns (retryDelete e) w s (fun _ s' => swept [e] s s').
Proof.
  unfold returns, retryDelete, catch, bind. rewrite deleteRecordingFromServer_run.
  destruct e as [i key]. unfold swept. simpl.
  destruct (net w (fetches s)) as [r|err] eqn:Hout; simpl.
  - destruct (ok r) eqn:Hok; simpl.
    + eexists. split; [by rewrite <- app_assoc|]. split; [|split; [|split]].
      * intros j. rewrite lookup_delete. destruct (decide (i = j)) as [->|Hne].
        -- split; [|done]. intros _. right. exists key, r.
           split; [apply list_elem_of_here|done].
        -- split; [by left|]. intros [H|(k & r' & H & _)]; [done|].
           apply elem_of_cons in H as [[= _ ->]|H]; [done|].
           apply elem_of_cons in H as [[=]|H]. by apply elem_of_nil in H.
      * intros j k. rewrite lookup_delete. by destruct (decide (i = j)).
      * intros k j out H.
        apply elem_of_cons in H as [[= -> -> _]|H]; [apply list_elem_of_here|].
        apply elem_of_cons in H as [[=]|H]. by apply elem_of_nil in H.
      * intros e [->|H]%elem_of_cons; [|by apply elem_of_nil in H].
        eexists. apply list_elem_of_here.
    + eexists. split; [done|]. split; [|split; [done|split]].
      * intros j. split; [by left|]. intros [H|(k & r' & H & Hok')]; [done|].
        apply elem_of_cons in H as [[= _ _ ->]|H]; [congruence|].
        by apply elem_of_nil in H.
      * intros k j out H.
        apply elem_of_cons in H as [[= -> -> _]|H]; [apply list_elem_of_here|].
        by apply elem_of_nil in H.
      * intros e [->|H]%elem_of_cons; [|by apply elem_of_nil in H].
        eexists. apply list_elem_of_here.
  - eexists. split; [done|]. split; [|split; [done|split]].
    + intros j. split; [by left|]. intros [H|(k & r' & H & Hok')]; [done|].
      apply elem_of_cons in H as [[=]|H]. by apply elem_of_nil in H.
    + intros k j out H.
      apply elem_of_cons in H as [[= -> -> _]|H]; [apply list_elem_of_here|].
      by apply elem_of_nil in H.
    + intros e [->|H]%elem_of_cons; [|by apply elem_of_nil in H].
      eexists. apply list_elem_of_here.
Qed.

Lemma retryDeletes_swept (l : list PendingDelete) (w : World) (s : St) :
  returns (retryDeletes l) w s (fun _ s' => swept l s s').
Proof.
  revert s. induction l as [|e l IH]; intros s; simpl.
  - apply swept_nil.
  - apply returns_bind. eapply returns_mono; [apply retryDelete_swept|].
    intros [] s1 H1. eapply returns_mono; [apply IH|].
    intros [] s2 H2. by apply (swept_app [e] l s s1 s2).
Qed.

Lemma elem_of_getAllPendingDeletes (d : DB) (i key : string) :
  mkPendingDelete i key ∈ AudioStore.getAllPendingDeletes d
  <-> pendingDeletes d !! i = Some key.
Proof.
  unfold AudioStore.getAllPendingDeletes. rewrite list_elem_of_fmap. split.
  - intros ([j k] & [= -> ->] & H). by apply elem_of_map_to_list in H.
  - intros H. exists (i, key). split; [done|]. by apply elem_of_map_to_list.
Qed.

(** C8: a sweep attempts the remote deletion of every pending entry, and an
    entry is gone from the store afterwards if and only if the server answered
    OK to the request for its key and id; an entry whose request was rejected
    (network error, timeout) or answered with a non-OK status is still there,
    unchanged. *)
Theorem pending_delete_removed_iff_confirmed (w : World) (s : St) :
  returns handleRetryDeletes w s (fun _ s' =>
    extends s s' (fun tr =>
      forall i key, pendingDeletes (db s) !! i = Some key ->
        (exists out, EvFetch (DeleteRecording key i) out ∈ tr)
        /\ (pendingDeletes (db s') !! i = None
            <-> exists r, EvFetch (DeleteRecording key i) (Resolved r) ∈ tr
                          /\ ok r = true)
        /\ (pendingDeletes (db s') !! i = None
            \/ pendingDeletes (db s') !! i = Some key))).
Proof.
  unfold handleRetryDeletes. apply returns_bind.
  unfold returns at 1, getAllPendingDeletes.
  eapply returns_mono; [apply retryDeletes_swept|].
  intros [] s' (tr & Htr & A & B & C & D). exists tr. split; [done|].
  intros i key Hi. split; [|split].
  - apply (D (mkPendingDelete i key)). by apply elem_of_getAllPendingDeletes.
  - rewrite A. split.
    + intros [H|(key' & r & H & Hok)]; [congruence|].
      exists r. split; [|done].
      pose proof (C _ _ _ H) as H'. apply elem_of_getAllPendingDeletes in H'.
      assert (key' = key) as -> by congruence. exact H.
    + intros (r & H & Hok). right. by exists key, r.
  - destruct (pendingDeletes (db s') !! i) as [key'|] eqn:E; [|by left].
    right. apply B in E. congruence.
Qed.


Lemma pending_delete_removed_iff_confirmed_witness :
  let s := state_of (AudioStore.addPendingDelete
                       (mkPendingDelete "r3" "recordings/recording-r3.webm")
                       (AudioStore.addPendingDelete
                          (mkPendingDelete "r4" "recordings/recording-r4.webm")
                          emptyDB)) in
  let w := world_of [respond 200; respond 500] 0 in
  returns handleRetryDeletes w s (fun _ s' =>
    extends s s' (fun tr =>
      forall i key, pendingDeletes (db s) !! i = Some key ->
        (exists out, EvFetch (DeleteRecording key i) out ∈ tr)
        /\ (pendingDeletes (db s') !! i = None
            <-> exists r, EvFetch (DeleteRecording key i) (Resolved r) ∈ tr
                          /\ ok r = true)
        /\ (pendingDeletes (db s') !! i = None
            \/ pendingDeletes (db s') !! i = Some key))).
Proof. intros s w. exact (pending_delete_removed_iff_confirmed w s). Defined.

(** C10: when the browser reports online and the server answers the delete
    request with a non-OK status, [deleteRecordingFromServer] resolves to
    [false] and [handleDelete] does nothing else: the request is the only
    event, no pending delete is recorded, and neither the probe timer nor a
    background sync is armed. *)
Theorem refused_delete_is_dropped (rid key : string) (w : World) (s : St)
    (r : Response) :
  onLine w (fetches s) = true ->
  net w (fetches s) = Resolved r ->
  ok r = false ->
  (deleteRecordingFromServer key rid w s).1 = Ok false
  /\ handleDelete rid key w s
     = (Ok tt, log (EvFetch (DeleteRecording key rid) (Resolved r)) (next_fetch s))
  /\ let s' := (handleDelete rid key w s).2 in
     trace s' = trace s ++ [EvFetch (DeleteRecording key rid) (Resolved r)]
     /\ db s' = db s
     /\ retryTimer s' = retryTimer s.
Proof.
  intros Hon Hnet Hok.
  assert (Hrun : handleDelete rid key w s
    = (Ok tt, log (EvFetch (DeleteRecording key rid) (Resolved r)) (next_fetch s))).
  { unfold handleDelete, bind at 1, navigator_onLine. rewrite Hon. simpl.
    unfold catch, bind. rewrite deleteRecordingFromServer_run, Hnet. done. }
  split; [|split; [exact Hrun|]].
  - rewrite deleteRecordingFromServer_run, Hnet. simpl. by rewrite Hok.
  - by rewrite Hrun.
Qed.

Lemma refused_delete_is_dropped_witness :
  let s := state_of emptyDB in
  let w := world_of [respond 500] 0 in
  handleDelete "r3" "recordings/recording-r3.webm" w s
  = (Ok tt,
     log (EvFetch (DeleteRecording "recordings/recording-r3.webm" "r3") (respond 500))
       (next_fetch s)).
Proof.
  intros s w.
  refine (proj1 (proj2 (refused_delete_is_dropped "r3" _ w s _ _ _ _)));
    reflexivity.
Defined.

End Reconcile.

(* ===================================================================== *)
(** * The serial lane *)
(* ===================================================================== *)

Section Lane.
Import TaskQueue LaneSpec Examples.

Lemma chain_present h p ts q : chain h p ts q -> is_Some (h !! p) /\ is_Some (h !! q).
Proof.
  revert p. induction ts as [|t ts IH]; intros p; simpl.
  - intros [-> H]. split; by eexists.
  - intros (p' & H & _ & Hc). split; [by eexists|]. by apply (IH p').
Qed.

Lemma chain_last h p ts q : chain h p ts q -> h !! q = Some (Pending []).
Proof.
  revert p. induction ts as [|t ts IH]; intros p; simpl.
  - by intros [-> H].
  - intros (p' & _ & _ & Hc). by apply (IH p').
Qed.

Lemma chain_settle h p ts q p0 o :
  (p0 < p)%nat -> chain h p ts q -> chain (<[p0 := Settled o]> h) p ts q.
Proof.
  revert p. induction ts as [|t ts IH]; intros p Hlt; simpl.
  - intros [-> H]. split; [done|]. rewrite lookup_insert_ne; [done|lia].
  - intros (p' & H & Hlt' & Hc). exists p'.
    split; [rewrite lookup_insert_ne; [done|lia]|]. split; [done|].
    apply IH; [lia|done].
Qed.

Lemma chain_snoc h p ts q n t :
  (forall p', (n <= p')%nat -> h !! p' = None) ->
  chain h p ts q ->
  chain (<[q := Pending [mkReaction t t n]]> (<[n := Pending []]> h)) p (ts ++ [t]) n.
Proof.
  intros Hfresh. revert p. induction ts as [|t' ts IH]; intros p; simpl.
  - intros [-> H].
    assert (q < n)%nat.
    { destruct (decide (q < n)%nat); [done|]. rewrite Hfresh in H; [done|lia]. }
    exists n. rewrite lookup_insert_eq. split; [done|]. split; [done|].
    split; [done|]. rewrite lookup_insert_ne by lia. apply lookup_insert_eq.
  - intros (p' & H & Hlt & Hc). exists p'.
    assert (Hq : is_Some (h !! q)) by (by apply chain_present in Hc as [_ ?]).
    assert (p < n)%nat.
    { destruct (decide (p < n)%nat); [done|]. rewrite Hfresh in H; [done|lia]. }
    assert (p <> q).
    { intros ->. apply chain_last in Hc. rewrite Hc in H.
      discriminate. }
    split; [|split; [done|by apply IH]].
    rewrite lookup_insert_ne by done. rewrite lookup_insert_ne by lia. done.
Qed.

Lemma serial_snoc done os t o :
  length os = length done ->
  serial (done ++ [t]) (os ++ [o]) = serial done os ++ [Start t; Finish t o].
Proof.
  revert os. induction done as [|t' done IH]; intros [|o' os] Hlen; simpl in *;
    try discriminate; [done|].
  rewrite IH by lia. done.
Qed.

Lemma submitted_snoc tr l :
  submitted (tr ++ [l])
  = submitted tr ++ match l with Enq t => [t] | _ => [] end.
Proof. unfold submitted. rewrite omap_app. by destruct l. Qed.

Lemma activity_snoc tr l :
  activity (tr ++ [l])
  = activity tr ++ match l with Enq _ => [] | _ => [l] end.
Proof. unfold activity. rewrite List.filter_app. by destruct l. Qed.


Lemma lane_init : lane [] init [] [] None [].
Proof.
  split; [done|]. split; [done|]. split; [done|]. split.
  - intros p Hp. simpl in *. apply lookup_singleton_ne. lia.
  - split; [done|]. split; [done|]. exists fulfilled. apply lookup_singleton_eq.
Qed.

Lemma fresh_insert (h : gmap nat PromiseState) (n q : nat) (x y : PromiseState) :
  (forall p, (n <= p)%nat -> h !! p = None) -> (q < n)%nat ->
  forall p, (S n <= p)%nat -> <[q := x]> (<[n := y]> h) !! p = None.
Proof.
  intros Hfresh Hq p Hp. rewrite !lookup_insert_ne by lia. apply Hfresh. lia.
Qed.

Lemma present_below (h : gmap nat PromiseState) (n q : nat) :
  (forall p, (n <= p)%nat -> h !! p = None) -> is_Some (h !! q) -> (q < n)%nat.
Proof.
  intros Hfresh [x Hx]. destruct (decide (q < n)%nat); [done|].
  rewrite Hfresh in Hx; [done|lia].
Qed.

(** Enqueueing behind a pending tail. *)
Lemma enqueue_pending (w : Worker) (t : Task) (p : nat) (ts : list Task) :
  (forall p', (next w <= p')%nat -> heap w !! p' = None) ->
  chain (heap w) p ts (uploadQueue w) ->
  let w' := enqueue t w in
  (forall p', (next w' <= p')%nat -> heap w' !! p' = None)
  /\ running w' = running w /\ jobs w' = jobs w
  /\ chain (heap w') p (ts ++ [t]) (uploadQueue w').
Proof.
  intros Hfresh Hc. pose proof (chain_last _ _ _ _ Hc) as Hq.
  assert (uploadQueue w < next w)%nat by (apply (present_below (heap w)); by eauto).
  unfold enqueue, then_. rewrite Hq. simpl.
  split; [by apply fresh_insert|]. split; [done|]. split; [done|].
  by apply chain_snoc.
Qed.

Lemma lane_step tr w l w' done os cur rest :
  lane tr w done os cur rest -> step w l w' ->
  exists done' os' cur' rest', lane (tr ++ [l]) w' done' os' cur' rest'.
Proof.
  intros (Hsub & Hlen & Hact & Hfresh & Hshape) Hstep.
  destruct Hstep as [w t|w t w' Hstart|w i o t w' Hsettle].
  - (* a task is submitted *)
    exists done, os, cur.
    destruct cur as [tc|].
    + destruct Hshape as (p & Hrun & Hjobs & Hc).
      destruct (enqueue_pending w t p rest Hfresh Hc) as (F & R & J & C).
      exists (rest ++ [t]). split; [|split; [done|split]].
      * rewrite submitted_snoc, Hsub. by rewrite <- !app_assoc.
      * rewrite activity_snoc, app_nil_r. done.
      * split; [exact F|]. exists p. rewrite R, J. by repeat split.
    + destruct Hshape as [Hrun Hshape]. destruct rest as [|t0 rest'].
      * destruct Hshape as (Hjobs & o & Hq).
        exists [t]. split; [|split; [done|split]].
        -- rewrite submitted_snoc, Hsub. simpl. by rewrite app_nil_r.
        -- rewrite activity_snoc, app_nil_r. done.
        -- assert (uploadQueue w < next w)%nat
             by (apply (present_below (heap w)); by eauto).
           unfold shape, enqueue, then_. rewrite Hq. simpl. split.
           ++ intros p' Hp'. rewrite lookup_insert_ne by lia. apply Hfresh. lia.
           ++ split; [done|]. exists (next w). rewrite Hjobs. simpl.
              split; [by destruct o|]. split; [done|]. apply lookup_insert_eq.
      * destruct Hshape as (p & Hjobs & Hc).
        destruct (enqueue_pending w t p rest' Hfresh Hc) as (F & R & J & C).
        exists (t0 :: rest' ++ [t]). split; [|split; [done|split]].
        -- rewrite submitted_snoc, Hsub. simpl. by rewrite <- !app_assoc.
        -- rewrite activity_snoc, app_nil_r. done.
        -- split; [exact F|]. split; [by rewrite R|]. exists p. rewrite J.
           by split.
  - (* the next task starts *)
    unfold start_job in Hstart.
    destruct (jobs w) as [|j js] eqn:Hj; [done|]. injection Hstart as <- <-.
    destruct cur as [tc|].
    { destruct Hshape as (p & _ & Hjobs & _). congruence. }
    destruct Hshape as [Hrun Hshape]. destruct rest as [|t0 rest'].
    { destruct Hshape as [Hjobs _]. congruence. }
    destruct Hshape as (p & Hjobs & Hc).
    injection Hjobs as -> ->.
    exists done, os, (Some t0), rest'. split; [|split; [done|split]].
    + rewrite submitted_snoc, app_nil_r. done.
    + rewrite activity_snoc, Hact. simpl. by rewrite app_nil_r.
    + split; [exact Hfresh|]. exists p. simpl. rewrite Hrun. by repeat split.
  - (* the task in flight completes *)
    unfold settle in Hsettle.
    destruct (running w !! i) as [j|] eqn:Hi; [|done].
    destruct cur as [tc|]; [|by destruct Hshape as [Hrun _]; rewrite Hrun in Hi].
    destruct Hshape as (p & Hrun & Hjobs & Hc).
    rewrite Hrun in Hi. destruct i as [|i]; [|done]. injection Hi as <-.
    simpl in Hsettle.
    exists (done ++ [tc]), (os ++ [o]), None, rest.
    destruct rest as [|t' rest']; simpl in Hc.
    + destruct Hc as [-> Hq]. rewrite Hq in Hsettle. injection Hsettle as <- <-.
      split; [|split; [|split]].
      * rewrite submitted_snoc, app_nil_r, Hsub. simpl. by rewrite <- app_assoc.
      * rewrite !length_app. simpl. lia.
      * rewrite activity_snoc, Hact, serial_snoc by done. simpl.
        by rewrite <- app_assoc, app_nil_r.
      * split.
        -- intros p' Hp'. simpl in *.
           assert (uploadQueue w < next w)%nat
             by (apply (present_below (heap w)); [done|by eexists]).
           rewrite lookup_insert_ne by lia. by apply Hfresh.
        -- simpl. rewrite Hrun, Hjobs. split; [done|]. split; [done|].
           exists o. apply lookup_insert_eq.
    + destruct Hc as (p' & Hp & Hlt & Hc). rewrite Hp in Hsettle.
      injection Hsettle as <- <-.
      split; [|split; [|split]].
      * rewrite submitted_snoc, app_nil_r, Hsub. simpl. by rewrite <- app_assoc.
      * rewrite !length_app. simpl. lia.
      * rewrite activity_snoc, Hact, serial_snoc by done. simpl.
        by rewrite <- app_assoc, app_nil_r.
      * split.
        -- intros q Hq. simpl in *.
           assert (p < next w)%nat
             by (apply (present_below (heap w)); [done|by eexists]).
           rewrite lookup_insert_ne by lia. by apply Hfresh.
        -- simpl. rewrite Hrun, Hjobs. split; [done|]. exists p'.
           split; [by destruct o|]. by apply chain_settle.
Qed.

Lemma exec_lane tr w :
  exec tr w -> exists done os cur rest, lane tr w done os cur rest.
Proof.
  induction 1 as [|tr w l w' _ (done & os & cur & rest & IH) Hstep].
  - exists [], [], None, []. apply lane_init.
  - by apply (lane_step tr w l w' done os cur rest).
Qed.


Lemma serial_next done os cur A t x B :
  serial done os ++ started_of cur = A ++ Start t :: x :: B ->
  exists o, x = Finish t o.
Proof.
  revert os A. induction done as [|t0 done IH]; intros os A.
  - simpl. destruct cur, A as [|? [|? ?]]; simpl; discriminate.
  - destruct os as [|o0 os].
    + simpl. destruct cur, A as [|? [|? ?]]; simpl; discriminate.
    + simpl. destruct A as [|a [|b A]]; simpl.
      * intros [= <- <- _]. by exists o0.
      * intros H. injection H as _ H _. discriminate H.
      * intros [= _ _ H]. by apply (IH os A).
Qed.

Lemma elem_of_activity tr l : l ∈ activity tr -> l ∈ tr.
Proof.
  unfold activity. rewrite !list_elem_of_In. intros H.
  by apply List.filter_In in H as [? _].
Qed.

(** C7: in every execution of the worker, the tasks that have started are
    the first of the submitted tasks, in submission order, and they ran
    strictly one after the other: each started only after the one before it
    had completed.  Whatever the outcomes were, rejections included, the task
    in flight can complete either way and, once the lane is free, the next
    waiting task can start.  In particular a task that starts after an upload
    has started (such as a delete submitted while that upload is in flight)
    starts only after the completion of the upload. *)
Theorem queue_runs_one_at_a_time (tr : list Label) (w : Worker) :
  exec tr w ->
  (exists done os cur rest,
     submitted tr = done ++ option_list cur ++ rest
     /\ length os = length done
     /\ activity tr = serial done os ++ started_of cur
     /\ (forall t, cur = Some t -> forall o, exists w', step w (Finish t o) w')
     /\ (cur = None ->
         forall t rest', rest = t :: rest' -> exists w', step w (Start t) w'))
  /\ (forall tr1 t tr2 t' tr3,
        tr = tr1 ++ Start t :: tr2 ++ Start t' :: tr3 ->
        exists o, Finish t o ∈ tr2).
Proof.
  intros Hexec.
  destruct (exec_lane tr w Hexec) as (done & os & cur & rest & Hlane).
  destruct Hlane as (Hsub & Hlen & Hact & Hfresh & Hshape).
  split.
  - exists done, os, cur, rest. split; [done|]. split; [done|]. split; [done|].
    split.
    + intros t -> o. destruct Hshape as (p & Hrun & Hjobs & Hc).
      assert (exists rs, heap w !! p = Some (Pending rs)) as [rs Hp].
      { destruct rest; simpl in Hc.
        - destruct Hc as [_ Hc]. by eexists.
        - destruct Hc as (? & Hc & _). by eexists. }
      eexists. apply (step_finish w 0 o t). unfold settle.
      rewrite Hrun. simpl. rewrite Hp. reflexivity.
    + intros -> t rest' ->. destruct Hshape as (Hrun & p & Hjobs & Hc).
      eexists. apply step_start. unfold start_job. rewrite Hjobs. reflexivity.
  - intros tr1 t tr2 t' tr3 ->.
    unfold activity in Hact. rewrite List.filter_app in Hact. simpl in Hact.
    rewrite List.filter_app in Hact. simpl in Hact.
    fold (activity tr1) in Hact. fold (activity tr2) in Hact.
    fold (activity tr3) in Hact.
    destruct (activity tr2) as [|x B] eqn:E; simpl in Hact.
    + symmetry in Hact. apply serial_next in Hact as [o Ho]. discriminate.
    + symmetry in Hact. apply serial_next in Hact as [o ->]. exists o.
      apply elem_of_activity. rewrite E. apply list_elem_of_here.
Qed.

Lemma do_label_step (l : Label) (w w' : Worker) :
  do_label l w = Some w' -> step w l w'.
Proof.
  destruct l as [t|t|t o]; simpl.
  - intros [= <-]. apply step_enq.
  - destruct (start_job w) as [[t' w'']|] eqn:E; [|done].
    destruct (decide (t = t')) as [<-|]; [|done]. intros [= <-].
    by apply step_start.
  - destruct (settle 0 o w) as [[t' w'']|] eqn:E; [|done].
    destruct (decide (t = t')) as [<-|]; [|done]. intros [= <-].
    by apply (step_finish w 0).
Qed.

Lemma do_labels_exec (tr0 tr : list Label) (w0 w : Worker) :
  exec tr0 w0 -> do_labels tr w0 = Some w -> exec (tr0 ++ tr) w.
Proof.
  revert tr0 w0. induction tr as [|l tr IH]; intros tr0 w0 H0; simpl.
  - intros [= <-]. by rewrite app_nil_r.
  - destruct (do_label l w0) as [w1|] eqn:E; [|done]. intros Hrest.
    replace (tr0 ++ l :: tr) with ((tr0 ++ [l]) ++ tr) by (by rewrite <- app_assoc).
    apply (IH _ w1); [|done]. apply (exec_step tr0 w0); [done|].
    by apply do_label_step.
Qed.

Lemma sample_exec : exec sample_trace sample_worker.
Proof.
  apply (do_labels_exec [] sample_trace init sample_worker exec_init).
  vm_compute. reflexivity.
Qed.

Lemma queue_runs_one_at_a_time_witness :
  exec sample_trace sample_worker
  /\ (forall tr1 t tr2 t' tr3,
        sample_trace = tr1 ++ Start t :: tr2 ++ Start t' :: tr3 ->
        exists o, Finish t o ∈ tr2).
Proof.
  split; [exact sample_exec|].
  exact (proj2 (queue_runs_one_at_a_time sample_trace sample_worker sample_exec)).
Defined.

End Lane.
(* ===================================================================== *)
(** * Laws of the local store *)
(* ===================================================================== *)

Section StoreLaws.
Import Js AudioStore Effects Upload UploadSpec Examples StoreSpec Page.
Local Open Scope list_scope.

Lemma hydrate_fields (raw : Raw) :
  let r := hydrateRecording raw in
  id r = id raw /\ filename r = filename raw /\ fileSize r = fileSize raw
  /\ duration r = duration raw /\ recordedAt r = recordedAt raw
  /\ status r = status raw /\ s3Key r = s3Key raw
  /\ uploadAttempts r = uploadAttempts raw /\ lastError r = lastError raw.
Proof. unfold hydrateRecording. by destruct (blob raw). Qed.

(** X1: updating a stored record returns exactly what a later read by the
    same id returns; the new record has the requested status, takes each of
    the three optional fields from the extras when given and from the old
    record otherwise (except that a move to [synced] clears the last error),
    and keeps every other field, the payload included; the other records
    and the pending deletes are untouched. *)
Theorem update_then_read (i : string) (st : Status) (x : Extras) (d : DB)
    (old : Recording) :
  AudioStore.getRecordingById i d = Some old ->
  let d' := (AudioStore.updateRecordingStatus i st x d).2 in
  exists new,
    (AudioStore.updateRecordingStatus i st x d).1 = Some new
    /\ AudioStore.getRecordingById i d' = Some new
    /\ id new = id old /\ filename new = filename old /\ blob new = blob old
    /\ fileSize new = fileSize old /\ duration new = duration old
    /\ recordedAt new = recordedAt old
    /\ status new = st
    /\ s3Key new = match x_s3Key x with Some k => Some k | None => s3Key old end
    /\ uploadAttempts new
       = match x_uploadAttempts x with Some n => n | None => uploadAttempts old end
    /\ lastError new
       = match x_lastError x with
         | Some e => Some e
         | None => if decide (st = synced) then None else lastError old
         end
    /\ (forall j, j <> i ->
          AudioStore.getRecordingById j d' = AudioStore.getRecordingById j d)
    /\ pendingDeletes d' = pendingDeletes d.
Proof.
  intros Hold d'. unfold AudioStore.getRecordingById in *.
  destruct (recordings d !! i) as [raw|] eqn:Hraw; [|done].
  injection Hold as <-.
  exists (hydrateRecording (updated raw st x)). subst d'.
  unfold AudioStore.updateRecordingStatus. rewrite Hraw. simpl.
  rewrite lookup_insert_eq. simpl.
  split; [done|]. split; [done|].
  unfold hydrateRecording, updated. simpl.
  destruct (blob raw); simpl; repeat split; try done;
    intros j Hj; by rewrite lookup_insert_ne.
Qed.

Lemma update_then_read_witness :
  let d := AudioStore.saveRecording (fresh "r1" webm) emptyDB in
  let x := {| x_uploadAttempts := Some 3; x_lastError := Some "S3 upload failed: 403";
              x_s3Key := None |} in
  exists new,
    AudioStore.getRecordingById "r1" (AudioStore.updateRecordingStatus "r1" failed x d).2
    = Some new
    /\ status new = failed /\ uploadAttempts new = 3 /\ blob new = webm.
Proof.
  intros d x.
  destruct (update_then_read "r1" failed x d (fresh "r1" webm))
    as (new & _ & Hread & _ & _ & Hblob & _ & _ & _ & Hst & _ & Hatt & _).
  - vm_compute. reflexivity.
  - exists new. split; [exact Hread|]. split; [exact Hst|]. split; [exact Hatt|].
    exact Hblob.
Defined.

(** X2: after a delete, a read by that id finds nothing and every other
    record reads as before; deleting twice is the same as deleting once, and
    deleting an id that is not stored changes nothing; the pending deletes
    are untouched. *)
Theorem delete_then_read (i : string) (d : DB) :
  let d' := AudioStore.deleteRecording i d in
  AudioStore.getRecordingById i d' = None
  /\ (forall j, j <> i ->
        AudioStore.getRecordingById j d' = AudioStore.getRecordingById j d)
  /\ AudioStore.deleteRecording i d' = d'
  /\ (recordings d !! i = None -> d' = d)
  /\ pendingDeletes d' = pendingDeletes d.
Proof.
  intros d'. subst d'.
  unfold AudioStore.getRecordingById, AudioStore.deleteRecording, set_recordings.
  simpl. repeat split.
  - by rewrite lookup_delete_eq.
  - intros j Hj. by rewrite lookup_delete_ne.
  - f_equal. apply delete_id. apply lookup_delete_eq.
  - intros H. destruct d as [recs pend]. simpl in *. f_equal. by apply delete_id.
Qed.

Lemma elem_of_getAllRecordings (d : DB) (r : Recording) :
  r ∈ getAllRecordings d
  <-> exists k raw, recordings d !! k = Some raw /\ r = hydrateRecording raw.
Proof.
  unfold getAllRecordings. rewrite list_elem_of_fmap. split.
  - intros (raw & -> & Hraw). apply list_elem_of_fmap in Hraw as ([k raw'] & -> & H).
    apply elem_of_map_to_list in H. by exists k, raw'.
  - intros (k & raw & H & ->). exists raw. split; [done|].
    apply list_elem_of_fmap. exists (k, raw). split; [done|].
    by apply elem_of_map_to_list.
Qed.

(** X3: the listing by status holds exactly the stored records whose status
    is among those asked for, in the order of the full listing; asking for no
    status gives nothing, asking for all four gives the full listing. *)
Theorem getRecordingsByStatus_spec (statuses : list Status) (d : DB) (r : Recording) :
  (r ∈ AudioStore.getRecordingsByStatus statuses d
   <-> r ∈ getAllRecordings d /\ status r ∈ statuses)
  /\ AudioStore.getRecordingsByStatus statuses d `sublist_of` getAllRecordings d
  /\ AudioStore.getRecordingsByStatus [] d = []
  /\ AudioStore.getRecordingsByStatus [local; uploading; synced; failed] d
     = getAllRecordings d.
Proof.
  unfold AudioStore.getRecordingsByStatus. split; [|split; [|split]].
  - rewrite !list_elem_of_In, List.filter_In, bool_decide_eq_true.
    by rewrite <- !list_elem_of_In.
  - induction (getAllRecordings d) as [|a l IH]; [done|].
    cbn [List.filter]. case_bool_decide; by constructor.
  - induction (getAllRecordings d) as [|a l IH]; [done|].
    cbn [List.filter]. case_bool_decide as H; [|done]. by apply elem_of_nil in H.
  - induction (getAllRecordings d) as [|a l IH]; [done|].
    cbn [List.filter]. rewrite IH. case_bool_decide as H; [done|].
    destruct H. destruct (status a); set_solver.
Qed.


Lemma ids_of_listing (d : DB) :
  keyed_by_id d -> id <$> getAllRecordings d = (map_to_list (recordings d)).*1.
Proof.
  intros Hk. unfold getAllRecordings.
  assert (H : Forall (fun e => id e.2 = e.1) (map_to_list (recordings d))).
  { apply Forall_forall. intros [k raw] Hin. apply elem_of_map_to_list in Hin.
    by apply Hk. }
  induction H as [|[k raw] l Hx _ IH]; [done|]. simpl in *.
  f_equal; [|exact IH]. rewrite <- Hx. apply hydrate_fields.
Qed.

Lemma keyed_empty_store : keyed_by_id emptyDB.
Proof. intros k raw H. simpl in H. by rewrite lookup_empty in H. Qed.

Lemma keyed_save (r : Recording) (d : DB) :
  keyed_by_id d -> keyed_by_id (AudioStore.saveRecording r d).
Proof.
  intros Hk k raw. unfold AudioStore.saveRecording. simpl. rewrite lookup_insert.
  destruct (decide (id r = k)) as [<-|]; [|by apply Hk]. by intros [= <-].
Qed.

(** X4: if every record sits under its own id, it still does after a save,
    an update or a delete; and then the listing holds no two records with the
    same id, and each listed record is the one a read by its id returns. *)
Theorem store_stays_keyed_by_id (d : DB) (r : Recording) (i : string)
    (st : Status) (x : Extras) :
  keyed_by_id d ->
  keyed_by_id (AudioStore.saveRecording r d)
  /\ keyed_by_id (AudioStore.updateRecordingStatus i st x d).2
  /\ keyed_by_id (AudioStore.deleteRecording i d)
  /\ NoDup (id <$> getAllRecordings d)
  /\ (forall r', r' ∈ getAllRecordings d ->
        AudioStore.getRecordingById (id r') d = Some r').
Proof.
  intros Hk. split; [|split; [|split; [|split]]].
  - by apply keyed_save.
  - intros k raw. rewrite lookup_update. destruct (decide (k = i)) as [->|]; [|by apply Hk].
    destruct (recordings d !! i) as [raw0|] eqn:E; simpl; [|done].
    intros [= <-]. simpl. by apply Hk.
  - intros k raw. rewrite lookup_deleteRecording. destruct (decide (k = i)); [done|].
    by apply Hk.
  - rewrite ids_of_listing by done. apply NoDup_fst_map_to_list.
  - intros r' (k & raw & Hraw & ->)%elem_of_getAllRecordings.
    unfold AudioStore.getRecordingById.
    replace (id (hydrateRecording raw)) with k.
    + by rewrite Hraw.
    + rewrite <- (Hk k raw Hraw). symmetry. apply hydrate_fields.
Qed.

Lemma store_stays_keyed_by_id_witness :
  NoDup (id <$> getAllRecordings two_records)
  /\ AudioStore.getRecordingById "r9" two_records = Some stale.
Proof.
  pose proof (store_stays_keyed_by_id two_records stale "r1" local
                {| x_uploadAttempts := None; x_lastError := None; x_s3Key := None |}
                (keyed_save _ _ (keyed_save _ _ keyed_empty_store)))
    as (_ & _ & _ & Hnodup & Hread).
  split; [exact Hnodup|]. apply (Hread stale).
  apply elem_of_getAllRecordings. exists "r9", (storable stale).
  split; vm_compute; reflexivity.
Defined.

(** X5: a recorded pending delete is listed; recording one for an id that
    already has an entry replaces that entry; the list never holds two
    entries for one id; removing an id removes its entry; adding and removing
    leave the entries of other ids, and the recordings, as they were. *)
Theorem pending_delete_laws (i key : string) (d : DB) :
  let d' := AudioStore.addPendingDelete (mkPendingDelete i key) d in
  mkPendingDelete i key ∈ AudioStore.getAllPendingDeletes d'
  /\ (forall e, e ∈ AudioStore.getAllPendingDeletes d' -> pd_id e = i ->
        e = mkPendingDelete i key)
  /\ (forall e, pd_id e <> i ->
        e ∈ AudioStore.getAllPendingDeletes d'
        <-> e ∈ AudioStore.getAllPendingDeletes d)
  /\ NoDup (pd_id <$> AudioStore.getAllPendingDeletes d)
  /\ (forall e, e ∈ AudioStore.getAllPendingDeletes
                    (AudioStore.removePendingDelete i d') -> pd_id e <> i)
  /\ (forall e, pd_id e <> i ->
        e ∈ AudioStore.getAllPendingDeletes (AudioStore.removePendingDelete i d)
        <-> e ∈ AudioStore.getAllPendingDeletes d)
  /\ recordings d' = recordings d
  /\ recordings (AudioStore.removePendingDelete i d) = recordings d.
Proof.
  intros d'. subst d'. repeat split; try done.
  - apply elem_of_getAllPendingDeletes. simpl. apply lookup_insert_eq.
  - intros [j k] H Hj. simpl in Hj. subst j.
    apply elem_of_getAllPendingDeletes in H. simpl in H.
    rewrite lookup_insert_eq in H. by injection H as ->.
  - destruct e as [j k]. simpl in *. rewrite !elem_of_getAllPendingDeletes. simpl.
    by rewrite lookup_insert_ne.
  - destruct e as [j k]. simpl in *. rewrite !elem_of_getAllPendingDeletes. simpl.
    by rewrite lookup_insert_ne.
  - unfold AudioStore.getAllPendingDeletes. rewrite <- list_fmap_compose.
    apply (NoDup_fst_map_to_list (pendingDeletes d)).
  - intros [j k] H Hj. simpl in Hj. subst j.
    apply elem_of_getAllPendingDeletes in H. simpl in H.
    by rewrite lookup_delete_eq in H.
  - destruct e as [j k]. simpl in *. rewrite !elem_of_getAllPendingDeletes. simpl.
    by rewrite lookup_delete_ne.
  - destruct e as [j k]. simpl in *. rewrite !elem_of_getAllPendingDeletes. simpl.
    by rewrite lookup_delete_ne.
Qed.

Lemma lookup_delete_all (l : list Recording) (d : DB) (k : string) :
  recordings (foldl (fun d r => AudioStore.deleteRecording (id r) d) d l) !! k
  = if decide (k ∈ id <$> l) then None else recordings d !! k.
Proof.
  revert d. induction l as [|r l IH]; intros d.
  - destruct (decide (k ∈ id <$> [])) as [H|H]; [|done].
    by apply elem_of_nil in H.
  - cbn [foldl]. rewrite IH, lookup_deleteRecording, fmap_cons.
    destruct (decide (k ∈ id <$> l)) as [Hin|Hin].
    + case_decide as H; [done|]. destruct H. by right.
    + destruct (decide (k = id r)) as [->|Hne].
      * case_decide as H; [done|]. destruct H. by left.
      * case_decide as H; [|done]. by apply elem_of_cons in H as [?|?].
Qed.

(** X6: on a store where every record sits under its own id, the start-up
    sweep of the page leaves no record marked [synced], keeps every other
    record as it was, and keeps every stored key confirmed. *)
Theorem purgeStale_removes_synced (d : DB) (tr : list Event) :
  keyed_by_id d ->
  no_synced (purgeStale d)
  /\ (forall k raw, recordings (purgeStale d) !! k = Some raw
                    <-> recordings d !! k = Some raw /\ status raw <> synced)
  /\ (keys_confirmed d tr -> keys_confirmed (purgeStale d) tr).
Proof.
  intros Hk.
  assert (Hlook : forall k raw, recordings (purgeStale d) !! k = Some raw
                    <-> recordings d !! k = Some raw /\ status raw <> synced).
  { intros k raw. unfold purgeStale. rewrite lookup_delete_all.
    destruct (decide _) as [Hin|Hin].
    - split; [done|]. intros [Hraw Hst]. exfalso.
      apply list_elem_of_fmap in Hin as (r & -> & Hr).
      apply list_elem_of_In, List.filter_In in Hr as [Hr Hs].
      apply bool_decide_eq_true in Hs.
      apply list_elem_of_In, elem_of_getAllRecordings in Hr as (k' & raw' & Hraw' & ->).
      destruct (hydrate_fields raw') as (Hid & _ & _ & _ & _ & Hst' & _).
      rewrite Hid, (Hk k' raw' Hraw') in Hraw.
      assert (raw' = raw) as -> by congruence. congruence.
    - split.
      + intros Hraw. split; [done|]. intros Hs. apply Hin.
        apply list_elem_of_fmap. exists (hydrateRecording raw).
        destruct (hydrate_fields raw) as (Hid & _ & _ & _ & _ & Hst' & _).
        split; [by rewrite Hid, (Hk k raw Hraw)|].
        apply list_elem_of_In, List.filter_In. split.
        * apply list_elem_of_In, elem_of_getAllRecordings. by exists k, raw.
        * apply bool_decide_eq_true. congruence.
      + by intros [? _]. }
  split; [|split; [exact Hlook|]].
  - intros k raw Hraw. by apply Hlook in Hraw as [_ ?].
  - intros Hkeys k raw Hraw. apply Hlook in Hraw as [Hraw _]. by apply (Hkeys k).
Qed.

Lemma purgeStale_removes_synced_witness :
  no_synced (purgeStale two_records)
  /\ is_Some (recordings (purgeStale two_records) !! "r1").
Proof.
  pose proof (purgeStale_removes_synced two_records []
                (keyed_save _ _ (keyed_save _ _ keyed_empty_store)))
    as (Hnone & Hkeep & _).
  split; [exact Hnone|]. exists (storable (fresh "r1" webm)).
  apply Hkeep. split; [vm_compute; reflexivity|discriminate].
Defined.

End StoreLaws.

(* ===================================================================== *)
(** * Outcomes of the upload pipeline *)
(* ===================================================================== *)

Section Pipeline.
Import Js AudioStore Effects Upload UploadSpec Examples PipelineSpec.
Local Open Scope list_scope.

Lemma isRetryableStatus_spec (status : Z) :
  isRetryableStatus status = true <-> transient_status status.
Proof.
  unfold isRetryableStatus, transient_status.
  rewrite !orb_true_iff, Z.geb_leb, Z.leb_le, !Z.eqb_eq. tauto.
Qed.

Lemma classify_throw (what : string) (out : FetchOutcome) (e : JsError) :
  classify what out = Throw e ->
  (isNetworkError e = true /\ isRetryableError e = false /\ out = Rejected e)
  \/ (isNetworkError e = false
      /\ exists msg, e = UploadError msg (isRetryableError e)
         /\ (isRetryableError e = true
             <-> exists r, out = Resolved r /\ ok r = false
                           /\ transient_status (resp_status r))).
Proof.
  unfold classify. destruct out as [r|e0].
  - destruct (ok r) eqn:Hok; [done|]. intros [= <-]. right. split; [done|].
    eexists. split; [reflexivity|]. simpl. rewrite isRetryableStatus_spec. split.
    + intros H. by exists r.
    + by intros (r' & [= <-] & _ & H).
  - destruct (isNetworkError e0) eqn:Hn; intros [= <-].
    + left. split; [done|]. split; [|done]. by destruct e0.
    + right. split; [done|]. eexists. split; [reflexivity|]. simpl.
      split; [done|]. by intros (r & [=] & _).
Qed.

(** X7: an error thrown by the transfer to the object store, or by the
    commit request, is of one of two kinds.  Either the request itself was
    rejected with a network-class error, which is passed on unchanged and is
    never retryable; or it is an upload error, not network-class, which is
    retryable exactly when the server answered with a non-OK response whose
    status is 500 or above, 408 or 429. *)
Theorem remote_errors_classified (url ct : string) (b : Blob) (data : SaveData)
    (w : World) (s : St) (e : JsError) :
  (putToS3 url b ct w s).1 = Throw e \/ (saveRecordingToDb data w s).1 = Throw e ->
  let out := net w (fetches s) in
  (isNetworkError e = true /\ isRetryableError e = false /\ out = Rejected e)
  \/ (isNetworkError e = false
      /\ exists msg, e = UploadError msg (isRetryableError e)
         /\ (isRetryableError e = true
             <-> exists r, out = Resolved r /\ ok r = false
                           /\ transient_status (resp_status r))).
Proof.
  rewrite putToS3_run, saveRecordingToDb_run. simpl.
  unfold put_result, save_result. intros [H|H].
  - destruct (classify "S3 upload failed" _) eqn:E; [done|].
    injection H as ->. by apply classify_throw in E.
  - destruct (classify "Failed to save to database" _) eqn:E; [done|].
    injection H as ->. by apply classify_throw in E.
Qed.

Lemma remote_errors_classified_witness :
  let w := world_of [respond 503] 0 in
  exists r, net w 0%nat = Resolved r /\ ok r = false
            /\ transient_status (resp_status r).
Proof.
  intros w.
  pose (e := UploadError ("S3 upload failed: " +:+ pretty 503) true).
  destruct (remote_errors_classified "https://bucket/put" "audio/webm" webm
              (save_data (fresh "r1" webm) None synced None) w
              (state_of emptyDB) e) as [[Hn _]|(_ & msg & _ & Hiff)].
  - left. reflexivity.
  - discriminate Hn.
  - apply Hiff. reflexivity.
Defined.



Lemma pending_update (i : string) (st : Status) (x : Extras) (d : DB) :
  pendingDeletes (AudioStore.updateRecordingStatus i st x d).2 = pendingDeletes d.
Proof.
  unfold AudioStore.updateRecordingStatus. by destruct (recordings d !! i).
Qed.

Lemma uploadRecording_enters_loop (rid : string) (recording : Recording)
    (w : World) (s : St) :
  AudioStore.getRecordingById rid (db s) = Some recording ->
  status recording <> synced ->
  (uploadAttempts recording < MAX_ATTEMPTS)%Z ->
  uploadRecording rid w s
  = bind (attempts_loop (attempt_body rid recording (uploadAttempts recording))
            (uploadAttempts recording
             :: seqZ (uploadAttempts recording + 1)
                  (MAX_ATTEMPTS - uploadAttempts recording - 1)))
      (fun left => match left with
                   | Some r => ret r
                   | None => terminal_failure rid recording
                   end) w (entered recording s).
Proof.
  intros Hget Hs Hlt. unfold uploadRecording, bind at 1, getRecordingById.
  rewrite Hget. rewrite decide_False by done.
  destruct (uploadAttempts recording >=? MAX_ATTEMPTS)%Z eqn:E.
  { rewrite Z.geb_leb in E. apply Z.leb_le in E. lia. }
  unfold loop_indices. rewrite seqZ_cons by lia.
  replace (Z.succ (uploadAttempts recording)) with (uploadAttempts recording + 1)%Z by lia.
  replace (Z.pred (MAX_ATTEMPTS - uploadAttempts recording))
    with (MAX_ATTEMPTS - uploadAttempts recording - 1)%Z by lia.
  reflexivity.
Qed.

Lemma present_of_get (rid : string) (recording : Recording) (d : DB) :
  AudioStore.getRecordingById rid d = Some recording ->
  exists raw, recordings d !! rid = Some raw /\ recording = hydrateRecording raw.
Proof.
  unfold AudioStore.getRecordingById.
  destruct (recordings d !! rid) as [raw|]; [|done]. intros [= <-]. by exists raw.
Qed.

(** X8: when the record holds no key and the three requests are answered OK,
    one invocation does exactly this, in this order: it marks the record as
    uploading with the attempt count raised by one, asks for an upload URL,
    transfers the payload with its own type (or audio/webm when it has
    none), stores the key it was given, commits, and deletes the local
    record.  It sleeps nowhere, answers [synced], and leaves the other
    records and the pending deletes as they were. *)
Theorem first_try_success (rid : string) (recording : Recording) (w : World)
    (s : St) (r1 r2 r3 : Response) (url key : string) :
  AudioStore.getRecordingById rid (db s) = Some recording ->
  status recording <> synced ->
  (uploadAttempts recording < MAX_ATTEMPTS)%Z ->
  truthy (s3Key recording) = false ->
  net w (fetches s) = Resolved r1 -> ok r1 = true ->
  resp_body r1 = BodyUploadUrl url key ->
  net w (S (fetches s)) = Resolved r2 -> ok r2 = true ->
  net w (S (S (fetches s))) = Resolved r3 -> ok r3 = true ->
  let s' := (uploadRecording rid w s).2 in
  (uploadRecording rid w s).1
  = Ok {| success := true; recordingId := rid; res_status := synced;
          error := None |}
  /\ trace s'
     = trace s
       ++ [opens_attempt rid (uploadAttempts recording + 1);
           EvFetch (GetUploadUrl (filename recording)) (Resolved r1);
           EvFetch (PutS3 url (blob recording)
                      (or_else (Some (blob_type (blob recording))) "audio/webm"))
             (Resolved r2);
           EvUpdateRecordingStatus rid uploading
             {| x_uploadAttempts := None; x_lastError := None;
                x_s3Key := Some key |};
           EvFetch (SaveRecording (save_data recording (Some key) synced None))
             (Resolved r3);
           EvDeleteRecording rid]
  /\ recordings (db s') !! rid = None
  /\ (forall j, j <> rid -> recordings (db s') !! j = recordings (db s) !! j)
  /\ pendingDeletes (db s') = pendingDeletes (db s).
Proof.
  intros Hget Hs Hlt Hkey H1 Hok1 Hbody H2 Hok2 H3 Hok3 s'. subst s'.
  rewrite (uploadRecording_enters_loop rid recording) by done.
  assert (P1 : presign_result (net w (fetches s)) = Ok (url, key)).
  { unfold presign_result, classify. by rewrite H1, Hok1, Hbody. }
  assert (P2 : put_result (net w (S (fetches s))) = Ok tt).
  { unfold put_result, classify. by rewrite H2, Hok2. }
  assert (P3 : save_result (net w (S (S (fetches s)))) = Ok tt).
  { unfold save_result, classify. by rewrite H3, Hok3. }
  unfold bind at 1. cbn [attempts_loop]. unfold bind at 1.
  unfold entered.
  assert (Hnosleep : (uploadAttempts recording >? uploadAttempts recording)%Z = false)
    by (by rewrite Z.gtb_ltb, Z.ltb_irrefl).
  unfold attempt_body. rewrite Hnosleep.
  run_unfold. rewrite updateRecordingStatus_run. run_unfold.
  rewrite Hkey. run_unfold. rewrite getPresignedUrl_run. run_unfold. rewrite P1.
  run_unfold. rewrite putToS3_run. run_unfold. rewrite P2. run_unfold.
  rewrite updateRecordingStatus_run. run_unfold.
  rewrite saveRecordingToDb_run. run_unfold. rewrite P3. run_unfold.
  rewrite H1, H2, H3.
  split; [done|]. split; [by rewrite <- !app_assoc|].
  split; [|split].
  - rewrite lookup_deleteRecording. by rewrite decide_True.
  - intros j Hj. rewrite lookup_deleteRecording, decide_False by done.
    rewrite lookup_update. rewrite decide_False by done.
    rewrite lookup_update. rewrite decide_False by done. reflexivity.
  - cbn [AudioStore.deleteRecording set_recordings pendingDeletes].
    by rewrite !pending_update.
Qed.

Lemma first_try_success_witness :
  let s := state_of (AudioStore.saveRecording (fresh "r1" webm) emptyDB) in
  let w := world_of [] 0 in
  (uploadRecording "r1" w s).1
  = Ok {| success := true; recordingId := "r1"; res_status := synced;
          error := None |}
  /\ recordings (db (uploadRecording "r1" w s).2) !! "r1" = None.
Proof.
  intros s w.
  assert (Hget : AudioStore.getRecordingById "r1" (db s) = Some (fresh "r1" webm))
    by (vm_compute; reflexivity).
  assert (Hst : status (fresh "r1" webm) <> synced) by discriminate.
  assert (Hlt : (uploadAttempts (fresh "r1" webm) < MAX_ATTEMPTS)%Z)
    by (unfold MAX_ATTEMPTS; simpl; lia).
  destruct (first_try_success "r1" (fresh "r1" webm) w s
              (answer 200) (answer 200) (answer 200)
              "https://bucket/put" "recordings/k" Hget Hst Hlt
              eq_refl eq_refl eq_refl eq_refl eq_refl eq_refl eq_refl eq_refl)
    as (Hres & _ & Hgone & _).
  by split.
Defined.



(** X9: when the request for an upload URL is answered with a non-OK status
    that is neither 500 or above, nor 408, nor 429, the invocation stops
    after that one attempt whatever budget was left: no sleep and no further
    attempt; the record is stored as failed with the attempt count set to the
    maximum and the error message naming the status; one request mirrors the
    failure to the server, and its outcome changes nothing. *)
Theorem permanent_rejection_stops_at_once (rid : string) (recording : Recording)
    (w : World) (s : St) (r1 : Response) :
  AudioStore.getRecordingById rid (db s) = Some recording ->
  status recording <> synced ->
  (uploadAttempts recording < MAX_ATTEMPTS)%Z ->
  truthy (s3Key recording) = false ->
  net w (fetches s) = Resolved r1 -> ok r1 = false ->
  ~ transient_status (resp_status r1) ->
  let s' := (uploadRecording rid w s).2 in
  let msg := "Failed to get presigned URL: " +:+ pretty (resp_status r1) in
  (uploadRecording rid w s).1
  = Ok {| success := false; recordingId := rid; res_status := failed;
          error := Some msg |}
  /\ trace s'
     = trace s
       ++ [opens_attempt rid (uploadAttempts recording + 1);
           EvFetch (GetUploadUrl (filename recording)) (Resolved r1);
           EvUpdateRecordingStatus rid failed
             {| x_uploadAttempts := Some MAX_ATTEMPTS; x_lastError := Some msg;
                x_s3Key := None |};
           EvFetch (SaveRecording
                      (save_data recording (s3Key recording) failed (Some msg)))
             (net w (S (fetches s)))]
  /\ (exists raw, recordings (db s') !! rid = Some raw
                  /\ status raw = failed
                  /\ uploadAttempts raw = MAX_ATTEMPTS
                  /\ lastError raw = Some msg).
Proof.
  intros Hget Hs Hlt Hkey H1 Hok1 Hperm s' msg. subst s'.
  rewrite (uploadRecording_enters_loop rid recording) by done.
  assert (P1 : presign_result (net w (fetches s)) = Throw (UploadError msg false)).
  { unfold presign_result, classify. rewrite H1, Hok1.
    destruct (isRetryableStatus (resp_status r1)) eqn:E; [|done].
    by apply isRetryableStatus_spec in E. }
  destruct (present_of_get _ _ _ Hget) as (raw & Hraw & _).
  unfold bind at 1. cbn [attempts_loop]. unfold bind at 1.
  unfold entered.
  assert (Hnosleep : (uploadAttempts recording >? uploadAttempts recording)%Z = false)
    by (by rewrite Z.gtb_ltb, Z.ltb_irrefl).
  unfold attempt_body. rewrite Hnosleep.
  run_unfold. rewrite updateRecordingStatus_run. run_unfold.
  rewrite Hkey. run_unfold. rewrite getPresignedUrl_run. run_unfold. rewrite P1.
  run_unfold. cbn [isNetworkError isRetryableError error_message nullish negb].
  run_unfold. rewrite updateRecordingStatus_run. run_unfold.
  rewrite saveRecordingToDb_run. run_unfold. rewrite H1.
  assert (Hstored : exists raw',
    recordings
      (AudioStore.updateRecordingStatus rid failed
         {| x_uploadAttempts := Some MAX_ATTEMPTS; x_lastError := Some msg;
            x_s3Key := None |}
         (AudioStore.updateRecordingStatus rid uploading
            {| x_uploadAttempts := Some (uploadAttempts recording + 1)%Z;
               x_lastError := None; x_s3Key := None |} (db s)).2).2 !! rid
    = Some raw'
    /\ status raw' = failed /\ uploadAttempts raw' = MAX_ATTEMPTS
    /\ lastError raw' = Some msg).
  { eexists. rewrite lookup_update, decide_True by done.
    rewrite lookup_update, decide_True by done. rewrite Hraw. simpl. done. }
  destruct (save_result (net w (S (fetches s)))); run_unfold;
    (split; [done|]); (split; [by rewrite <- !app_assoc|]); exact Hstored.
Qed.

Lemma permanent_rejection_stops_at_once_witness :
  let s := state_of (AudioStore.saveRecording (fresh "r1" webm) emptyDB) in
  let w := world_of [respond 403] 0 in
  (uploadRecording "r1" w s).1
  = Ok {| success := false; recordingId := "r1"; res_status := failed;
          error := Some ("Failed to get presigned URL: " +:+ pretty 403) |}.
Proof.
  intros s w.
  assert (Hget : AudioStore.getRecordingById "r1" (db s) = Some (fresh "r1" webm))
    by (vm_compute; reflexivity).
  assert (Hst : status (fresh "r1" webm) <> synced) by discriminate.
  assert (Hlt : (uploadAttempts (fresh "r1" webm) < MAX_ATTEMPTS)%Z)
    by (unfold MAX_ATTEMPTS; simpl; lia).
  assert (Hperm : ~ transient_status (resp_status (answer 403)))
    by (unfold transient_status; simpl; lia).
  exact (proj1 (permanent_rejection_stops_at_once "r1" (fresh "r1" webm) w s
                  (answer 403) Hget Hst Hlt eq_refl eq_refl eq_refl Hperm)).
Defined.



Ltac agrees_leaf :=
  lazymatch goal with
  | |- _ /\ store_agrees _ _ _ _ =>
      split; [reflexivity|];
      unfold store_agrees; cbn [res_status success error];
      cbn [db log set_db set_locals next_fetch next_draw];
      first
        [ split; [reflexivity|];
          rewrite lookup_deleteRecording; by rewrite decide_True
        | split; [reflexivity|];
          apply stored_after_update; repeat apply present_update; assumption ]
  | |- _ /\ is_Some _ =>
      cbn [db locals l_lastError log set_db set_locals next_fetch next_draw];
      split; [repeat apply present_update; assumption|by eexists]
  end.

Lemma attempt_body_agrees rid recording start a w s :
  is_Some (recordings (db s) !! rid) ->
  returns (attempt_body rid recording start a) w s (fun flow s' =>
    match flow with
    | Return r => recordingId r = rid /\ store_agrees rid start r (db s')
    | _ => is_Some (recordings (db s') !! rid)
           /\ is_Some (l_lastError (locals s'))
    end).
Proof.
  intros Hdb. run_all; agrees_leaf.
Qed.

Lemma terminal_failure_agrees rid recording start w s :
  is_Some (recordings (db s) !! rid) ->
  is_Some (l_lastError (locals s)) ->
  returns (terminal_failure rid recording) w s (fun r s' =>
    recordingId r = rid /\ store_agrees rid start r (db s')).
Proof.
  intros [raw Hraw] [e He]. run_all; rewrite ?He;
    (split; [reflexivity|]); unfold store_agrees;
    cbn [res_status success error db log set_db set_locals next_fetch];
    (split; [reflexivity|]); (split; [by eexists|]);
    eexists; rewrite lookup_update, decide_True by done; rewrite Hraw;
    simpl; done.
Qed.

(** X10: when an invocation enters the attempt loop, the result it returns
    names the record and agrees with the store it leaves: [synced] comes with
    success and the local record gone; [local] comes with failure and the
    record stored as local with the attempt count it had at entry; [failed]
    comes with failure, an error message, and the record stored as failed
    with the maximal attempt count and that same message; [uploading] is
    never returned. *)
Theorem result_agrees_with_store (rid : string) (recording : Recording)
    (w : World) (s : St) :
  AudioStore.getRecordingById rid (db s) = Some recording ->
  status recording <> synced ->
  (uploadAttempts recording < MAX_ATTEMPTS)%Z ->
  returns (uploadRecording rid) w s (fun res s' =>
    recordingId res = rid
    /\ store_agrees rid (uploadAttempts recording) res (db s')).
Proof.
  intros Hget Hs Hlt.
  destruct (present_of_get _ _ _ Hget) as (raw & Hraw & _).
  apply uploadRecording_rule.
  - congruence.
  - intros recording' Hget' Hs'. congruence.
  - intros recording' Hget' _ Hge. assert (recording' = recording) as -> by congruence.
    lia.
  - intros recording' Hget' _ _. assert (recording' = recording) as -> by congruence.
    apply (pipeline_rule
             (fun a s' => is_Some (recordings (db s') !! rid)
                          /\ (a = uploadAttempts recording
                              \/ is_Some (l_lastError (locals s'))))
             (fun s' => is_Some (recordings (db s') !! rid)
                        /\ is_Some (l_lastError (locals s')))
             (fun res s' => recordingId res = rid
                            /\ store_agrees rid (uploadAttempts recording) res (db s')));
      try done.
    + split; [by eexists|by left].
    + intros a s' Ha [Hdb _]. eapply returns_mono; [by apply attempt_body_agrees|].
      intros [r| |] s'' H; simpl in *; try done. destruct H. split; [done|by right].
    + intros s' [Hdb [Heq|Hle]]; [lia|done].
    + intros s' [Hdb Hle]. by apply terminal_failure_agrees.
Qed.

Lemma result_agrees_with_store_witness :
  let s := state_of (AudioStore.saveRecording (fresh "r1" webm) emptyDB) in
  let w := world_of [respond 503; Rejected (TypeError "Failed to fetch")] 0 in
  returns (uploadRecording "r1") w s (fun res s' =>
    recordingId res = "r1" /\ store_agrees "r1" 0 res (db s')).
Proof.
  intros s w.
  apply (result_agrees_with_store "r1" (fresh "r1" webm) w s).
  - vm_compute. reflexivity.
  - discriminate.
  - unfold MAX_ATTEMPTS. simpl. lia.
Defined.



Ltac shape_leaf :=
  try (unfold well_formed_result; cbn [recordingId success res_status];
       split; [reflexivity|]; split; [split; intros; congruence|discriminate]).

Lemma uploadRecording_well_formed (rid : string) (w : World) (s : St) :
  returns (uploadRecording rid) w s (fun res _ => well_formed_result rid res).
Proof.
  apply uploadRecording_rule; try (intros; by shape_leaf).
  intros recording Hget Hs Hlt.
  apply (pipeline_rule (fun _ _ => True) (fun _ => True)
           (fun res _ => well_formed_result rid res)); try done.
  - intros a s' _ _. run_all; shape_leaf; done.
  - intros s' _. run_all; shape_leaf.
Qed.

(** ** How many requests an invocation issues *)

Lemma attempt_body_requests rid recording start a w s :
  returns (attempt_body rid recording start a) w s (fun _ s' =>
    fetches s <= fetches s' <= fetches s + 3)%nat.
Proof. run_all; cbn [fetches log set_db set_locals next_fetch next_draw]; lia. Qed.

Lemma terminal_failure_requests rid recording w s :
  returns (terminal_failure rid recording) w s (fun _ s' =>
    fetches s <= fetches s' <= fetches s + 1)%nat.
Proof. run_all; cbn [fetches log set_db set_locals next_fetch next_draw]; lia. Qed.

(** X11: an invocation always returns normally.  For an id that is not
    stored it changes nothing and answers [failed] with the message
    "Recording not found".  For a stored record it issues at most three
    requests for each attempt left in the budget, plus one to mirror a
    terminal failure. *)
Theorem requests_bounded (rid : string) (w : World) (s : St) :
  returns (uploadRecording rid) w s (fun res s' =>
    (fetches s <= fetches s')%nat
    /\ (AudioStore.getRecordingById rid (db s) = None ->
        s' = s
        /\ res = {| success := false; recordingId := rid; res_status := failed;
                    error := Some "Recording not found" |})
    /\ forall recording,
         AudioStore.getRecordingById rid (db s) = Some recording ->
         (Z.of_nat (fetches s') - Z.of_nat (fetches s)
          <= Z.max 0 (3 * (MAX_ATTEMPTS - uploadAttempts recording) + 1))%Z).
Proof.
  apply uploadRecording_rule;
    try (intros; split; [lia|split; [intros; first [done|congruence]|intros; lia]]).
  intros recording Hget Hs Hlt.
  set (start := uploadAttempts recording) in *.
  eapply returns_mono.
  - apply (pipeline_rule
             (fun a s' => (fetches s <= fetches s')%nat
                          /\ (Z.of_nat (fetches s')
                               <= Z.of_nat (fetches s) + 3 * (a - start))%Z)
             (fun s' => (fetches s <= fetches s')%nat
                        /\ (Z.of_nat (fetches s')
                             <= Z.of_nat (fetches s) + 3 * (MAX_ATTEMPTS - start))%Z)
             (fun _ s' => (fetches s <= fetches s')%nat
                          /\ (Z.of_nat (fetches s')
                               <= Z.of_nat (fetches s)
                                  + 3 * (MAX_ATTEMPTS - start) + 1)%Z));
      try done.
    + simpl. fold start. lia.
    + intros a s' Ha [H1 H2]. fold start in Ha.
      eapply returns_mono; [apply attempt_body_requests|].
      unfold MAX_ATTEMPTS in *. intros [r| |] s'' H; simpl; lia.
    + intros s' [H1 H2].
      eapply returns_mono; [apply terminal_failure_requests|].
      intros r s'' H; simpl in *; lia.
  - intros res s' [H1 H2]. split; [done|]. split; [intros; congruence|].
    intros recording' Hget'.
    assert (recording' = recording) as -> by congruence. fold start. lia.
Qed.

(** ** The first thing an attempt does *)

Lemma attempt_body_opens rid recording start a w s0 s :
  (a = start /\ trace s = trace s0)
  \/ (exists rest, trace s = trace s0 ++ opens_attempt rid (start + 1) :: rest) ->
  returns (attempt_body rid recording start a) w s (fun _ s' =>
    exists rest, trace s' = trace s0 ++ opens_attempt rid (start + 1) :: rest).
Proof.
  intros [[-> Htr]|[rest Htr]]; run_all;
    try (rewrite Z.gtb_ltb in *;
         match goal with H : (_ <? _)%Z = true |- _ => apply Z.ltb_lt in H; lia end);
    cbn [trace log set_db set_locals next_fetch next_draw];
    rewrite Htr, <- ?app_assoc; cbn [app]; unfold opens_attempt; by eexists.
Qed.

Lemma terminal_failure_opens rid recording start w s0 s :
  (exists rest, trace s = trace s0 ++ opens_attempt rid (start + 1) :: rest) ->
  returns (terminal_failure rid recording) w s (fun _ s' =>
    exists rest, trace s' = trace s0 ++ opens_attempt rid (start + 1) :: rest).
Proof.
  intros [rest Htr]; run_all;
    cbn [trace log set_db set_locals next_fetch next_draw];
    rewrite Htr, <- ?app_assoc; cbn [app]; by eexists.
Qed.

Lemma loop_opens (rid : string) (recording : Recording) (w : World) (s0 s : St) :
  (uploadAttempts recording < MAX_ATTEMPTS)%Z ->
  trace s = trace s0 ->
  returns
    (bind (attempts_loop (attempt_body rid recording (uploadAttempts recording))
             (loop_indices (uploadAttempts recording)))
       (fun left => match left with
                    | Some r => ret r
                    | None => terminal_failure rid recording
                    end)) w s
    (fun _ s' =>
       exists rest,
         trace s' = trace s0 ++ opens_attempt rid (uploadAttempts recording + 1) :: rest).
Proof.
  intros Hlt Htr. set (start := uploadAttempts recording) in *.
  apply (pipeline_rule
           (fun a s' => (a = start /\ trace s' = trace s0)
                        \/ (exists rest, trace s'
                               = trace s0 ++ opens_attempt rid (start + 1) :: rest))
           (fun s' => exists rest, trace s'
                        = trace s0 ++ opens_attempt rid (start + 1) :: rest)
           (fun _ s' => exists rest, trace s'
                        = trace s0 ++ opens_attempt rid (start + 1) :: rest));
    try done.
  - by left.
  - intros a s' Ha HI. eapply returns_mono; [by apply attempt_body_opens|].
    intros [r| |] s'' H; simpl; try done. by right.
  - intros s' [[Heq _]|H]; [|done]. fold start in Hlt. lia.
  - intros s' HB. by apply terminal_failure_opens.
Qed.

(** X12: when an invocation enters the attempt loop, the first thing it does,
    before any request or sleep, is to store the record as uploading with
    the attempt count raised by one. *)
Theorem uploading_recorded_first (rid : string) (recording : Recording)
    (w : World) (s : St) :
  AudioStore.getRecordingById rid (db s) = Some recording ->
  status recording <> synced ->
  (uploadAttempts recording < MAX_ATTEMPTS)%Z ->
  returns (uploadRecording rid) w s (fun _ s' =>
    exists rest,
      trace s' = trace s ++ opens_attempt rid (uploadAttempts recording + 1) :: rest).
Proof.
  intros Hget Hs Hlt. apply uploadRecording_rule.
  - congruence.
  - intros recording' Hget' Hs'. congruence.
  - intros recording' Hget' _ Hge. assert (recording' = recording) as -> by congruence.
    lia.
  - intros recording' Hget' _ _. assert (recording' = recording) as -> by congruence.
    by apply loop_opens.
Qed.

Lemma uploading_recorded_first_witness :
  let s := state_of (AudioStore.saveRecording keyed emptyDB) in
  let w := world_of [respond 500] 0 in
  returns (uploadRecording "r6") w s (fun _ s' =>
    exists rest, trace s' = trace s ++ opens_attempt "r6" (1 + 1) :: rest).
Proof.
  intros s w.
  apply (uploading_recorded_first "r6" keyed w s).
  - vm_compute. reflexivity.
  - discriminate.
  - unfold MAX_ATTEMPTS. simpl. lia.
Defined.



(** ** Every pending record in turn *)

Lemma uploadRecording_consistent (rid : string) (w : World) (s : St) :
  consistent s -> returns (uploadRecording rid) w s (fun _ s' => consistent s').
Proof.
  intros Hcons. apply uploadRecording_rule; try done.
  intros recording Hget Hs Hlt.
  destruct (present_of_get _ _ _ Hget) as (raw & Hraw & Hrec).
  assert (Hblob : blob recording = payload_blob (blob raw))
    by (rewrite Hrec; apply hydrate_blob).
  eapply returns_mono.
  - apply (pipeline_rule (fun _ => uploading_inv rid recording (blob raw) s)
             (uploading_inv rid recording (blob raw) s)
             (upload_outcome rid recording s)); try done.
    + split; [exact Hcons|]. split; [intros raw'; simpl; congruence|].
      split; [|apply extends_entered; split; [done|by left]].
      simpl. intros Hkey. apply (proj2 Hcons rid raw Hraw).
      rewrite Hrec in Hkey. revert Hkey.
      unfold hydrateRecording. by destruct (blob raw).
    + intros a s' Ha HI. by apply (attempt_body_synced _ _ (blob raw)).
    + intros s' HB. by apply (terminal_failure_synced _ _ (blob raw)).
  - by intros res s' [? _].
Qed.

Lemma uploadRecording_kept (rid : string) (w : World) (s : St) :
  returns (uploadRecording rid) w s (fun res s' =>
    well_formed_result rid res
    /\ (consistent s -> consistent s')
    /\ (stored_within_budget (db s) -> stored_within_budget (db s'))).
Proof.
  apply returns_and; [apply uploadRecording_well_formed|]. apply returns_and.
  - apply returns_impl; [|apply uploadRecording_consistent].
    eapply returns_mono; [apply uploadRecording_well_formed|done].
  - eapply returns_mono; [apply uploadRecording_budget|]. by intros _ s' [_ ?].
Qed.

Lemma uploadEach_results (pending done : list Recording)
    (results : list UploadResult) (w : World) (s : St) :
  results_for done results ->
  returns (uploadEach pending results) w s (fun out s' =>
    results_for (done ++ pending) out
    /\ (consistent s -> consistent s')
    /\ (stored_within_budget (db s) -> stored_within_budget (db s'))).
Proof.
  revert done results s. induction pending as [|r pending IH];
    intros done results s Hres; simpl.
  - rewrite app_nil_r. by split.
  - apply returns_bind. eapply returns_mono; [apply uploadRecording_kept|].
    intros res s1 (Hwf & Hc1 & Hb1).
    eapply returns_mono.
    + apply (IH (done ++ [r]) (results ++ [res])).
      destruct Hres as [Hids Hall]. split.
      * rewrite !fmap_app, Hids. simpl. by rewrite (proj1 Hwf).
      * apply Forall_app. split; [done|]. constructor; [|done].
        by rewrite (proj1 Hwf).
    + intros out s2 (Hout & Hc2 & Hb2). rewrite <- app_assoc in Hout. auto.
Qed.

(** X13: the batch upload always returns, with one result for each record
    that was stored as local or uploading when it began, in the order of the
    listing and for no other record; in each result success goes with
    [synced] and only with it, and no result is [uploading].  The batch keeps
    the store consistent and the stored attempt counts within the budget. *)
Theorem uploadAllPending_covers_pending (w : World) (s : St) :
  returns uploadAllPending w s (fun results s' =>
    recordingId <$> results
    = id <$> AudioStore.getRecordingsByStatus [local; uploading] (db s)
    /\ Forall (fun res => (success res = true <-> res_status res = synced)
                          /\ res_status res <> uploading) results
    /\ (consistent s -> consistent s')
    /\ (stored_within_budget (db s) -> stored_within_budget (db s'))).
Proof.
  unfold uploadAllPending. apply returns_bind.
  unfold returns at 1, getRecordingsByStatus.
  eapply returns_mono; [apply (uploadEach_results _ [] [])|].
  - by split.
  - intros out s' ([Hids Hall] & Hc & Hb). simpl in Hids.
    split; [done|]. split; [|by split].
    eapply Forall_impl; [exact Hall|]. by intros res (_ & ? & ?).
Qed.


(** ** How many attempts an invocation makes *)

Lemma attempts_in_app (tr1 tr2 : list Event) :
  attempts_in (tr1 ++ tr2) = (attempts_in tr1 + attempts_in tr2)%Z.
Proof. unfold attempts_in. rewrite List.filter_app, length_app. lia. Qed.

Lemma sleeps_in_app (tr1 tr2 : list Event) :
  sleeps_in (tr1 ++ tr2) = (sleeps_in tr1 + sleeps_in tr2)%Z.
Proof. unfold sleeps_in. rewrite List.filter_app, length_app. lia. Qed.

Ltac count_leaf Htr :=
  extend_trace Htr; cbn beta; cbn [app];
  rewrite attempts_in_app, sleeps_in_app;
  unfold attempts_in at 2, sleeps_in at 2;
  cbn [List.filter is_attempt is_sleep x_uploadAttempts length];
  rewrite ?Z.gtb_ltb in *;
  repeat match goal with
         | H : (_ <? _)%Z = true |- _ => apply Z.ltb_lt in H
         | H : (_ <? _)%Z = false |- _ => apply Z.ltb_ge in H
         end;
  lia.

Lemma attempt_body_counts rid recording start a w s0 s :
  (start <= a)%Z ->
  extends s0 s (fun tr => attempts_in tr = (a - start)%Z
                          /\ sleeps_in tr = Z.max 0 (a - start - 1)) ->
  returns (attempt_body rid recording start a) w s (fun _ s' =>
    extends s0 s' (fun tr => attempts_in tr = (a - start + 1)%Z
                             /\ sleeps_in tr = (a - start)%Z)).
Proof.
  intros Ha (tr & Htr & Hn & Hsl). run_all; count_leaf Htr.
Qed.

Lemma terminal_failure_counts rid recording w s0 s (n m : Z) :
  extends s0 s (fun tr => attempts_in tr = n /\ sleeps_in tr = m) ->
  returns (terminal_failure rid recording) w s (fun _ s' =>
    extends s0 s' (fun tr => attempts_in tr = n /\ sleeps_in tr = m)).
Proof.
  intros (tr & Htr & Hn & Hsl). run_all; count_leaf Htr.
Qed.

(** X14: an invocation that enters the attempt loop makes at least one
    attempt and at most as many as the budget of the record had left, and it
    sleeps exactly once between two consecutive attempts: one sleep fewer
    than attempts. *)
Theorem attempts_within_remaining_budget (rid : string) (recording : Recording)
    (w : World) (s : St) :
  AudioStore.getRecordingById rid (db s) = Some recording ->
  status recording <> synced ->
  (uploadAttempts recording < MAX_ATTEMPTS)%Z ->
  returns (uploadRecording rid) w s (fun _ s' =>
    extends s s' (fun tr =>
      (1 <= attempts_in tr <= MAX_ATTEMPTS - uploadAttempts recording)%Z
      /\ sleeps_in tr = (attempts_in tr - 1)%Z)).
Proof.
  intros Hget Hs Hlt. apply uploadRecording_rule.
  - congruence.
  - intros recording' Hget' Hs'. congruence.
  - intros recording' Hget' _ Hge. assert (recording' = recording) as -> by congruence.
    lia.
  - intros recording' Hget' _ _. assert (recording' = recording) as -> by congruence.
    set (start := uploadAttempts recording) in *.
    apply (pipeline_rule
             (fun a s' => extends s s' (fun tr =>
                attempts_in tr = (a - start)%Z
                /\ sleeps_in tr = Z.max 0 (a - start - 1)))
             (fun s' => extends s s' (fun tr =>
                (1 <= attempts_in tr <= MAX_ATTEMPTS - start)%Z
                /\ sleeps_in tr = (attempts_in tr - 1)%Z))
             (fun _ s' => extends s s' (fun tr =>
                (1 <= attempts_in tr <= MAX_ATTEMPTS - start)%Z
                /\ sleeps_in tr = (attempts_in tr - 1)%Z))); try done.
    + apply extends_entered. split; [unfold attempts_in; simpl; lia|].
      unfold sleeps_in; simpl; lia.
    + intros a s' Ha HI. fold start in Ha.
      eapply returns_mono; [apply attempt_body_counts; [lia|exact HI]|].
      intros flow s'' (tr & Htr & Hn & Hsl).
      assert (Hdone : extends s s'' (fun tr =>
                (1 <= attempts_in tr <= MAX_ATTEMPTS - start)%Z
                /\ sleeps_in tr = (attempts_in tr - 1)%Z)).
      { exists tr. split; [done|]. lia. }
      destruct flow; try done.
      exists tr. split; [done|]. lia.
    + intros s' (tr & Htr & Hn & Hsl). exists tr. split; [done|].
      fold start in Hlt. lia.
    + intros s' (tr & Htr & Hn & Hsl).
      eapply returns_mono.
      * apply (terminal_failure_counts rid recording w s s'
                 (attempts_in tr) (sleeps_in tr)). by exists tr.
      * intros _ s'' (tr' & Htr' & Hn' & Hsl'). exists tr'. split; [done|]. lia.
Qed.

Lemma attempts_within_remaining_budget_witness :
  let s := state_of (AudioStore.saveRecording keyed emptyDB) in
  let w := world_of [respond 500; respond 500] (1 # 2) in
  returns (uploadRecording "r6") w s (fun _ s' =>
    extends s s' (fun tr =>
      (1 <= attempts_in tr <= MAX_ATTEMPTS - 1)%Z
      /\ sleeps_in tr = (attempts_in tr - 1)%Z)).
Proof.
  intros s w.
  apply (attempts_within_remaining_budget "r6" keyed w s).
  - vm_compute. reflexivity.
  - discriminate.
  - unfold MAX_ATTEMPTS. simpl. lia.
Defined.


End Pipeline.

(* ===================================================================== *)
(** * The handlers of the worker *)
(* ===================================================================== *)

Section Worker.
Import Js AudioStore Effects Upload UploadSpec Examples ServiceWorker ReconcileSpec
  StoreSpec Page PipelineSpec WorkerSpec RetryTimer.
Local Open Scope list_scope.

Lemma scheduleRetry_run (w : World) (s : St) : scheduleRetry w s = (Ok tt, armed s).
Proof. unfold scheduleRetry, armed. by destruct (retryTimer s). Qed.

Lemma registerSync_run (w : World) (s : St) :
  registerSync w s = (sync_result w s, sync_registered w s).
Proof.
  unfold registerSync, sync_result, sync_registered.
  destruct (hasSync w); [|done]. by destruct (syncRegister w _).
Qed.

Lemma armed_timer (s : St) : retryTimer (armed s) = true.
Proof. unfold armed. by destruct (retryTimer s) eqn:E. Qed.

Lemma armed_trace (s : St) :
  trace (armed s) = trace s ++ (if retryTimer s then [] else [EvScheduleRetry]).
Proof. unfold armed. destruct (retryTimer s); simpl; by rewrite ?app_nil_r. Qed.

Lemma armed_db (s : St) : db (armed s) = db s.
Proof. unfold armed. by destruct (retryTimer s). Qed.

Lemma sync_registered_db (w : World) (s : St) : db (sync_registered w s) = db s.
Proof. unfold sync_registered. by destruct (hasSync w). Qed.

Lemma sync_registered_trace (w : World) (s : St) :
  trace (sync_registered w s)
  = trace s ++ (if hasSync w then [EvRegisterSync] else []).
Proof. unfold sync_registered. destruct (hasSync w); simpl; by rewrite ?app_nil_r. Qed.

Lemma sync_registered_timer (w : World) (s : St) :
  retryTimer (sync_registered w s) = retryTimer s.
Proof. unfold sync_registered. by destruct (hasSync w). Qed.

Lemma sync_result_fails (w : World) (s : St) (e : JsError) :
  sync_result w s = Throw e ->
  hasSync w = true /\ exists n, syncRegister w n = Some e.
Proof.
  unfold sync_result. destruct (hasSync w); [|done].
  destruct (syncRegister w _) as [e'|] eqn:E; [|done].
  intros [= <-]. split; [done|]. by eexists.
Qed.

Lemma sync_result_answers (w : World) (s : St) :
  platform_answers w -> sync_result w s = Ok tt.
Proof.
  intros [_ H]. unfold sync_result. destruct (hasSync w); [|done]. by rewrite H.
Qed.

Lemma checkConnectivity_run (w : World) (s : St) :
  checkConnectivity w s
  = (Ok (answered_ok (net w (fetches s))),
     log (EvFetch Health (net w (fetches s))) (next_fetch s)).
Proof.
  unfold checkConnectivity, catch, bind, fetch, ret.
  by destruct (net w (fetches s)).
Qed.

Lemma postEach_trace (n : nat) (result : UploadResult) (s : St) :
  trace (postEach n result s) = trace s ++ replicate n (notification result).
Proof.
  revert s. induction n as [|n IH]; intros s; simpl.
  - by rewrite app_nil_r.
  - rewrite IH. simpl. by rewrite <- app_assoc.
Qed.

Lemma postEach_frame (n : nat) (result : UploadResult) (s : St) :
  db (postEach n result s) = db s
  /\ retryTimer (postEach n result s) = retryTimer s
  /\ fetches (postEach n result s) = fetches s.
Proof.
  revert s. induction n as [|n IH]; intros s; simpl; [done|].
  destruct (IH (log (notification result) s)) as (H1 & H2 & H3).
  unfold notification in *. by rewrite H1, H2, H3.
Qed.

(** X15: an upload request that arrives while the browser reports itself
    offline does nothing but register a background sync (where the platform
    has one), and settles as that registration does: it returns normally
    unless [sync.register] rejects, and then rejects with the same error.
    On Safari, when the browser reports itself online but the health probe
    is refused or fails, it does nothing but issue that probe and arm the
    probe timer, and returns normally.  In both cases the store is
    untouched, no window client is looked up or notified, and no upload
    request is issued. *)
Theorem handleUpload_waits_for_connectivity (rid : string) (w : World) (s : St) :
  (onLine w (fetches s) = false ->
   handleUpload rid w s = (sync_result w s, sync_registered w s))
  /\ (onLine w (fetches s) = true -> isSafari w = true ->
      answered_ok (net w (fetches s)) = false ->
      handleUpload rid w s
      = (Ok tt, armed (log (EvFetch Health (net w (fetches s))) (next_fetch s)))).
Proof.
  split.
  - intros Hoff. unfold handleUpload, bind at 1, navigator_onLine. rewrite Hoff.
    simpl. apply registerSync_run.
  - intros Hon Hsafari Hprobe.
    unfold handleUpload, bind at 1, navigator_onLine. rewrite Hon. simpl.
    unfold bind at 1. rewrite Hsafari, checkConnectivity_run, Hprobe. simpl.
    apply scheduleRetry_run.
Qed.

Lemma handleUpload_waits_for_connectivity_witness :
  let s := state_of (AudioStore.saveRecording (fresh "r1" webm) emptyDB) in
  handleUpload "r1" (sync_refused (offline (world_of [] 0))) s
  = (Throw (DOMException "InvalidStateError" "sync registration failed"),
     log EvRegisterSync s).
Proof.
  intros s.
  exact (proj1 (handleUpload_waits_for_connectivity "r1"
                  (sync_refused (offline (world_of [] 0))) s) eq_refl).
Defined.

(** X16: the delete handler never touches the recordings.  It records a
    pending delete for the id, with the key, in exactly two cases: the
    browser reports itself offline (and then no request is issued), or the
    request was rejected with a network-class error; in every other case, a
    refusal by the server included, the pending deletes are left as they
    were.  On Safari a network-class rejection also arms the probe timer.
    The handler returns normally except in one case: it has recorded the
    pending delete and the background sync it then registers is rejected;
    it then rejects with that error, the pending delete staying recorded. *)
Theorem handleDelete_records_what_it_cannot_confirm (rid key : string)
    (w : World) (s : St) :
  let out := net w (fetches s) in
  let s' := (handleDelete rid key w s).2 in
  let recorded := negb (onLine w (fetches s)) || unreachable out in
  recordings (db s') = recordings (db s)
  /\ pendingDeletes (db s')
     = (if recorded then <[rid := key]> (pendingDeletes (db s))
        else pendingDeletes (db s))
  /\ (onLine w (fetches s) = false -> fetches s' = fetches s)
  /\ (onLine w (fetches s) = true -> unreachable out = true ->
      isSafari w = true -> retryTimer s' = true)
  /\ match (handleDelete rid key w s).1 with
     | Ok _ => True
     | Throw e =>
         recorded = true
         /\ (onLine w (fetches s) = false \/ isSafari w = false)
         /\ hasSync w = true
         /\ exists n, syncRegister w n = Some e
     end.
Proof.
  intros out s' recorded. subst out s' recorded.
  remember (handleDelete rid key w s) as R eqn:HR.
  unfold handleDelete, bind at 1, navigator_onLine in HR.
  destruct (onLine w (fetches s)) eqn:Hon; simpl in HR.
  - unfold catch, bind at 1 in HR. rewrite deleteRecordingFromServer_run in HR.
    destruct (net w (fetches s)) as [r|e] eqn:Hout; simpl in HR.
    + subst R. by repeat split.
    + destruct (isNetworkError e) eqn:Hn; simpl in HR.
      * unfold bind, addPendingDelete in HR.
        destruct (isSafari w) eqn:Hsafari;
          rewrite ?scheduleRetry_run, ?registerSync_run in HR; subst R;
          cbn [fst snd unreachable]; rewrite Hn; cbn [negb orb].
        -- rewrite armed_db, armed_timer. by repeat split.
        -- rewrite sync_registered_db. cbn [db log set_db next_fetch].
           split; [done|]. split; [done|]. split; [done|]. split; [done|].
           destruct (sync_result w _) as [[]|e'] eqn:Hres; [done|].
           apply sync_result_fails in Hres as [Hs He].
           split; [done|]. split; [by right|]. by split.
      * subst R. simpl. rewrite Hn. by repeat split.
  - unfold bind, addPendingDelete in HR. rewrite registerSync_run in HR.
    subst R. cbn [fst snd negb orb]. rewrite sync_registered_db.
    cbn [db log set_db].
    split; [done|]. split; [done|].
    split; [intros _; unfold sync_registered; by destruct (hasSync w)|].
    split; [done|].
    destruct (sync_result w _) as [[]|e'] eqn:Hres; [done|].
    apply sync_result_fails in Hres as [Hs He].
    split; [done|]. split; [by left|]. by split.
Qed.

(** ** What the pipeline leaves alone *)

Lemma pending_deleteRecording (i : string) (d : DB) :
  pendingDeletes (AudioStore.deleteRecording i d) = pendingDeletes d.
Proof. done. Qed.

Ltac frame_leaf Htr :=
  split;
    [ extend_trace Htr; rewrite ?Forall_app; repeat split; try done;
      repeat constructor; done
    | cbn [db log set_db set_locals next_fetch next_draw retryTimer];
      repeat first [ rewrite pending_update | rewrite pending_deleteRecording ];
      split; congruence ].

Lemma attempt_body_backstage rid recording start a w s0 s :
  backstage s0 s ->
  returns (attempt_body rid recording start a) w s (fun _ s' => backstage s0 s').
Proof.
  intros [(tr & Htr & Hall) [Ht Hp]]. unfold backstage. run_all; frame_leaf Htr.
Qed.

Lemma terminal_failure_backstage rid recording w s0 s :
  backstage s0 s ->
  returns (terminal_failure rid recording) w s (fun _ s' => backstage s0 s').
Proof.
  intros [(tr & Htr & Hall) [Ht Hp]]. unfold backstage. run_all; frame_leaf Htr.
Qed.

Lemma backstage_refl (s : St) : backstage s s.
Proof. split; [by apply extends_refl|done]. Qed.

Lemma uploadRecording_backstage (rid : string) (w : World) (s : St) :
  returns (uploadRecording rid) w s (fun _ s' => backstage s s').
Proof.
  pose proof (backstage_refl s) as Hrefl.
  apply uploadRecording_rule; try (intros; exact Hrefl).
  intros recording Hget Hs Hlt.
  apply (pipeline_rule (fun _ => backstage s) (backstage s) (fun _ => backstage s));
    try done.
  - intros a s' Ha HI. eapply returns_mono; [by apply attempt_body_backstage|].
    by intros [].
  - intros s' HB. by apply terminal_failure_backstage.
Qed.

(** ** A result is [local] exactly when the record was put back *)

Ltac put_back_leaf Htr Hall :=
  extend_trace Htr; rewrite ?existsb_app, Hall;
  cbn [existsb puts_back orb]; done.

Lemma attempt_body_puts_back rid recording start a w s0 s :
  extends s0 s (fun tr => existsb puts_back tr = false) ->
  returns (attempt_body rid recording start a) w s (fun flow s' =>
    extends s0 s' (fun tr =>
      existsb puts_back tr
      = match flow with Return r => is_local r | _ => false end)).
Proof. intros (tr & Htr & Hall). run_all; put_back_leaf Htr Hall. Qed.

Lemma terminal_failure_puts_back rid recording w s0 s :
  extends s0 s (fun tr => existsb puts_back tr = false) ->
  returns (terminal_failure rid recording) w s (fun r s' =>
    extends s0 s' (fun tr => existsb puts_back tr = is_local r)).
Proof. intros (tr & Htr & Hall). run_all; put_back_leaf Htr Hall. Qed.

Lemma uploadRecording_puts_back (rid : string) (w : World) (s : St) :
  returns (uploadRecording rid) w s (fun r s' =>
    extends s s' (fun tr => existsb puts_back tr = is_local r)).
Proof.
  apply uploadRecording_rule; try (intros; by apply extends_refl).
  intros recording Hget Hs Hlt.
  apply (pipeline_rule
           (fun _ s' => extends s s' (fun tr => existsb puts_back tr = false))
           (fun s' => extends s s' (fun tr => existsb puts_back tr = false))
           (fun r s' => extends s s' (fun tr => existsb puts_back tr = is_local r)));
    try done.
  - by apply extends_entered.
  - intros a s' Ha HI. eapply returns_mono; [by apply attempt_body_puts_back|].
    by intros [].
  - intros s' HB. by apply terminal_failure_puts_back.
Qed.

(** What one invocation, and then a batch, does behind the scenes. *)
Lemma uploadRecording_behind (rid : string) (w : World) (s : St) :
  returns (uploadRecording rid) w s (fun r s' =>
    well_formed_result rid r
    /\ exists tr, trace s' = trace s ++ tr
                  /\ Forall silent tr
                  /\ existsb puts_back tr = is_local r
                  /\ retryTimer s' = retryTimer s
                  /\ pendingDeletes (db s') = pendingDeletes (db s)).
Proof.
  eapply returns_mono.
  - apply returns_and; [apply uploadRecording_well_formed|].
    apply returns_and; [apply uploadRecording_backstage|apply uploadRecording_puts_back].
  - intros r s' (Hwf & [(tr & Htr & Hall) [Ht Hp]] & (tr' & Htr' & Hpb)).
    split; [done|].
    assert (tr' = tr) as -> by (rewrite Htr in Htr'; by apply app_inv_head in Htr').
    by exists tr.
Qed.

Lemma uploadEach_behind (pending : list Recording) (results : list UploadResult)
    (w : World) (s : St) :
  returns (uploadEach pending results) w s (fun out s' =>
    exists tr, trace s' = trace s ++ tr
               /\ Forall silent tr
               /\ existsb is_local out
                  = existsb is_local results || existsb puts_back tr
               /\ retryTimer s' = retryTimer s
               /\ pendingDeletes (db s') = pendingDeletes (db s)).
Proof.
  revert results s. induction pending as [|r pending IH]; intros results s; simpl.
  - exists []. rewrite app_nil_r. simpl. by rewrite orb_false_r.
  - apply returns_bind. eapply returns_mono; [apply uploadRecording_behind|].
    intros res s1 (_ & tr1 & E1 & F1 & B1 & T1 & P1).
    eapply returns_mono; [apply IH|].
    intros out s2 (tr2 & E2 & F2 & B2 & T2 & P2).
    exists (tr1 ++ tr2). rewrite E2, E1, <- app_assoc. split; [done|].
    split; [by apply Forall_app|].
    rewrite B2, !existsb_app, B1. simpl. rewrite orb_false_r, orb_assoc.
    split; [done|]. split; congruence.
Qed.

Lemma uploadAllPending_behind (w : World) (s : St) :
  returns uploadAllPending w s (fun out s' =>
    exists tr, trace s' = trace s ++ tr
               /\ Forall silent tr
               /\ existsb is_local out = existsb puts_back tr
               /\ retryTimer s' = retryTimer s
               /\ pendingDeletes (db s') = pendingDeletes (db s)).
Proof.
  unfold uploadAllPending. apply returns_bind.
  unfold returns at 1, getRecordingsByStatus. apply uploadEach_behind.
Qed.

(** ** The sweep re-arms the probe while work remains *)

Lemma retryDeletes_silent (l : list PendingDelete) (w : World) (s : St) :
  returns (retryDeletes l) w s (fun _ s' =>
    extends s s' (fun tr => Forall silent tr /\ existsb puts_back tr = false)
    /\ retryTimer s' = retryTimer s).
Proof.
  revert s. induction l as [|e l IH]; intros s; simpl.
  - split; [by apply extends_refl|done].
  - apply returns_bind.
    assert (H1 : returns (retryDelete e) w s (fun _ s' =>
              extends s s' (fun tr => Forall silent tr /\ existsb puts_back tr = false)
              /\ retryTimer s' = retryTimer s)).
    { unfold returns, retryDelete, catch, bind, extends.
      rewrite deleteRecordingFromServer_run.
      destruct (net w (fetches s)) as [r|err]; simpl.
      - destruct (ok r); simpl; (split; [|done]); eexists;
          (split; [rewrite <- ?app_assoc; reflexivity|]);
          (split; [by repeat constructor|done]).
      - split; [|done]. eexists. split; [reflexivity|].
        split; [by repeat constructor|done]. }
    eapply returns_mono; [exact H1|].
    intros [] s1 [(tr1 & E1 & F1 & B1) T1]. eapply returns_mono; [apply IH|].
    intros [] s2 [(tr2 & E2 & F2 & B2) T2]. split; [|congruence].
    exists (tr1 ++ tr2). rewrite E2, E1, <- app_assoc. split; [done|].
    split; [by apply Forall_app|]. by rewrite existsb_app, B1, B2.
Qed.

Lemma silent_lookups (tr : list Event) :
  Forall silent tr -> existsb lookup_failed tr = false.
Proof.
  induction 1 as [|ev tr Hev _ IH]; [done|]. simpl. rewrite IH.
  by destruct ev as [| | | | | | | |[]|].
Qed.

Lemma notifications_plain (n : nat) (result : UploadResult) :
  existsb puts_back (replicate n (notification result)) = false
  /\ existsb lookup_failed (replicate n (notification result)) = false.
Proof. induction n as [|n [IH1 IH2]]; [done|]. simpl. by rewrite IH1, IH2. Qed.

(** The notifications of a list of results: they change neither the store
    nor the timer; they either all go through, or stop at the first
    look-up of the window clients that is rejected. *)
Lemma broadcastEach_outcome (results : list UploadResult) (w : World) (s : St) :
  let r := broadcastEach results w s in
  exists tr,
    trace r.2 = trace s ++ tr
    /\ db r.2 = db s
    /\ retryTimer r.2 = retryTimer s
    /\ existsb puts_back tr = false
    /\ match r.1 with
       | Ok _ => existsb lookup_failed tr = false
       | Throw e => exists tr', tr = tr' ++ [EvMatchAll (MatchAllRejected e)]
       end.
Proof.
  revert s. induction results as [|result results IH]; intros s; cbn zeta.
  - exists []. simpl. by rewrite app_nil_r.
  - remember (broadcastEach (result :: results) w s) as R eqn:HR.
    simpl in HR. unfold bind at 1, broadcastStatus in HR. cbn zeta in HR.
    destruct (matchAll w (length (trace s))) as [n|e] eqn:Hm.
    + subst R.
      specialize (IH (postEach n result (log (EvMatchAll (Windows n)) s))).
      cbn zeta in IH. destruct IH as (tr & Htr & Hdb & Ht & Hpb & Hres).
      destruct (postEach_frame n result (log (EvMatchAll (Windows n)) s))
        as (D & T & _).
      destruct (notifications_plain n result) as [N1 N2].
      exists (EvMatchAll (Windows n) :: replicate n (notification result) ++ tr).
      rewrite Htr, postEach_trace, Hdb, Ht, D, T. simpl.
      split; [by rewrite <- !app_assoc|]. split; [done|]. split; [done|].
      rewrite !existsb_app, N1, N2, Hpb. split; [done|].
      destruct (broadcastEach results w _).1 as [[]|e'].
      * done.
      * destruct Hres as [tr' ->].
        exists (EvMatchAll (Windows n) :: replicate n (notification result) ++ tr').
        simpl. by rewrite <- app_assoc.
    + subst R. exists [EvMatchAll (MatchAllRejected e)]. simpl.
      repeat split; try done. by exists [].
Qed.

Lemma pending_nonempty (d : DB) :
  (0 <? Z.of_nat (length (AudioStore.getAllPendingDeletes d)))%Z = true
  <-> pendingDeletes d <> ∅.
Proof.
  unfold AudioStore.getAllPendingDeletes. rewrite length_fmap.
  rewrite <- (map_to_list_empty_iff (pendingDeletes d)).
  destruct (map_to_list (pendingDeletes d)); simpl; split; done.
Qed.

(** The sweep, whether it returns or rejects. *)
Lemma handleRetryAll_outcome (w : World) (s : St) :
  let r := handleRetryAll w s in
  exists tr,
    trace r.2 = trace s ++ tr
    /\ match r.1 with
       | Ok _ =>
           existsb lookup_failed tr = false
           /\ (retryTimer r.2 = true
               <-> retryTimer s = true
                   \/ pendingDeletes (db r.2) <> ∅
                   \/ existsb puts_back tr = true)
       | Throw e =>
           (exists tr', tr = tr' ++ [EvMatchAll (MatchAllRejected e)])
           /\ retryTimer r.2 = retryTimer s
       end.
Proof.
  cbn zeta. remember (handleRetryAll w s) as R eqn:HR.
  unfold handleRetryAll, bind at 1, handleRetryDeletes, bind at 1,
    getAllPendingDeletes in HR.
  pose proof (retryDeletes_silent (AudioStore.getAllPendingDeletes (db s)) w s) as H1.
  unfold returns in H1.
  destruct (retryDeletes _ w s) as [[[]|e1] s1]; [|done].
  destruct H1 as [(tr1 & E1 & F1 & B1) T1].
  unfold bind at 1 in HR.
  pose proof (uploadAllPending_behind w s1) as H2. unfold returns in H2.
  destruct (uploadAllPending w s1) as [[results|e2] s2]; [|done].
  destruct H2 as (tr2 & E2 & F2 & B2 & T2 & P2).
  unfold bind at 1 in HR.
  destruct (broadcastEach_outcome results w s2) as (tr3 & E3 & D3 & T3 & B3 & H3).
  cbn zeta in *.
  destruct (broadcastEach results w s2) as [[[]|e3] s3]; cbn [fst snd] in *.
  - unfold bind, getAllPendingDeletes in HR.
    pose proof (pending_nonempty (db s3)) as Hpend.
    pose proof (silent_lookups _ F1) as L1. pose proof (silent_lookups _ F2) as L2.
    fold is_local in HR.
    destruct (existsb is_local results || (0 <? _)%Z) eqn:Hc.
    + rewrite scheduleRetry_run in HR. subst R. cbn [fst snd].
      exists (tr1 ++ tr2 ++ tr3 ++ (if retryTimer s3 then [] else [EvScheduleRetry])).
      rewrite armed_trace, armed_timer, armed_db, E3, E2, E1, <- !app_assoc.
      split; [done|].
      rewrite !existsb_app, L1, L2, H3, B1, B3. cbn [orb].
      split; [by destruct (retryTimer s3)|].
      split; [|done]. intros _. right.
      apply orb_true_iff in Hc as [Hc|Hc].
      * right. rewrite <- B2, Hc. by destruct (retryTimer s3).
      * left. by apply Hpend.
    + subst R. cbn [fst snd ret]. exists (tr1 ++ tr2 ++ tr3).
      rewrite E3, E2, E1, <- !app_assoc. split; [done|].
      rewrite !existsb_app, L1, L2, H3, B1, B3, <- B2. cbn [orb].
      apply orb_false_iff in Hc as [Hc1 Hc2]. rewrite Hc1.
      split; [done|]. rewrite T3, T2, T1. split; [by left|].
      intros [H|[H|H]]; [done| |done].
      apply Hpend in H. congruence.
  - subst R. cbn [fst snd]. exists (tr1 ++ tr2 ++ tr3).
    rewrite E3, E2, E1, <- !app_assoc. split; [done|].
    split; [|congruence]. destruct H3 as [tr' ->]. exists (tr1 ++ tr2 ++ tr').
    by rewrite <- !app_assoc.
Qed.

(** X17: the sweep puts the probe timer in charge of what it leaves undone.
    When it returns normally, the timer is armed exactly if it was armed
    before, or a pending delete is still recorded, or the sweep has put a
    record back to [local].  It rejects only when a look-up of the window
    clients is rejected, and then leaves the timer as it was.  The callback
    of the probe timer, which clears the timer, probes the server and runs
    the sweep inside its [try], never rejects, and leaves the timer armed
    exactly if the probe was not answered OK, or the sweep it ran was cut
    short by a rejected look-up, or left a pending delete, or put a record
    back to [local]. *)
Theorem handleRetryAll_rearms_while_work_remains (w : World) (s : St) :
  (let r := handleRetryAll w s in
   exists tr,
     trace r.2 = trace s ++ tr
     /\ match r.1 with
        | Ok _ =>
            existsb lookup_failed tr = false
            /\ (retryTimer r.2 = true
                <-> retryTimer s = true
                    \/ pendingDeletes (db r.2) <> ∅
                    \/ existsb puts_back tr = true)
        | Throw e =>
            (exists tr', tr = tr' ++ [EvMatchAll (MatchAllRejected e)])
            /\ retryTimer r.2 = retryTimer s
        end)
  /\ returns onRetryTimer w s (fun _ s' =>
       exists tr,
         trace s' = trace s ++ EvFetch Health (net w (fetches s)) :: tr
         /\ (retryTimer s' = true
             <-> answered_ok (net w (fetches s)) = false
                 \/ existsb lookup_failed tr = true
                 \/ pendingDeletes (db s') <> ∅
                 \/ existsb puts_back tr = true)).
Proof.
  split; [apply handleRetryAll_outcome|].
  unfold returns, onRetryTimer, bind at 1, clear_retryTimer, catch, bind at 1, fetch.
  cbn [fetches set_retryTimer].
  destruct (net w (fetches s)) as [r|err] eqn:Hout; cbn [answered_ok].
  - destruct (ok r) eqn:Hok.
    + destruct (handleRetryAll_outcome w
                  (log (EvFetch Health (Resolved r))
                     (next_fetch (set_retryTimer false s))))
        as (tr & Htr & Hres).
      cbn zeta in *. destruct (handleRetryAll w _) as [[[]|e] s']; cbn [fst snd] in *.
      * exists tr. split; [by rewrite Htr; simpl; rewrite <- app_assoc|].
        destruct Hres as [Hl Hiff]. rewrite Hiff, Hl. simpl. split.
        -- intros [?|[H|H]]; [done|by right; right; left|by right; right; right].
        -- intros [?|[?|[H|H]]]; [done|done|by right; left|by right; right].
      * destruct Hres as [[tr' ->] Ht]. rewrite scheduleRetry_run.
        simpl in Ht. rewrite armed_trace, armed_timer, Ht, Htr. simpl.
        exists ((tr' ++ [EvMatchAll (MatchAllRejected e)]) ++ [EvScheduleRetry]).
        split; [by rewrite <- !app_assoc|]. split; [|done]. intros _. right. left.
        rewrite !existsb_app. simpl. by rewrite orb_true_r.
    + rewrite scheduleRetry_run. unfold armed. simpl. exists [EvScheduleRetry].
      split; [by rewrite <- app_assoc|]. split; [by left|done].
  - rewrite scheduleRetry_run. unfold armed. simpl. exists [EvScheduleRetry].
    split; [by rewrite <- app_assoc|]. split; [by left|done].
Qed.

(** ** An upload that goes ahead *)

Lemma broadcastStatus_answers (result : UploadResult) (w : World) (s : St) :
  platform_answers w ->
  exists n,
    matchAll w (length (trace s)) = Windows n
    /\ broadcastStatus result w s
       = (Ok tt, postEach n result (log (EvMatchAll (Windows n)) s)).
Proof.
  intros [H _]. destruct (H (length (trace s))) as [n Hn]. exists n.
  split; [done|]. unfold broadcastStatus. by rewrite Hn.
Qed.

Lemma upload_and_report (rid : string) (w : World) (s : St) :
  platform_answers w ->
  returns
    (bind (broadcastStatus {| success := false; recordingId := rid;
                              res_status := uploading; error := None |})
       (fun _ => bind (uploadRecording rid) (fun result =>
          bind (broadcastStatus result) (fun _ =>
            if negb (success result)
            then (if isSafari w then scheduleRetry else registerSync)
            else ret tt)))) w s
    (fun _ s' =>
       exists n1 n2 result mid,
         matchAll w (length (trace s)) = Windows n1
         /\ well_formed_result rid result
         /\ Forall silent mid
         /\ trace s' = trace s
                       ++ notified n1 {| success := false; recordingId := rid;
                                         res_status := uploading; error := None |}
                       ++ mid ++ notified n2 result ++ recovery w s result
         /\ pendingDeletes (db s') = pendingDeletes (db s)
         /\ (success result = false -> isSafari w = true -> retryTimer s' = true)).
Proof.
  intros Hw. unfold returns, bind at 1.
  destruct (broadcastStatus_answers
              {| success := false; recordingId := rid; res_status := uploading;
                 error := None |} w s Hw) as (n1 & Hn1 & ->).
  set (s1 := postEach n1 _ _).
  assert (Hs1 : trace s1 = trace s ++ notified n1 {| success := false; recordingId := rid;
                                         res_status := uploading; error := None |}).
  { unfold s1. rewrite postEach_trace. simpl. by rewrite <- app_assoc. }
  destruct (postEach_frame n1 {| success := false; recordingId := rid;
              res_status := uploading; error := None |}
              (log (EvMatchAll (Windows n1)) s)) as (D1 & T1 & _).
  fold s1 in D1, T1. simpl in D1, T1.
  unfold bind at 1.
  pose proof (uploadRecording_behind rid w s1) as H2. unfold returns in H2.
  destruct (uploadRecording rid w s1) as [[result|e] s2]; [|done].
  destruct H2 as (Hwf & mid & E2 & F2 & _ & T2 & P2).
  unfold bind at 1.
  destruct (broadcastStatus_answers result w s2 Hw) as (n2 & Hn2 & ->).
  set (s3 := postEach n2 _ _).
  assert (Hs3 : trace s3 = trace s2 ++ notified n2 result).
  { unfold s3. rewrite postEach_trace. simpl. by rewrite <- app_assoc. }
  destruct (postEach_frame n2 result (log (EvMatchAll (Windows n2)) s2))
    as (D3 & T3 & _).
  fold s3 in D3, T3. simpl in D3, T3.
  assert (Htimer : retryTimer s3 = retryTimer s) by congruence.
  assert (Hpend : pendingDeletes (db s3) = pendingDeletes (db s)) by congruence.
  unfold recovery.
  destruct (success result) eqn:Hsucc; cbn [negb].
  - exists n1, n2, result, mid. rewrite Hsucc.
    split; [done|]. split; [done|]. split; [done|].
    split; [by rewrite Hs3, E2, Hs1, app_nil_r, <- !app_assoc|]. by split.
  - destruct (isSafari w).
    + rewrite scheduleRetry_run. exists n1, n2, result, mid. rewrite Hsucc.
      split; [done|]. split; [done|]. split; [done|].
      rewrite armed_trace, armed_db, armed_timer, Htimer.
      split; [by rewrite Hs3, E2, Hs1, <- !app_assoc|]. by split.
    + rewrite registerSync_run, (sync_result_answers w s3 Hw).
      exists n1, n2, result, mid. rewrite Hsucc.
      split; [done|]. split; [done|]. split; [done|].
      rewrite sync_registered_trace, sync_registered_db.
      split; [by rewrite Hs3, E2, Hs1, <- !app_assoc|]. by split.
Qed.

(** X18: while neither [clients.matchAll] nor [sync.register] rejects, an
    upload request that goes ahead (the browser online and, on Safari, the
    health probe answered OK) returns normally and notifies the page twice:
    it posts [uploading] to each window client open before the pipeline
    runs, and the result of the pipeline to each window client open after
    it; the pipeline in between looks up and notifies no client.  After a
    result that is not a success it registers a background sync or, on
    Safari, arms the probe timer.  The pending deletes are untouched. *)
Theorem handleUpload_reports_and_rearms (rid : string) (w : World) (s : St) :
  platform_answers w ->
  onLine w (fetches s) = true ->
  (isSafari w = true -> answered_ok (net w (fetches s)) = true) ->
  returns (handleUpload rid) w s (fun _ s' =>
    exists n1 n2 result mid,
      matchAll w (length (trace s ++ probe w s)) = Windows n1
      /\ well_formed_result rid result
      /\ Forall silent mid
      /\ trace s' = trace s ++ probe w s
                      ++ notified n1 {| success := false; recordingId := rid;
                                        res_status := uploading; error := None |}
                      ++ mid ++ notified n2 result ++ recovery w s result
      /\ pendingDeletes (db s') = pendingDeletes (db s)
      /\ (success result = false -> isSafari w = true -> retryTimer s' = true)).
Proof.
  intros Hw Hon Hprobe. unfold handleUpload. apply returns_bind.
  unfold returns at 1, navigator_onLine. rewrite Hon. cbn [negb].
  unfold returns. cbn beta. unfold bind at 1, probe.
  destruct (isSafari w) eqn:Hsafari.
  - rewrite checkConnectivity_run, (Hprobe eq_refl). cbn [negb].
    pose proof (upload_and_report rid w
                  (log (EvFetch Health (net w (fetches s))) (next_fetch s)) Hw) as H.
    unfold returns in H. rewrite Hsafari in H.
    destruct (bind _ _ w _) as [[[]|e] s']; [|done].
    destruct H as (n1 & n2 & result & mid & Hn1 & Hwf & Fm & E & P & T).
    exists n1, n2, result, mid. simpl in Hn1, E, P.
    unfold recovery in *. simpl in E. rewrite Hsafari in *.
    rewrite <- app_assoc in E. done.
  - unfold ret. cbn [negb].
    pose proof (upload_and_report rid w s Hw) as H.
    unfold returns in H. rewrite Hsafari in H.
    destruct (bind _ _ w _) as [[[]|e] s']; [|done].
    destruct H as (n1 & n2 & result & mid & Hn1 & Hwf & Fm & E & P & T).
    exists n1, n2, result, mid. unfold recovery in *. rewrite Hsafari in *.
    rewrite app_nil_r. done.
Qed.

Lemma world_of_answers (answers : list FetchOutcome) (r : Q) :
  platform_answers (on_safari (world_of answers r)).
Proof. split; [intros n; by exists 1%nat|done]. Qed.

Lemma handleUpload_reports_and_rearms_witness :
  let s := state_of (AudioStore.saveRecording (fresh "r1" webm) emptyDB) in
  let w := on_safari (world_of [respond 200; respond 403] 0) in
  returns (handleUpload "r1") w s (fun _ s' =>
    exists n1 n2 result mid,
      matchAll w (length (trace s ++ probe w s)) = Windows n1
      /\ well_formed_result "r1" result
      /\ Forall silent mid
      /\ trace s' = trace s ++ probe w s
                      ++ notified n1 {| success := false; recordingId := "r1";
                                        res_status := uploading; error := None |}
                      ++ mid ++ notified n2 result ++ recovery w s result
      /\ pendingDeletes (db s') = pendingDeletes (db s)
      /\ (success result = false -> isSafari w = true -> retryTimer s' = true)).
Proof.
  intros s w.
  apply (handleUpload_reports_and_rearms "r1" w s).
  - apply world_of_answers.
  - reflexivity.
  - intros _. reflexivity.
Defined.

(** ** A delete made offline is replayed by the sweep *)

(** X19: a delete requested while offline, on a store with no other pending
    delete, leaves exactly one pending entry, holding the id and the key.
    The next sweep issues exactly one request, the delete for that id and
    key; if the server answers OK the entry is removed and the pending
    deletes are empty again, and otherwise (a refusal or a rejection) the
    entry stays as it was. *)
Theorem offline_delete_is_replayed (rid key : string) (w w' : World) (s : St) :
  onLine w (fetches s) = false ->
  pendingDeletes (db s) = ∅ ->
  let s1 := (handleDelete rid key w s).2 in
  let out := net w' (fetches s1) in
  pendingDeletes (db s1) = {[ rid := key ]}
  /\ returns handleRetryDeletes w' s1 (fun _ s2 =>
       trace s2 = trace s1 ++ EvFetch (DeleteRecording key rid) out
                              :: (if answered_ok out
                                  then [EvRemovePendingDelete rid] else [])
       /\ pendingDeletes (db s2)
          = (if answered_ok out then ∅ else {[ rid := key ]})).
Proof.
  intros Hoff Hempty s1 out.
  assert (Hs1 : s1 = sync_registered w
                       (log (EvAddPendingDelete (mkPendingDelete rid key))
                          (set_db (AudioStore.addPendingDelete
                                     (mkPendingDelete rid key) (db s)) s))).
  { subst s1. unfold handleDelete, bind at 1, navigator_onLine. rewrite Hoff.
    simpl. unfold bind, addPendingDelete. rewrite registerSync_run.
    by destruct (sync_result w _). }
  assert (Hp1 : pendingDeletes (db s1) = {[ rid := key ]}).
  { rewrite Hs1. unfold sync_registered. destruct (hasSync w); simpl;
      by rewrite Hempty, insert_empty. }
  split; [exact Hp1|].
  unfold returns, handleRetryDeletes, bind at 1, getAllPendingDeletes.
  unfold AudioStore.getAllPendingDeletes. rewrite Hp1, map_to_list_singleton.
  simpl. unfold bind at 1, retryDelete, catch, bind at 1.
  rewrite deleteRecordingFromServer_run. fold out.
  destruct out as [r|e]; simpl.
  - destruct (ok r); simpl.
    + split; [by rewrite <- app_assoc|]. by rewrite Hp1, delete_singleton_eq.
    + done.
  - done.
Qed.

Lemma offline_delete_is_replayed_witness :
  let s := state_of emptyDB in
  let s1 := (handleDelete "r1" "recordings/k" (offline (world_of [] 0)) s).2 in
  pendingDeletes (db s1) = {[ "r1" := "recordings/k" ]}
  /\ returns handleRetryDeletes (world_of [] 0) s1 (fun _ s2 =>
       pendingDeletes (db s2) = ∅).
Proof.
  intros s s1.
  destruct (offline_delete_is_replayed "r1" "recordings/k"
              (offline (world_of [] 0)) (world_of [] 0) s eq_refl eq_refl)
    as [Hone Hsweep].
  split; [exact Hone|].
  eapply returns_mono; [exact Hsweep|]. intros [] s2 [_ Hp]. exact Hp.
Defined.


End Worker.

Section ManualRetry.
Import Js AudioStore Effects Upload UploadSpec Examples ServiceWorker ReconcileSpec
  StoreSpec Page PipelineSpec WorkerSpec RetryTimer.
Local Open Scope list_scope.

(** X20: the manual retry of the page writes the record back as local with
    an attempt count of 0, whatever its status and count were; the next
    invocation of the pipeline for that id therefore enters the attempt loop
    again, and opens attempt number 1. *)
Theorem manual_retry_reopens_budget (rid : string) (recording : Recording)
    (w : World) (s : St) :
  AudioStore.getRecordingById rid (db s) = Some recording ->
  let s1 := set_db (Page.handleRetry rid (db s)) s in
  stored_as rid local 0 (db s1)
  /\ returns (uploadRecording rid) w s1 (fun _ s' =>
       exists rest, trace s' = trace s ++ opens_attempt rid 1 :: rest).
Proof.
  intros Hget s1.
  destruct (present_of_get _ _ _ Hget) as (raw & Hraw & Hrec).
  assert (Hstored : stored_as rid local 0 (db s1)).
  { subst s1. unfold Page.handleRetry. simpl. apply stored_after_update.
    by eexists. }
  split; [exact Hstored|].
  destruct Hstored as (raw1 & Hraw1 & Hst1 & Hat1).
  assert (Hget1 : AudioStore.getRecordingById rid (db s1)
                  = Some (hydrateRecording raw1))
    by (unfold AudioStore.getRecordingById; by rewrite Hraw1).
  destruct (hydrate_fields raw1) as (_ & _ & _ & _ & _ & Hs & _ & Ha & _).
  apply uploadRecording_rule.
  - congruence.
  - intros r Hr Hsyn. assert (r = hydrateRecording raw1) as -> by congruence.
    congruence.
  - intros r Hr _ Hge. assert (r = hydrateRecording raw1) as -> by congruence.
    rewrite Ha, Hat1 in Hge. unfold MAX_ATTEMPTS in Hge. lia.
  - intros r Hr _ Hlt. assert (r = hydrateRecording raw1) as -> by congruence.
    eapply returns_mono; [apply (loop_opens rid _ w s); [done|done]|].
    intros res s' [rest Hrest]. exists rest. by rewrite Hrest, Ha, Hat1.
Qed.

Lemma manual_retry_reopens_budget_witness :
  let s := state_of (AudioStore.saveRecording exhausted emptyDB) in
  let s1 := set_db (Page.handleRetry "r8" (db s)) s in
  stored_as "r8" local 0 (db s1)
  /\ returns (uploadRecording "r8") (world_of [] 0) s1 (fun _ s' =>
       exists rest, trace s' = trace s ++ opens_attempt "r8" 1 :: rest).
Proof.
  intros s s1.
  apply (manual_retry_reopens_budget "r8" exhausted (world_of [] 0) s).
  vm_compute. reflexivity.
Defined.


End ManualRetry.

(* ===================================================================== *)
(** * The queue drains *)
(* ===================================================================== *)

Section Drain.
Import TaskQueue LaneSpec Examples DrainSpec.
Local Open Scope list_scope.

Lemma completed_activity (tr : list Label) : completed (activity tr) = completed tr.
Proof.
  unfold completed, activity. induction tr as [|[t|t|t o] tr IH]; simpl;
    [done|exact IH|exact IH|by f_equal].
Qed.

Lemma completed_serial (done : list Task) (os : list Settlement) (cur : option Task) :
  length os = length done ->
  completed (serial done os ++ started_of cur) = done.
Proof.
  revert os. induction done as [|t done IH]; intros [|o os] Hlen; simpl in *;
    try discriminate.
  - by destruct cur.
  - unfold completed in *. simpl. rewrite IH by lia. done.
Qed.

(** X21: in every execution of the worker the tasks complete in the order
    in which they were submitted, and the promise held in [uploadQueue] (the
    one each listener hands to [event.waitUntil]) is settled exactly when
    every task submitted so far has completed, whether it succeeded or
    failed. *)
Theorem queue_drains_when_all_completed (tr : list Label) (w : Worker) :
  exec tr w ->
  completed tr `prefix_of` submitted tr
  /\ (drained w <-> completed tr = submitted tr).
Proof.
  intros Hexec.
  destruct (exec_lane tr w Hexec)
    as (done & os & cur & rest & Hsub & Hlen & Hact & Hfresh & Hshape).
  assert (Hdone : completed tr = done)
    by (rewrite <- completed_activity, Hact; by apply completed_serial).
  rewrite Hdone, Hsub. split; [by eexists|].
  unfold drained. destruct cur as [t|].
  - destruct Hshape as (p & _ & _ & Hc). apply chain_last in Hc.
    split.
    + intros [o Ho]. congruence.
    + intros H. apply (f_equal length) in H. rewrite !length_app in H.
      simpl in H. lia.
  - destruct Hshape as [_ Hrest]. destruct rest as [|t rest'].
    + destruct Hrest as [_ Ho]. split; [|done]. intros _. simpl.
      by rewrite app_nil_r.
    + destruct Hrest as (p & _ & Hc). apply chain_last in Hc. split.
      * intros [o Ho]. congruence.
      * intros H. apply (f_equal length) in H. rewrite !length_app in H.
        simpl in H. lia.
Qed.

Lemma queue_drains_when_all_completed_witness :
  completed sample_trace `prefix_of` submitted sample_trace
  /\ (drained sample_worker <-> completed sample_trace = submitted sample_trace).
Proof. exact (queue_drains_when_all_completed sample_trace sample_worker sample_exec). Defined.


End Drain.
